(** * SNHL_sim: a shallow embedding of the hearing-loss simulator

    The development follows [src/SNHL_sim.py].  The two signal-processing
    closures of [process_audios] ([apply_frequency_dependent_attenuation] and
    [apply_dynamic_range_compression]) are modelled over exact real
    arithmetic: a finite sample is a real number, and the IEEE special values
    that numpy produces on a division by zero ([nan], [inf]) are explicit
    constructors of the output sample type.  Rounding of the samples is
    not modelled.  The bin frequencies are the exception: whether a bin
    lies above a threshold is a yes or a no, and a last-digit difference
    decides it, so the frequencies are binary64 floats computed with the
    operations and in the order of the code, and compared as floats.  The
    gains (1, 0.6, 0.3, 0.1 and their products) are exact rationals.
    The application object ([AudioProcessingApp]) is a record and its
    methods are state-passing functions.  The collaborators the program
    calls (decoder, file test, encoder) are the fields of a record [env];
    what the program does to the outside is appended to a trace ([world]).
    The processing thread is run to its end before the next user action. *)

From Stdlib Require Import String Ascii Bool.
From Stdlib Require Import Floats.
From Stdlib Require Import Reals Lra Lia ZArith QArith Qreals.
From Stdlib Require Import List.
Import ListNotations.

(** ** Exceptions and results *)

Inductive exn : Type :=
| ValueError (msg : string)
| ZeroDivisionError
| IndexError
| ExternalError (msg : string).

Inductive result (A : Type) : Type :=
| Ok (a : A)
| Raise (e : exn).

Arguments Ok {A} a.
Arguments Raise {A} e.

Definition bind {A B : Type} (r : result A) (k : A -> result B) : result B :=
  match r with
  | Ok a => k a
  | Raise e => Raise e
  end.

Notation "x <- r ;; k" := (bind r (fun x => k))
  (at level 61, r at next level, right associativity).

(** ** The part of numpy the program uses *)

Module Numpy.

Local Open Scope R_scope.

(** A float64 as numpy can return it from a division: a finite value, a
    signed infinity or a nan. *)
Inductive npfloat : Type :=
| Finite (r : R)
| Inf (negative : bool)
| NaN.

Definition np_sign (x : R) : R :=
  match total_order_T x 0 with
  | inleft (left _) => -1
  | inleft (right _) => 0
  | inright _ => 1
  end.

Definition np_log1p (x : R) : R := ln (1 + x).

(** [np.max] of a one-dimensional array; it raises on a zero-size array. *)
Definition np_max (a : list R) : result R :=
  match a with
  | [] => Raise (ValueError "zero-size array to reduction operation maximum which has no identity")
  | x :: t => Ok (fold_left Rmax t x)
  end.

(** [m] is a largest element of [l]: what [np.max] returns. *)
Definition is_max (m : R) (l : list R) : Prop :=
  In m l /\ forall x, In x l -> x <= m.

(** Float division as numpy performs it: no exception, [0/0] is nan and
    [x/0] is an infinity carrying the sign of [x]. *)
Definition np_div (x m : R) : npfloat :=
  if Req_dec_T m 0 then
    if Req_dec_T x 0 then NaN
    else Inf (if Rlt_dec x 0 then true else false)
  else Finite (x / m).

(** Complex samples of a spectrum, as pairs (real part, imaginary part). *)
Definition complex : Type := (R * R)%type.

Definition Cre (z : complex) : R := fst z.
Definition Cim (z : complex) : R := snd z.
Definition Cadd (a b : complex) : complex := (Cre a + Cre b, Cim a + Cim b).
Definition Cmul (a b : complex) : complex :=
  (Cre a * Cre b - Cim a * Cim b, Cre a * Cim b + Cim a * Cre b).
Definition Cscale (g : R) (z : complex) : complex := (g * Cre z, g * Cim z).
Definition Cexp_i (theta : R) : complex := (cos theta, sin theta).
Definition Csum (l : list complex) : complex := fold_right Cadd (0, 0) l.

(** Bin [k] of the forward transform of [a]:
    the sum over [n] of [a[n] * exp (-2 pi i k n / N)]. *)
Definition rfft_bin (a : list R) (k : nat) : complex :=
  Csum (map (fun nx : nat * R =>
               Cscale (snd nx)
                 (Cexp_i (- (2 * PI * INR k * INR (fst nx) / INR (length a)))))
            (combine (seq 0 (length a)) a)).

(** [np.fft.rfft]: the [N/2 + 1] non-negative frequency bins; a zero-size
    input raises. *)
Definition np_fft_rfft (a : list R) : result (list complex) :=
  match a with
  | [] => Raise (ValueError "Invalid number of FFT data points (0) specified.")
  | _ :: _ => Ok (map (rfft_bin a) (seq 0 (length a / 2 + 1)))
  end.

(** Weight of bin [k] among [m] half-spectrum bins in the inverse
    transform: the first and last bins count once, the others stand for a
    conjugate pair. *)
Definition hermitian_weight (m k : nat) : R :=
  if (k =? 0)%nat then 1 else if (k =? m - 1)%nat then 1 else 2.

(** Sample [t] of the inverse transform of the half spectrum [X] to [n]
    real points. *)
Definition irfft_sample (X : list complex) (n t : nat) : R :=
  / INR n *
  fold_right Rplus 0
    (map (fun kz : nat * complex =>
            hermitian_weight (length X) (fst kz) *
            Cre (Cmul (snd kz)
                      (Cexp_i (2 * PI * INR (fst kz) * INR t / INR n))))
         (combine (seq 0 (length X)) X)).

(** [np.fft.irfft] called without [n]: the output has [2 * (m - 1)] points
    for [m] input bins, and zero output points raise. *)
Definition np_fft_irfft (X : list complex) : result (list R) :=
  let n := (2 * (length X - 1))%nat in
  if (n =? 0)%nat
  then Raise (ValueError "Invalid number of FFT data points (0) specified.")
  else Ok (map (irfft_sample X n) (seq 0 n)).

(** The conversion of an integer to a float64 ([float(i)], and the cast of
    an [int64] array entry): the nearest float, ties to even.  Beyond the
    float range, where Python raises OverflowError, it is an infinity; a
    buffer length, a bin index and a C [int] convert without rounding. *)
Definition py_float (i : Z) : float :=
  SF2Prim (binary_normalize prec emax i 0 false).

(** Python's [a / b] on two [int]s: a float, and ZeroDivisionError for a
    zero divisor.  The quotient is rounded once; for operands below 2^53
    in magnitude (a sampling rate is a C [int]) that is the float
    division of the converted operands. *)
Definition py_truediv_int (a b : Z) : result float :=
  if (b =? 0)%Z then Raise ZeroDivisionError
  else Ok (py_float a / py_float b)%float.

(** [np.fft.rfftfreq n d]: [val = 1.0 / (n * d)], then
    [arange (n // 2 + 1) * val], every operation in float64.  The division
    is Python's and raises when [n * d] is zero; with [d] the reciprocal of
    a non-zero C [int], as in the one call of the program, that is when
    [n] is zero. *)
Definition np_fft_rfftfreq (n : nat) (d : float) : result (list float) :=
  match n with
  | O => Raise ZeroDivisionError
  | S _ =>
      let val := (1 / (py_float (Z.of_nat n) * d))%float in
      Ok (map (fun k => (py_float (Z.of_nat k) * val)%float) (seq 0 (n / 2 + 1)))
  end.

(** [np.ones_like freqs]: the mask starts as ones. *)
Definition np_ones_like (a : list float) : list Q := map (fun _ => 1%Q) a.

(** Element-wise [freqs > threshold], a float comparison. *)
Definition np_greater (a : list float) (threshold : float) : list bool :=
  map (fun f => (threshold <? f)%float) a.

(** [a[mask] *= c]: the selected entries are multiplied in place. *)
Definition np_imul_where (a : list Q) (mask : list bool) (c : Q) : list Q :=
  map (fun am : Q * bool => if snd am then (fst am * c)%Q else fst am)
      (combine a mask).

(** Element-wise product of a complex and a real array of the same shape. *)
Definition np_multiply (X : list complex) (g : list Q) : result (list complex) :=
  if (length X =? length g)%nat
  then Ok (map (fun zg : complex * Q => Cscale (Q2R (snd zg)) (fst zg))
               (combine X g))
  else Raise (ValueError "operands could not be broadcast together").

End Numpy.

(** ** The signal-processing closures of [process_audios] *)

Module Dsp.

Import Numpy.
Local Open Scope R_scope.

(** Lines 114-117: the gain mask over the bin frequencies. *)
Definition attenuation_mask (freqs : list float) : list Q :=
  let attenuation := np_ones_like freqs in
  let attenuation := np_imul_where attenuation (np_greater freqs 1000) 0.6 in
  let attenuation := np_imul_where attenuation (np_greater freqs 3000) 0.3 in
  let attenuation := np_imul_where attenuation (np_greater freqs 6000) 0.1 in
  attenuation.

(** The gain of a bin whose computed frequency is [f], one value per band
    as the specification lists them: the band is found with the
    comparisons of the code, from the highest threshold down. *)
Definition band_gain (f : float) : Q :=
  if (6000 <? f)%float then 0.018%Q
  else if (3000 <? f)%float then 0.18%Q
  else if (1000 <? f)%float then 0.6%Q
  else 1%Q.

(** Entry [k] of [np.fft.rfftfreq(n, 1 / sampling_rate)]: the float64 value
    of [k * (1.0 / (n * (1 / sampling_rate)))], rounded at each of the four
    operations. *)
Definition bin_frequency (n : nat) (sampling_rate : Z) (k : nat) : float :=
  (py_float (Z.of_nat k) *
   (1 / (py_float (Z.of_nat n) * (py_float 1 / py_float sampling_rate))))%float.

(** Lines 112-118: the spectrum after the mask has been applied. *)
Definition attenuated_spectrum (signal : list R) (sampling_rate : Z)
  : result (list complex) :=
  fft_signal <- np_fft_rfft signal ;;
  d <- py_truediv_int 1 sampling_rate ;;
  freqs <- np_fft_rfftfreq (length signal) d ;;
  np_multiply fft_signal (attenuation_mask freqs).

(** Lines 111-119. *)
Definition apply_frequency_dependent_attenuation
  (signal : list R) (sampling_rate : Z) : result (list R) :=
  fft_signal <- attenuated_spectrum signal sampling_rate ;;
  np_fft_irfft fft_signal.

(** Line 124: division of every sample by the peak magnitude. *)
Definition peak_normalize (compressed_signal : list R) : result (list npfloat) :=
  m <- np_max (map Rabs compressed_signal) ;;
  Ok (map (fun y => np_div y m) compressed_signal).

(** Lines 122-124. *)
Definition apply_dynamic_range_compression (signal : list R)
  : result (list npfloat) :=
  let compressed_signal :=
    map (fun x => np_sign x * np_log1p (Rabs x) * 1.2) signal in
  peak_normalize compressed_signal.

(** The compression with the factor 1.2 replaced by [gain]: the same
    curve, then normalised by its peak.  It is compared with the function
    above. *)
Definition compress_with_gain (gain : R) (signal : list R)
  : result (list npfloat) :=
  peak_normalize (map (fun x => np_sign x * np_log1p (Rabs x) * gain) signal).

End Dsp.

(** ** Python strings and [os.path] (POSIX flavour)

    Strings are byte strings holding ASCII text.  The functions follow
    CPython's [str] methods and [posixpath] / [genericpath]. *)

Module OsPath.

Local Open Scope string_scope.

(** [s[n:]] for [0 <= n]. *)
Fixpoint str_drop (n : nat) (s : string) : string :=
  match n, s with
  | O, _ => s
  | S _, EmptyString => EmptyString
  | S k, String _ t => str_drop k t
  end.

(** [s[:n]] for [0 <= n]. *)
Fixpoint str_take (n : nat) (s : string) : string :=
  match n, s with
  | O, _ => EmptyString
  | S _, EmptyString => EmptyString
  | S k, String c t => String c (str_take k t)
  end.

Fixpoint rfind_from (c : ascii) (s : string) (i found : Z) : Z :=
  match s with
  | EmptyString => found
  | String a t => rfind_from c t (i + 1) (if Ascii.eqb a c then i else found)
  end.

(** [s.rfind(c)] for a one-character [c]: the highest index, or [-1]. *)
Definition str_rfind (s : string) (c : ascii) : Z := rfind_from c s 0 (-1).

Definition str_startswith (s p : string) : bool := prefix p s.

Fixpoint str_last (s : string) : option ascii :=
  match s with
  | EmptyString => None
  | String c EmptyString => Some c
  | String _ t => str_last t
  end.

(** [s.endswith(c)] for a one-character [c]. *)
Definition str_endswith_char (s : string) (c : ascii) : bool :=
  match str_last s with
  | Some a => Ascii.eqb a c
  | None => false
  end.

(** [c in s] for a one-character [c]. *)
Fixpoint contains_char (c : ascii) (s : string) : bool :=
  match s with
  | EmptyString => false
  | String a t => Ascii.eqb a c || contains_char c t
  end.

(** [posixpath.basename]. *)
Definition basename (p : string) : string :=
  let i := (str_rfind p "/" + 1)%Z in
  str_drop (Z.to_nat i) p.

(** The [while] loop of [genericpath._splitext] that skips leading dots:
    [true] when it returns the split at the last dot, [false] when it runs
    out without finding a character other than a dot. *)
Fixpoint splitext_scan (p : string) (filenameIndex : Z) (steps : nat) : bool :=
  match steps with
  | O => false
  | S k =>
      if negb (substring (Z.to_nat filenameIndex) 1 p =? ".")
      then true
      else splitext_scan p (filenameIndex + 1) k
  end.

(** [posixpath.splitext]. *)
Definition splitext (p : string) : string * string :=
  let sepIndex := str_rfind p "/" in
  let dotIndex := str_rfind p "." in
  if (sepIndex <? dotIndex)%Z then
    let filenameIndex := (sepIndex + 1)%Z in
    if splitext_scan p filenameIndex (Z.to_nat (dotIndex - filenameIndex))
    then (str_take (Z.to_nat dotIndex) p, str_drop (Z.to_nat dotIndex) p)
    else (p, "")
  else (p, "").

(** [posixpath.join] of two components. *)
Definition join (a b : string) : string :=
  if str_startswith b "/" then b
  else if (a =? "") || str_endswith_char a "/" then a ++ b
  else a ++ "/" ++ b.

(** ASCII characters for which [str.isspace] holds. *)
Definition is_space (c : ascii) : bool :=
  let n := nat_of_ascii c in
  ((9 <=? n) && (n <=? 13) || (28 <=? n) && (n <=? 32))%nat.

Fixpoint str_lstrip (s : string) : string :=
  match s with
  | EmptyString => EmptyString
  | String c t => if is_space c then str_lstrip t else s
  end.

Fixpoint str_rstrip (s : string) : string :=
  match s with
  | EmptyString => EmptyString
  | String c t =>
      let t' := str_rstrip t in
      if is_space c && (t' =? "") then EmptyString else String c t'
  end.

Definition str_strip (s : string) : string := str_rstrip (str_lstrip s).

(** [s.split()]: the maximal runs of non-space characters; [word] is the
    run being read. *)
Fixpoint split_from (s word : string) : list string :=
  match s with
  | EmptyString => if word =? "" then [] else [word]
  | String c t =>
      if is_space c
      then (if word =? "" then split_from t "" else word :: split_from t "")
      else split_from t (word ++ String c "")
  end.

Definition str_split (s : string) : list string := split_from s "".

(** [sep.join(items)]. *)
Fixpoint str_join (sep : string) (items : list string) : string :=
  match items with
  | [] => ""
  | [x] => x
  | x :: rest => x ++ sep ++ str_join sep rest
  end.

End OsPath.

(** ** The application object and its methods *)

Module App.

Import Numpy OsPath.
Local Open Scope string_scope.
Local Open Scope list_scope.

(** What the program does to the outside world, in order: calls of the
    decoder, files written, dialogs shown. *)
Inductive io_event : Type :=
| LibrosaLoad (path : string)
| SfWrite (path : string) (data : list npfloat) (samplerate : Z)
| ShowError (title message : string)
| ShowInfo (title message : string).

Definition world : Type := list io_event.

(** The collaborators the program calls: [librosa.load(path, sr=None)],
    [os.path.isfile] and [soundfile.write]. *)
Record env : Type := {
  librosa_load : string -> result (list R * Z);
  os_path_isfile : string -> bool;
  sf_write : string -> list npfloat -> Z -> result unit
}.

Inductive widget_state : Type := NORMAL | DISABLED.

(** The fields of [AudioProcessingApp] that its methods read or write;
    the three widgets are kept as the values they display. *)
Record AudioProcessingApp : Type := {
  audio_paths : list string;
  processed_audios : list (list npfloat);
  sampling_rates : list Z;
  save_directory : option string;
  loading : bool;
  file_listbox : list string;
  save_button : widget_state;
  status_label : string * string
}.

Definition init : AudioProcessingApp := {|
  audio_paths := [];
  processed_audios := [];
  sampling_rates := [];
  save_directory := None;
  loading := false;
  file_listbox := [];
  save_button := DISABLED;
  status_label := ("", "green")
|}.

Definition with_paths (self : AudioProcessingApp) (paths listbox : list string)
  : AudioProcessingApp := {|
  audio_paths := paths;
  processed_audios := processed_audios self;
  sampling_rates := sampling_rates self;
  save_directory := save_directory self;
  loading := loading self;
  file_listbox := listbox;
  save_button := save_button self;
  status_label := status_label self
|}.

Definition with_results (self : AudioProcessingApp)
  (audios : list (list npfloat)) (rates : list Z) : AudioProcessingApp := {|
  audio_paths := audio_paths self;
  processed_audios := audios;
  sampling_rates := rates;
  save_directory := save_directory self;
  loading := loading self;
  file_listbox := file_listbox self;
  save_button := save_button self;
  status_label := status_label self
|}.

Definition with_save_directory (self : AudioProcessingApp) (d : option string)
  : AudioProcessingApp := {|
  audio_paths := audio_paths self;
  processed_audios := processed_audios self;
  sampling_rates := sampling_rates self;
  save_directory := d;
  loading := loading self;
  file_listbox := file_listbox self;
  save_button := save_button self;
  status_label := status_label self
|}.

Definition with_loading (self : AudioProcessingApp) (b : bool)
  : AudioProcessingApp := {|
  audio_paths := audio_paths self;
  processed_audios := processed_audios self;
  sampling_rates := sampling_rates self;
  save_directory := save_directory self;
  loading := b;
  file_listbox := file_listbox self;
  save_button := save_button self;
  status_label := status_label self
|}.

Definition with_save_button (self : AudioProcessingApp) (st : widget_state)
  : AudioProcessingApp := {|
  audio_paths := audio_paths self;
  processed_audios := processed_audios self;
  sampling_rates := sampling_rates self;
  save_directory := save_directory self;
  loading := loading self;
  file_listbox := file_listbox self;
  save_button := st;
  status_label := status_label self
|}.

Definition with_status (self : AudioProcessingApp) (text fg : string)
  : AudioProcessingApp := {|
  audio_paths := audio_paths self;
  processed_audios := processed_audios self;
  sampling_rates := sampling_rates self;
  save_directory := save_directory self;
  loading := loading self;
  file_listbox := file_listbox self;
  save_button := save_button self;
  status_label := (text, fg)
|}.

(** The text of [f"{e}"] for an exception. *)
Definition str_of_exn (e : exn) : string :=
  match e with
  | ValueError msg => msg
  | ZeroDivisionError => "division by zero"
  | IndexError => "list index out of range"
  | ExternalError msg => msg
  end.

(** [file in self.audio_paths]. *)
Definition path_in (file : string) (paths : list string) : bool :=
  existsb (String.eqb file) paths.

Definition parse_file_paths (file_data : string) : list string :=
  str_split (str_strip file_data).

Section Methods.

Variable E : env.

(** Lines 58-61. *)
Fixpoint drop_loop (dropped_files : list string) (self : AudioProcessingApp)
  : AudioProcessingApp :=
  match dropped_files with
  | [] => self
  | file :: rest =>
      if negb (path_in file (audio_paths self)) && os_path_isfile E file
      then drop_loop rest
             (with_paths self (audio_paths self ++ [file])
                         (file_listbox self ++ [basename file]))
      else drop_loop rest self
  end.

Definition handle_file_drop (self : AudioProcessingApp) (event_data : string)
  : AudioProcessingApp :=
  let dropped_files := parse_file_paths event_data in
  drop_loop dropped_files self.

(** Lines 65-68; [files] is what the file dialog returned. *)
Fixpoint open_loop (files : list string) (self : AudioProcessingApp)
  : AudioProcessingApp :=
  match files with
  | [] => self
  | file :: rest =>
      if negb (path_in file (audio_paths self))
      then open_loop rest
             (with_paths self (audio_paths self ++ [file])
                         (file_listbox self ++ [basename file]))
      else open_loop rest self
  end.

Definition open_files (self : AudioProcessingApp) (files : list string)
  : AudioProcessingApp :=
  open_loop files self.

Definition start_loading_animation (self : AudioProcessingApp)
  : AudioProcessingApp := with_loading self true.

Definition stop_loading_animation (self : AudioProcessingApp)
  : AudioProcessingApp := with_loading self false.

(** Lines 108-127: the body of the loop for one path, up to the two
    appends. *)
Definition process_one (audio_path : string) : result (list npfloat * Z) :=
  loaded <- librosa_load E audio_path ;;
  let audio := fst loaded in
  let sr := snd loaded in
  attenuated_audio <- Dsp.apply_frequency_dependent_attenuation audio sr ;;
  processed_audio <- Dsp.apply_dynamic_range_compression attenuated_audio ;;
  Ok (processed_audio, sr).

(** Lines 107-129: the [for] loop inside the [try]. *)
Fixpoint process_loop (paths : list string) (self : AudioProcessingApp)
  (w : world) : AudioProcessingApp * world * result unit :=
  match paths with
  | [] => (self, w, Ok tt)
  | audio_path :: rest =>
      let w := w ++ [LibrosaLoad audio_path] in
      match process_one audio_path with
      | Raise e => (self, w, Raise e)
      | Ok (processed_audio, sr) =>
          process_loop rest
            (with_results self (processed_audios self ++ [processed_audio])
                               (sampling_rates self ++ [sr]))
            w
      end
  end.

(** Lines 97-136. *)
Definition process_audios (self : AudioProcessingApp) (w : world)
  : AudioProcessingApp * world :=
  match audio_paths self with
  | [] => (self, w ++ [ShowError "Error" "No audio files loaded."])
  | _ :: _ =>
      let self := start_loading_animation self in
      let self := with_results self [] [] in
      match process_loop (audio_paths self) self w with
      | (self, w, Ok _) =>
          let self := with_save_button self NORMAL in
          let self :=
            with_status self "Audio files processed successfully." "green" in
          (stop_loading_animation self, w)
      | (self, w, Raise e) =>
          (stop_loading_animation self,
           w ++ [ShowError "Processing Error"
                           ("An error occurred: " ++ str_of_exn e)%string])
      end
  end.

(** Lines 139-141; [answer] is what the directory dialog returned. *)
Definition choose_save_directory (self : AudioProcessingApp) (answer : string)
  : AudioProcessingApp :=
  let self := with_save_directory self (Some answer) in
  if answer =? "" then self
  else with_status self ("Save directory selected: " ++ answer)%string "blue".

(** Lines 155-156. *)
Definition output_path (directory audio_path : string) : string :=
  let (base_name, ext) := splitext (basename audio_path) in
  join directory (base_name ++ "_SNHL_sim" ++ ext)%string.

(** Lines 154-158: the [for] loop inside the [try], over
    [enumerate(self.audio_paths)]. *)
Fixpoint save_loop (directory : string) (self : AudioProcessingApp)
  (items : list (nat * string)) (saved_files : list string) (w : world)
  : list string * world * result unit :=
  match items with
  | [] => (saved_files, w, Ok tt)
  | (i, audio_path) :: rest =>
      let out := output_path directory audio_path in
      match nth_error (processed_audios self) i with
      | None => (saved_files, w, Raise IndexError)
      | Some data =>
          match nth_error (sampling_rates self) i with
          | None => (saved_files, w, Raise IndexError)
          | Some sr =>
              match sf_write E out data sr with
              | Raise e => (saved_files, w, Raise e)
              | Ok _ =>
                  save_loop directory self rest (saved_files ++ [out])
                            (w ++ [SfWrite out data sr])
              end
          end
      end
  end.

(** One pass through the body of that loop at index [i]: the file it
    writes, or the exception it raises. *)
Definition export_attempt (directory : string) (self : AudioProcessingApp)
  (i : nat) (audio_path : string) : result io_event :=
  let out := output_path directory audio_path in
  match nth_error (processed_audios self) i with
  | None => Raise IndexError
  | Some data =>
      match nth_error (sampling_rates self) i with
      | None => Raise IndexError
      | Some sr =>
          match sf_write E out data sr with
          | Raise e => Raise e
          | Ok _ => Ok (SfWrite out data sr)
          end
      end
  end.

Definition newline : string := String (ascii_of_nat 10) "".

(** Truth value of [self.save_directory]: neither [None] nor empty. *)
Definition directory_chosen (d : option string) : option string :=
  match d with
  | Some s => if s =? "" then None else Some s
  | None => None
  end.

(** Lines 143-165. *)
Definition save_audios (self : AudioProcessingApp) (w : world)
  : AudioProcessingApp * world :=
  match processed_audios self, sampling_rates self with
  | [], _ | _, [] => (self, w ++ [ShowError "Error" "No processed audio to save."])
  | _ :: _, _ :: _ =>
      match directory_chosen (save_directory self) with
      | None => (self, w ++ [ShowError "Error" "No save directory selected."])
      | Some directory =>
          let items :=
            combine (seq 0 (length (audio_paths self))) (audio_paths self) in
          match save_loop directory self items [] w with
          | (saved_files, w, Ok _) =>
              (with_status self
                 ("Processed files saved:" ++ newline ++
                  str_join newline saved_files)%string "blue",
               w ++ [ShowInfo "Success" "All processed files have been saved."])
          | (_, w, Raise e) =>
              (self,
               w ++ [ShowError "Save Error"
                       ("An error occurred while saving the files: " ++
                        str_of_exn e)%string])
          end
      end
  end.

(** What the user can do to the window.  A click on a disabled button does
    not call its command; the processing thread is run to its end before
    the next event. *)
Inductive ui_event : Type :=
| Drop (event_data : string)
| UploadAudioFiles (files : list string)
| ClickProcess
| ChooseSaveDirectory (answer : string)
| ClickSave.

Definition step (st : AudioProcessingApp * world) (ev : ui_event)
  : AudioProcessingApp * world :=
  let (self, w) := st in
  match ev with
  | Drop event_data => (handle_file_drop self event_data, w)
  | UploadAudioFiles files => (open_files self files, w)
  | ClickProcess => process_audios self w
  | ChooseSaveDirectory answer => (choose_save_directory self answer, w)
  | ClickSave =>
      match save_button self with
      | NORMAL => save_audios self w
      | DISABLED => (self, w)
      end
  end.

Definition run (events : list ui_event) : AudioProcessingApp * world :=
  fold_left step events (init, []).

(** The alignment a session keeps between its three lists: the buffers and
    rates are, pair by pair and in order, the results of processing the
    first paths of the session, which are distinct. *)
Definition aligned (self : AudioProcessingApp) : Prop :=
  NoDup (audio_paths self) /\
  length (sampling_rates self) = length (processed_audios self) /\
  exists done rest,
    audio_paths self = done ++ rest /\
    Forall2 (fun p r => process_one p = Ok r) done
            (combine (processed_audios self) (sampling_rates self)).

End Methods.

(** Collaborators for the worked examples: two-sample recordings at
    44100 Hz under [/in/], except [/in/b.wav] and [/in/c.wav], which hold a
    single sample; nothing else decodes (the decoder's exception carries no
    text).  Every write succeeds but the one to [/out/locked_SNHL_sim.wav]. *)
Definition demo_env : env := {|
  librosa_load := fun path =>
    if (path =? "/in/b.wav") || (path =? "/in/c.wav")
    then Ok ([1%R], 44100%Z)
    else if str_startswith path "/in/" then Ok ([1%R; 0%R], 44100%Z)
    else Raise (ExternalError "");
  os_path_isfile := fun path => str_startswith path "/in/";
  sf_write := fun path _ _ =>
    if path =? "/out/locked_SNHL_sim.wav"
    then Raise (ExternalError "Error opening '/out/locked_SNHL_sim.wav': System error.")
    else Ok tt
|}.

(** The processed form of the two-sample recording of [demo_env]. *)
Definition demo_buffer : list npfloat :=
  match
    attenuated <- Dsp.apply_frequency_dependent_attenuation [1%R; 0%R] 44100 ;;
    Dsp.apply_dynamic_range_compression attenuated
  with
  | Ok processed_audio => processed_audio
  | Raise _ => []
  end.

End App.

(** ** The loading animation (lines 73-90)

    The canvas is the list of the arcs it shows, and the timer of
    [root.after] is the list of the calls of [animate_loading] it still has
    to make, oldest first, each with its argument (all are due 50 ms after
    they were registered). *)

Module Animation.

Record arc : Type := {
  arc_x0 : Z; arc_y0 : Z; arc_x1 : Z; arc_y1 : Z;
  arc_start : Z; arc_extent : Z
}.

Record indicator : Type := {
  loading : bool;
  canvas : list arc;
  timer : list Z
}.

(** The window as [__init__] leaves it. *)
Definition idle : indicator :=
  {| loading := false; canvas := []; timer := [] |}.

(** Lines 83-90. *)
Definition animate_loading (self : indicator) (angle : Z) : indicator :=
  let canvas := @nil arc in
  if loading self then
    let x0 := 120%Z in let y0 := 50%Z in let x1 := 180%Z in let y1 := 110%Z in
    let extent := 90%Z in
    {| loading := loading self;
       canvas := canvas ++ [{| arc_x0 := x0; arc_y0 := y0; arc_x1 := x1;
                               arc_y1 := y1; arc_start := angle;
                               arc_extent := extent |}];
       timer := timer self ++ [((angle + 10) mod 360)%Z] |}
  else
    {| loading := loading self; canvas := canvas; timer := timer self |}.

(** Lines 73-76. *)
Definition start_loading_animation (self : indicator) : indicator :=
  animate_loading
    {| loading := true; canvas := canvas self; timer := timer self |} 0.

(** Lines 78-81. *)
Definition stop_loading_animation (self : indicator) : indicator :=
  {| loading := false; canvas := []; timer := timer self |}.

(** The timer fires: the oldest registered call is made. *)
Definition tick (self : indicator) : indicator :=
  match timer self with
  | [] => self
  | angle :: rest =>
      animate_loading
        {| loading := loading self; canvas := canvas self; timer := rest |}
        angle
  end.

Fixpoint ticks (n : nat) (self : indicator) : indicator :=
  match n with
  | O => self
  | S k => ticks k (tick self)
  end.

End Animation.

(** ** Predicates used to state properties *)

(** The event is a file written by [soundfile.write]. *)
Definition is_write (ev : App.io_event) : bool :=
  match ev with
  | App.SfWrite _ _ _ => true
  | _ => false
  end.

(** Every character of the string is a dot. *)
Fixpoint all_dots (s : string) : bool :=
  match s with
  | EmptyString => true
  | String c t => Ascii.eqb c "." && all_dots t
  end.

(** No character of the string is white space. *)
Fixpoint no_space (s : string) : bool :=
  match s with
  | EmptyString => true
  | String c t => negb (OsPath.is_space c) && no_space t
  end.

(** * Properties *)

(** ** Peak of an array *)

Section Peak.

Import Numpy.
Local Open Scope R_scope.

Lemma fold_left_Rmax_init (l : list R) (a : R) : a <= fold_left Rmax l a.
Proof.
  revert a; induction l as [|x l IH]; intros a; simpl.
  - lra.
  - eapply Rle_trans; [apply (Rmax_l a x) | apply IH].
Qed.

Lemma fold_left_Rmax_upper (l : list R) (a x : R) :
  In x l -> x <= fold_left Rmax l a.
Proof.
  revert a; induction l as [|y l IH]; intros a Hin; simpl in *.
  - contradiction.
  - destruct Hin as [-> | Hin].
    + eapply Rle_trans; [apply (Rmax_r a x) | apply fold_left_Rmax_init].
    + now apply IH.
Qed.

Lemma fold_left_Rmax_attained (l : list R) (a : R) :
  fold_left Rmax l a = a \/ In (fold_left Rmax l a) l.
Proof.
  revert a; induction l as [|y l IH]; intros a; simpl.
  - now left.
  - destruct (IH (Rmax a y)) as [H | H].
    + rewrite H. unfold Rmax. destruct (Rle_dec a y); auto.
    + auto.
Qed.

Lemma np_max_is_max (l : list R) (m : R) : np_max l = Ok m -> is_max m l.
Proof.
  destruct l as [|x t]; simpl; [discriminate|].
  intros H; injection H as <-. split.
  - destruct (fold_left_Rmax_attained t x) as [-> | H]; simpl; auto.
  - intros y [<- | Hy].
    + apply fold_left_Rmax_init.
    + now apply fold_left_Rmax_upper.
Qed.

Lemma is_max_unique (l : list R) (m m' : R) :
  is_max m l -> is_max m' l -> m = m'.
Proof.
  intros [Hin Hub] [Hin' Hub'].
  apply Rle_antisym; auto.
Qed.

Lemma np_max_nonempty (l : list R) : l <> [] -> exists m, np_max l = Ok m.
Proof.
  destruct l as [|x t]; [congruence|]. intros _. simpl. eauto.
Qed.

Lemma is_max_np_max (l : list R) (m : R) : is_max m l -> np_max l = Ok m.
Proof.
  intros Hm.
  destruct (np_max_nonempty l) as [m' Hm'].
  - destruct Hm as [Hin _]. intros ->. contradiction.
  - rewrite Hm'. f_equal. eapply is_max_unique; eauto using np_max_is_max.
Qed.

End Peak.

(** ** Dynamic range compression *)

Section Compression.

Import Numpy Dsp.
Local Open Scope R_scope.

Lemma np_sign_0 : np_sign 0 = 0.
Proof.
  unfold np_sign. destruct (total_order_T 0 0) as [[H | H] | H]; lra.
Qed.

Lemma np_sign_pos (x : R) : 0 < x -> np_sign x = 1.
Proof.
  intros Hx. unfold np_sign.
  destruct (total_order_T x 0) as [[H | H] | H]; lra.
Qed.

Lemma np_sign_neg (x : R) : x < 0 -> np_sign x = -1.
Proof.
  intros Hx. unfold np_sign.
  destruct (total_order_T x 0) as [[H | H] | H]; lra.
Qed.

Lemma np_log1p_pos (a : R) : 0 < a -> 0 < np_log1p a.
Proof.
  intros Ha. unfold np_log1p. rewrite <- ln_1.
  apply ln_increasing; lra.
Qed.

(** The curve of line 123 at one sample, for a gain [g]. *)
Lemma curve_0 (g : R) : np_sign 0 * np_log1p (Rabs 0) * g = 0.
Proof. rewrite np_sign_0. ring. Qed.

Lemma curve_pos (g x : R) :
  0 < g -> 0 < x -> 0 < np_sign x * np_log1p (Rabs x) * g.
Proof.
  intros Hg Hx. rewrite np_sign_pos by assumption.
  rewrite Rabs_right by lra.
  pose proof (np_log1p_pos x Hx). nra.
Qed.

Lemma curve_neg (g x : R) :
  0 < g -> x < 0 -> np_sign x * np_log1p (Rabs x) * g < 0.
Proof.
  intros Hg Hx. rewrite np_sign_neg by assumption.
  rewrite Rabs_left by lra.
  assert (0 < np_log1p (- x)) by (apply np_log1p_pos; lra). nra.
Qed.



Lemma np_div_nonzero (y m : R) : m <> 0 -> np_div y m = Finite (y / m).
Proof.
  intros Hm. unfold np_div. destruct (Req_dec_T m 0); [contradiction | reflexivity].
Qed.

Lemma np_div_0_0 : np_div 0 0 = NaN.
Proof.
  unfold np_div. destruct (Req_dec_T 0 0) as [_ | H]; [reflexivity | now destruct H].
Qed.

Lemma peak_normalize_nonzero (ys : list R) (m : R) :
  np_max (map Rabs ys) = Ok m -> m <> 0 ->
  peak_normalize ys = Ok (map Finite (map (fun y => y / m) ys)).
Proof.
  intros Hmax Hm. unfold peak_normalize. rewrite Hmax. simpl. f_equal.
  rewrite map_map. apply map_ext. intros y. now apply np_div_nonzero.
Qed.

(** Dividing by a positive peak leaves a peak of exactly one. *)
Lemma normalized_peak (ys : list R) (m : R) :
  is_max m (map Rabs ys) -> 0 < m ->
  is_max 1 (map Rabs (map (fun y => y / m) ys)).
Proof.
  intros [Hin Hub] Hm. split.
  - apply in_map_iff in Hin. destruct Hin as [y [Hy Hin]].
    apply in_map_iff. exists (y / m). split.
    + unfold Rdiv. rewrite Rabs_mult, Hy, (Rabs_right (/ m)).
      * field. lra.
      * left. now apply Rinv_0_lt_compat.
    + apply in_map_iff. eauto.
  - intros x Hx. apply in_map_iff in Hx. destruct Hx as [z [<- Hz]].
    apply in_map_iff in Hz. destruct Hz as [y [<- Hy]].
    assert (Hle : Rabs y <= m) by (apply Hub; now apply in_map).
    unfold Rdiv. rewrite Rabs_mult, (Rabs_right (/ m)).
    + apply (Rmult_le_reg_r m); [assumption|].
      rewrite Rmult_assoc, Rinv_l by lra. lra.
    + left. now apply Rinv_0_lt_compat.
Qed.

(** The peak of the compressed intermediate is positive as soon as one
    input sample is not zero. *)
Lemma compressed_peak_pos (g : R) (signal : list R) (m : R) :
  0 < g -> Exists (fun x => x <> 0) signal ->
  is_max m (map Rabs (map (fun x => np_sign x * np_log1p (Rabs x) * g) signal)) ->
  0 < m.
Proof.
  intros Hg Hex [_ Hub]. apply Exists_exists in Hex. destruct Hex as [x [Hin Hx]].
  set (y := np_sign x * np_log1p (Rabs x) * g).
  assert (Hy : 0 < Rabs y).
  { apply Rabs_pos_lt. unfold y.
    destruct (Rtotal_order x 0) as [H | [H | H]]; [| contradiction |].
    - pose proof (curve_neg g x Hg H). lra.
    - pose proof (curve_pos g x Hg H). lra. }
  eapply Rlt_le_trans; [exact Hy|]. apply Hub.
  apply in_map. unfold y.
  apply (in_map (fun x => np_sign x * np_log1p (Rabs x) * g)). exact Hin.
Qed.

End Compression.

Section CompressionClaims.

Import Numpy Dsp.
Local Open Scope R_scope.

(** On a buffer of zeros every intermediate sample and the peak are zero, so
    every output sample is the [0/0] of the unguarded division. *)
Lemma compress_silent (signal : list R) :
  signal <> [] -> Forall (fun x => x = 0) signal ->
  apply_dynamic_range_compression signal = Ok (map (fun _ => NaN) signal).
Proof.
  intros Hne Hz. unfold apply_dynamic_range_compression.
  assert (Hc : map (fun x => np_sign x * np_log1p (Rabs x) * 1.2) signal
               = map (fun _ => 0) signal).
  { apply map_ext_in. intros x Hx.
    rewrite Forall_forall in Hz. rewrite (Hz x Hx). apply curve_0. }
  rewrite Hc. unfold peak_normalize.
  assert (Hm : np_max (map Rabs (map (fun _ : R => 0) signal)) = Ok 0).
  { apply is_max_np_max. destruct signal as [|x t]; [congruence|].
    split.
    - simpl. left. apply Rabs_R0.
    - intros y Hy. rewrite map_map in Hy. apply in_map_iff in Hy.
      destruct Hy as [_ [<- _]]. rewrite Rabs_R0. lra. }
  rewrite Hm. simpl. f_equal. rewrite map_map.
  apply map_ext. intros _. apply np_div_0_0.
Qed.

(** C1 (the code departs from it): a silent buffer of two samples comes
    back as two nans, not as the two zeros the claim requires; the division
    by the zero peak is not guarded. *)
Theorem compress_silent_yields_nan :
  apply_dynamic_range_compression [0; 0] = Ok [NaN; NaN] /\
  apply_dynamic_range_compression [0; 0] <> Ok [Finite 0; Finite 0].
Proof.
  assert (H : apply_dynamic_range_compression [0; 0] = Ok [NaN; NaN]).
  { apply (compress_silent [0; 0]).
    - discriminate.
    - repeat constructor. }
  split; [exact H|]. rewrite H. discriminate.
Qed.



(** Scaling the intermediate by a positive factor scales its peak by the
    same factor, so the normalised result does not change. *)
Lemma peak_normalize_scale (k : R) (ys : list R) :
  0 < k -> peak_normalize (map (fun y => y * k) ys) = peak_normalize ys.
Proof.
  intros Hk. destruct ys as [|y0 t]; [reflexivity|].
  set (ys := y0 :: t).
  destruct (np_max_nonempty (map Rabs ys)) as [m Hm]; [discriminate|].
  pose proof (np_max_is_max _ _ Hm) as [Hin Hub].
  assert (Hmk : np_max (map Rabs (map (fun y => y * k) ys)) = Ok (m * k)).
  { apply is_max_np_max. split.
    - apply in_map_iff in Hin. destruct Hin as [y [Hy Hin]].
      rewrite map_map. apply in_map_iff. exists y. split; [|exact Hin].
      rewrite Rabs_mult, Hy, (Rabs_right k); lra.
    - intros x Hx. rewrite map_map in Hx. apply in_map_iff in Hx.
      destruct Hx as [y [<- Hy]].
      rewrite Rabs_mult, (Rabs_right k) by lra.
      apply Rmult_le_compat_r; [lra|]. apply Hub. now apply in_map. }
  unfold peak_normalize. rewrite Hmk, Hm. cbn [bind]. f_equal.
  rewrite map_map. apply map_ext. intros y. unfold np_div.
  destruct (Req_dec_T m 0) as [Hm0 | Hm0].
  - subst m. destruct (Req_dec_T (0 * k) 0) as [_ | Hc]; [| exfalso; lra].
    destruct (Req_dec_T y 0) as [Hy | Hy].
    + subst y. destruct (Req_dec_T (0 * k) 0) as [_ | Hc]; [reflexivity | exfalso; lra].
    + destruct (Req_dec_T (y * k) 0) as [Hc | _]; [exfalso; nra|].
      destruct (Rlt_dec y 0), (Rlt_dec (y * k) 0); try reflexivity; exfalso; nra.
  - destruct (Req_dec_T (m * k) 0) as [Hc | _]; [exfalso; nra|].
    f_equal. field. split; lra.
Qed.

(** The gain of the curve does not reach the output. *)
Lemma compress_gain_cancels (gain : R) (signal : list R) :
  0 < gain ->
  compress_with_gain gain signal = apply_dynamic_range_compression signal.
Proof.
  intros Hg. unfold compress_with_gain, apply_dynamic_range_compression.
  rewrite <- (peak_normalize_scale (gain / 1.2)
                (map (fun x => np_sign x * np_log1p (Rabs x) * 1.2) signal)).
  - f_equal. rewrite map_map. apply map_ext. intros x. field. lra.
  - apply Rdiv_lt_0_compat; lra.
Qed.

(** C10: for a buffer whose compressed intermediate has a peak [m] other
    than zero, the compression equals the peak-normalised curve with 1.2
    replaced by any positive constant; both are the curve without any gain,
    [sign x * ln (1 + |x|)], divided by its own peak [m / 1.2]. *)
Theorem compress_gain_irrelevant (gain m : R) (signal : list R) :
  0 < gain ->
  np_max (map Rabs (map (fun x => np_sign x * np_log1p (Rabs x) * 1.2) signal))
    = Ok m ->
  m <> 0 ->
  apply_dynamic_range_compression signal = compress_with_gain gain signal /\
  compress_with_gain gain signal
  = Ok (map Finite
          (map (fun x => np_sign x * np_log1p (Rabs x) / (m / 1.2)) signal)).
Proof.
  intros Hg Hm Hm0. rewrite (compress_gain_cancels gain signal Hg).
  split; [reflexivity|].
  unfold apply_dynamic_range_compression.
  rewrite (peak_normalize_nonzero _ m Hm Hm0). do 2 f_equal.
  rewrite map_map. apply map_ext. intros x. field. split; lra.
Qed.

End CompressionClaims.

(** ** Frequency-dependent attenuation *)

Section Attenuation.

Import Numpy Dsp.

(** Float comparisons against a positive finite constant, through their
    specification on the sign, exponent and mantissa of the operands. *)
Lemma SFltb_above (m1 m2 : positive) (e1 e2 : Z) (x : spec_float) :
  (e1 < e2)%Z ->
  SFltb (S754_finite false m2 e2) x = true ->
  SFltb (S754_finite false m1 e1) x = true.
Proof.
  intros He. unfold SFltb, SFcompare.
  destruct x as [s | s | | s m e]; try (destruct s; congruence); try congruence.
  destruct s; [congruence|].
  destruct (Z.compare_spec e2 e); destruct (Z.compare_spec e1 e);
    try congruence; lia.
Qed.

Lemma SFleb_not_above (m0 : positive) (e0 : Z) (x : spec_float) :
  SFleb x (S754_finite false m0 e0) = true ->
  SFltb (S754_finite false m0 e0) x = false.
Proof.
  unfold SFleb, SFltb, SFcompare.
  destruct x as [s | s | | s m e]; try (destruct s; congruence); try congruence.
  destruct s; [reflexivity|].
  rewrite (Z.compare_antisym e0 e).
  destruct (e0 ?= e)%Z; cbn [CompOpp]; try congruence.
  change (PosDef.Pos.compare_cont Eq m m0) with (Pos.compare_cont Eq m m0).
  change (PosDef.Pos.compare_cont Eq m0 m) with (Pos.compare_cont Eq m0 m).
  replace (Pos.compare_cont Eq m m0) with (CompOpp (Pos.compare_cont Eq m0 m))
    by exact (Pos.compare_cont_antisym m0 m Eq).
  destruct (Pos.compare_cont Eq m0 m); cbn [CompOpp]; congruence.
Qed.

Lemma above_3000_above_1000 (f : float) :
  (3000 <? f)%float = true -> (1000 <? f)%float = true.
Proof.
  rewrite !ltb_spec.
  exact (SFltb_above 8796093022208000 6597069766656000 (-43) (-41)
           (Prim2SF f) eq_refl).
Qed.

Lemma above_6000_above_3000 (f : float) :
  (6000 <? f)%float = true -> (3000 <? f)%float = true.
Proof.
  rewrite !ltb_spec.
  exact (SFltb_above 6597069766656000 6597069766656000 (-41) (-40)
           (Prim2SF f) eq_refl).
Qed.

Lemma at_most_not_above (c f : float) (m0 : positive) (e0 : Z) :
  Prim2SF c = S754_finite false m0 e0 ->
  (f <=? c)%float = true -> (c <? f)%float = false.
Proof.
  intros Hc. rewrite leb_spec, ltb_spec, Hc. apply SFleb_not_above.
Qed.

(** The three comparisons of a frequency with the thresholds; the
    combinations that contradict the order of the thresholds are closed. *)
Ltac compare_with_thresholds f :=
  destruct (1000 <? f)%float eqn:?H1000;
  destruct (3000 <? f)%float eqn:?H3000;
  destruct (6000 <? f)%float eqn:?H6000;
  try match goal with
      | H : (6000 <? f)%float = true |- _ =>
          pose proof (above_6000_above_3000 f H)
      end;
  try match goal with
      | H : (3000 <? f)%float = true |- _ =>
          pose proof (above_3000_above_1000 f H)
      end;
  try congruence.

(** The bands of the specification, read on the computed frequency. *)
Lemma band_gain_cases (f : float) :
  ((f <=? 1000)%float = true -> band_gain f = 1%Q) /\
  ((1000 <? f)%float = true -> (f <=? 3000)%float = true ->
     band_gain f = 0.6%Q) /\
  ((3000 <? f)%float = true -> (f <=? 6000)%float = true ->
     band_gain f = 0.18%Q /\ (0.6 * 0.3 == 0.18)%Q) /\
  ((6000 <? f)%float = true ->
     band_gain f = 0.018%Q /\ (0.6 * 0.3 * 0.1 == 0.018)%Q).
Proof.
  assert (H1 : (f <=? 1000)%float = true -> (1000 <? f)%float = false).
  { now apply at_most_not_above with (m0 := 8796093022208000%positive) (e0 := (-43)%Z). }
  assert (H3 : (f <=? 3000)%float = true -> (3000 <? f)%float = false).
  { now apply at_most_not_above with (m0 := 6597069766656000%positive) (e0 := (-41)%Z). }
  assert (H6 : (f <=? 6000)%float = true -> (6000 <? f)%float = false).
  { now apply at_most_not_above with (m0 := 6597069766656000%positive) (e0 := (-40)%Z). }
  unfold band_gain. split; [|split; [|split]].
  - intros Hle. apply H1 in Hle. compare_with_thresholds f; reflexivity.
  - intros Hgt Hle. apply H3 in Hle. compare_with_thresholds f; reflexivity.
  - intros Hgt Hle. apply H6 in Hle.
    compare_with_thresholds f; split; reflexivity.
  - intros Hgt. compare_with_thresholds f; split; reflexivity.
Qed.

Lemma band_gain_not_above (f : float) :
  (1000 <? f)%float = false -> band_gain f = 1%Q.
Proof.
  intros H. unfold band_gain. compare_with_thresholds f; reflexivity.
Qed.

(** One entry of the mask: the three in-place multiplications of lines
    115-117 applied to a one. *)
Lemma mask_entry (f : float) :
  (let a := 1%Q in
   let a := if (1000 <? f)%float then (a * 0.6)%Q else a in
   let a := if (3000 <? f)%float then (a * 0.3)%Q else a in
   let a := if (6000 <? f)%float then (a * 0.1)%Q else a in
   a) = band_gain f.
Proof.
  unfold band_gain. compare_with_thresholds f; reflexivity.
Qed.

Lemma attenuation_mask_band_gain (freqs : list float) :
  attenuation_mask freqs = map band_gain freqs.
Proof.
  unfold attenuation_mask, np_imul_where, np_greater, np_ones_like.
  induction freqs as [|f t IH]; [reflexivity|].
  cbn [map combine fst snd]. rewrite IH. f_equal. apply mask_entry.
Qed.

End Attenuation.

Section AttenuationClaims.

Import Numpy Dsp.

Lemma rfftfreq_bins (n : nat) (sr : Z) :
  n <> 0%nat -> sr <> 0%Z ->
  (d <- py_truediv_int 1 sr ;; np_fft_rfftfreq n d)
  = Ok (map (bin_frequency n sr) (seq 0 (n / 2 + 1))).
Proof.
  intros Hn Hsr. unfold py_truediv_int.
  destruct (Z.eqb_spec sr 0) as [|_]; [contradiction|].
  cbn [bind]. unfold np_fft_rfftfreq.
  destruct n as [|n']; [contradiction | reflexivity].
Qed.

Lemma rfft_bins (signal : list R) :
  signal <> [] ->
  np_fft_rfft signal
  = Ok (map (rfft_bin signal) (seq 0 (length signal / 2 + 1))).
Proof. destruct signal; [congruence | reflexivity]. Qed.

Lemma combine_map_seq {A B : Type} (f : nat -> A) (g : nat -> B) (l : list nat) :
  combine (map f l) (map g l) = map (fun k => (f k, g k)) l.
Proof. induction l as [|k t IH]; simpl; [reflexivity | now rewrite IH]. Qed.

Lemma attenuated_spectrum_bins (signal : list R) (sr : Z) :
  signal <> [] -> sr <> 0%Z ->
  attenuated_spectrum signal sr
  = Ok (map (fun k =>
               Cscale (Q2R (band_gain (bin_frequency (length signal) sr k)))
                      (rfft_bin signal k))
            (seq 0 (length signal / 2 + 1))).
Proof.
  intros Hne Hsr. unfold attenuated_spectrum.
  rewrite (rfft_bins signal Hne). cbn [bind].
  assert (Hn : length signal <> 0%nat) by (destruct signal; simpl; congruence).
  pose proof (rfftfreq_bins (length signal) sr Hn Hsr) as Hf.
  unfold py_truediv_int in *.
  destruct (Z.eqb_spec sr 0) as [|_]; [contradiction|].
  cbn [bind] in *. rewrite Hf. cbn [bind].
  rewrite attenuation_mask_band_gain. unfold np_multiply.
  rewrite !length_map, Nat.eqb_refl. f_equal.
  rewrite map_map, combine_map_seq, map_map. reflexivity.
Qed.

(** The length the code returns: twice the half length, and an exception
    for a single sample. *)
Lemma attenuation_length (signal : list R) (sr : Z) :
  (2 <= length signal)%nat -> sr <> 0%Z ->
  exists out,
    apply_frequency_dependent_attenuation signal sr = Ok out /\
    length out = (2 * (length signal / 2))%nat.
Proof.
  intros Hlen Hsr. unfold apply_frequency_dependent_attenuation.
  rewrite attenuated_spectrum_bins; [| destruct signal; simpl in *; [lia | congruence] | assumption].
  cbn [bind]. unfold np_fft_irfft. rewrite length_map, length_seq.
  assert (Hh : (1 <= length signal / 2)%nat).
  { apply (Nat.div_le_lower_bound (length signal) 2 1); lia. }
  replace (length signal / 2 + 1 - 1)%nat with (length signal / 2)%nat by lia.
  destruct (Nat.eqb_spec (2 * (length signal / 2)) 0) as [H0 | _]; [lia|].
  eexists. split; [reflexivity|]. now rewrite length_map, length_seq.
Qed.

Lemma attenuation_single_sample (x : R) (sr : Z) :
  sr <> 0%Z ->
  apply_frequency_dependent_attenuation [x] sr
  = Raise (ValueError "Invalid number of FFT data points (0) specified.").
Proof.
  intros Hsr. unfold apply_frequency_dependent_attenuation.
  rewrite attenuated_spectrum_bins by (congruence || assumption).
  reflexivity.
Qed.

(** C2 (the code departs from it): three samples come back as two, and a
    single sample raises instead of coming back as one; the inverse
    transform is called without the length of the input. *)
Theorem attenuation_odd_length_shrinks :
  (exists out,
     apply_frequency_dependent_attenuation [1; 2; 3]%R 44100 = Ok out /\
     length out = 2%nat) /\
  apply_frequency_dependent_attenuation [1%R] 44100
  = Raise (ValueError "Invalid number of FFT data points (0) specified.").
Proof.
  split.
  - destruct (attenuation_length [1; 2; 3]%R 44100) as [out [H1 H2]];
      [simpl; lia | lia |].
    exists out. split; [exact H1 | exact H2].
  - apply attenuation_single_sample. lia.
Qed.

(** C3 (amended): the attenuation multiplies bin [k] of the forward
    transform, real part and imaginary part alike, by the gain of the band
    of the frequency the code computes for that bin, which is the float64
    value of [k * (1.0 / (N * (1 / sampling_rate)))]; the gain is 1 when
    that value is at most 1000, 0.6 above 1000 and up to 3000, 0.6 * 0.3 =
    0.18 above 3000 and up to 6000, and 0.6 * 0.3 * 0.1 = 0.018 above 6000;
    the mask built by the three in-place multiplications is that gain at
    every entry of the frequency array, and the inverse transform is
    applied to the product. *)
Theorem attenuation_mask_is_band_gain (signal : list R) (sr : Z) :
  signal <> [] -> sr <> 0%Z ->
  np_fft_rfft signal
  = Ok (map (rfft_bin signal) (seq 0 (length signal / 2 + 1))) /\
  (d <- py_truediv_int 1 sr ;; np_fft_rfftfreq (length signal) d)
  = Ok (map (bin_frequency (length signal) sr)
            (seq 0 (length signal / 2 + 1))) /\
  attenuated_spectrum signal sr
  = Ok (map (fun k =>
               (Q2R (band_gain (bin_frequency (length signal) sr k))
                  * fst (rfft_bin signal k),
                Q2R (band_gain (bin_frequency (length signal) sr k))
                  * snd (rfft_bin signal k))%R)
            (seq 0 (length signal / 2 + 1))) /\
  apply_frequency_dependent_attenuation signal sr
  = np_fft_irfft
      (map (fun k =>
              (Q2R (band_gain (bin_frequency (length signal) sr k))
                 * fst (rfft_bin signal k),
               Q2R (band_gain (bin_frequency (length signal) sr k))
                 * snd (rfft_bin signal k))%R)
           (seq 0 (length signal / 2 + 1))) /\
  (forall freqs, attenuation_mask freqs = map band_gain freqs) /\
  (forall k,
     bin_frequency (length signal) sr k
     = (py_float (Z.of_nat k)
        * (1 / (py_float (Z.of_nat (length signal))
                * (py_float 1 / py_float sr))))%float) /\
  (forall f,
     ((f <=? 1000)%float = true -> band_gain f = 1%Q) /\
     ((1000 <? f)%float = true -> (f <=? 3000)%float = true ->
        band_gain f = 0.6%Q) /\
     ((3000 <? f)%float = true -> (f <=? 6000)%float = true ->
        band_gain f = 0.18%Q /\ (0.6 * 0.3 == 0.18)%Q) /\
     ((6000 <? f)%float = true ->
        band_gain f = 0.018%Q /\ (0.6 * 0.3 * 0.1 == 0.018)%Q)).
Proof.
  intros Hne Hsr.
  pose proof (attenuated_spectrum_bins signal sr Hne Hsr) as Hs.
  assert (Hn : length signal <> 0%nat) by (destruct signal; simpl; congruence).
  repeat apply conj.
  - now apply rfft_bins.
  - now apply rfftfreq_bins.
  - exact Hs.
  - unfold apply_frequency_dependent_attenuation. now rewrite Hs.
  - exact attenuation_mask_band_gain.
  - reflexivity.
  - apply band_gain_cases.
Qed.

(** C3, as the specification words it, reads the bands on the frequency
    [k * sampling_rate / N] of the bin.  Bin 7 of a 14-sample buffer at
    12000 Hz lies at 6000 Hz, in the band of 0.18, but the value the code
    computes for it is one unit in the last place above 6000 and the mask
    holds 0.018 there; bin 30 of 1323 samples at 44100 Hz lies at 1000 Hz
    and gets 0.6, not 1. *)
Lemma boundary_bin_takes_next_band :
  (inject_Z 7 * inject_Z 12000 / inject_Z 14 == 6000)%Q /\
  (6000 <? bin_frequency 14 12000 7)%float = true /\
  (d <- py_truediv_int 1 12000 ;;
   freqs <- np_fft_rfftfreq 14 d ;;
   Ok (attenuation_mask freqs))
  = Ok [1; 1; 0.6; 0.6; 0.18; 0.18; 0.18; 0.018]%Q /\
  (forall signal : list R,
     length signal = 14%nat ->
     exists spectrum,
       attenuated_spectrum signal 12000 = Ok spectrum /\
       nth_error spectrum 7
       = Some (0.018 * fst (rfft_bin signal 7),
               0.018 * snd (rfft_bin signal 7))%R) /\
  ~ (0.018 == 0.18)%Q /\
  (inject_Z 30 * inject_Z 44100 / inject_Z 1323 == 1000)%Q /\
  (1000 <? bin_frequency 1323 44100 30)%float = true /\
  band_gain (bin_frequency 1323 44100 30) = 0.6%Q.
Proof.
  repeat apply conj.
  - reflexivity.
  - vm_compute. reflexivity.
  - vm_compute. reflexivity.
  - intros signal Hlen.
    assert (Hne : signal <> []) by (destruct signal; [discriminate | congruence]).
    eexists. split.
    + apply attenuated_spectrum_bins; [exact Hne | lia].
    + rewrite Hlen. change (seq 0 (14 / 2 + 1)) with [0; 1; 2; 3; 4; 5; 6; 7]%nat.
      cbn [map nth_error].
      replace (band_gain (bin_frequency 14 12000 7)) with 0.018%Q
        by (vm_compute; reflexivity).
      reflexivity.
  - intros H. revert H. unfold Qeq; simpl. lia.
  - reflexivity.
  - vm_compute. reflexivity.
  - vm_compute. reflexivity.
Qed.

End AttenuationClaims.

Section TransformExamples.

Import Numpy Dsp.
Local Open Scope R_scope.

Lemma Cexp_i_0 : Cexp_i 0 = (1, 0).
Proof. unfold Cexp_i. now rewrite cos_0, sin_0. Qed.

Lemma Cexp_i_PI : Cexp_i PI = (-1, 0).
Proof. unfold Cexp_i. now rewrite cos_PI, sin_PI. Qed.

Lemma Cexp_i_neg_PI : Cexp_i (- PI) = (-1, 0).
Proof.
  unfold Cexp_i. now rewrite cos_neg, sin_neg, cos_PI, sin_PI, Ropp_0.
Qed.

(** The two bins of a two-sample buffer: the sum and the difference. *)
Lemma rfft_bin_two_0 (a b : R) : rfft_bin [a; b] 0 = (a + b, 0).
Proof.
  unfold rfft_bin. cbn [length seq map combine fst snd Csum fold_right INR].
  replace (- (2 * PI * 0 * 0 / (1 + 1))) with 0 by field.
  replace (- (2 * PI * 0 * 1 / (1 + 1))) with 0 by field.
  rewrite Cexp_i_0.
  unfold Cadd, Cscale, Cre, Cim; simpl.
  apply f_equal2; ring.
Qed.

Lemma rfft_bin_two_1 (a b : R) : rfft_bin [a; b] 1 = (a - b, 0).
Proof.
  unfold rfft_bin. cbn [length seq map combine fst snd Csum fold_right INR].
  replace (- (2 * PI * 1 * 0 / (1 + 1))) with 0 by field.
  replace (- (2 * PI * 1 * 1 / (1 + 1))) with (- PI) by field.
  rewrite Cexp_i_0, Cexp_i_neg_PI.
  unfold Cadd, Cscale, Cre, Cim; simpl.
  apply f_equal2; ring.
Qed.

Example rfft_two_samples (a b : R) :
  np_fft_rfft [a; b] = Ok [(a + b, 0); (a - b, 0)].
Proof.
  rewrite rfft_bins by discriminate.
  change (seq 0 (length [a; b] / 2 + 1)) with [0%nat; 1%nat].
  cbn [map]. now rewrite rfft_bin_two_0, rfft_bin_two_1.
Qed.

Example irfft_two_bins (p q : R) :
  np_fft_irfft [(p, 0); (q, 0)] = Ok [(p + q) / 2; (p - q) / 2].
Proof.
  unfold np_fft_irfft, irfft_sample, hermitian_weight.
  cbn [length Nat.sub Nat.mul Nat.add Nat.eqb seq map combine fst snd fold_right INR].
  replace (2 * PI * 0 * 0 / (1 + 1)) with 0 by field.
  replace (2 * PI * 0 * 1 / (1 + 1)) with 0 by field.
  replace (2 * PI * 1 * 0 / (1 + 1)) with 0 by field.
  replace (2 * PI * 1 * 1 / (1 + 1)) with PI by field.
  rewrite Cexp_i_0, Cexp_i_PI.
  unfold Cmul, Cre, Cim; simpl.
  apply f_equal.
  apply f_equal2; [field|].
  apply f_equal2; [field | reflexivity].
Qed.

(** At 44100 Hz the second bin of a two-sample buffer lies at 22050 Hz, in
    the highest band: the difference of the samples is scaled by 0.018 and
    their sum is kept. *)
Example attenuate_two_samples (a b : R) :
  apply_frequency_dependent_attenuation [a; b] 44100
  = Ok [((a + b) + 0.018 * (a - b)) / 2; ((a + b) - 0.018 * (a - b)) / 2].
Proof.
  unfold apply_frequency_dependent_attenuation.
  rewrite attenuated_spectrum_bins by (discriminate || lia).
  change (seq 0 (length [a; b] / 2 + 1)) with [0%nat; 1%nat].
  cbn [map length]. rewrite rfft_bin_two_0, rfft_bin_two_1.
  replace (band_gain (bin_frequency 2 44100 0)) with 1%Q
    by (vm_compute; reflexivity).
  replace (band_gain (bin_frequency 2 44100 1)) with 0.018%Q
    by (vm_compute; reflexivity).
  unfold Cscale, Cre, Cim; cbn [fst snd].
  replace (Q2R 1 * (a + b)) with (a + b) by lra.
  replace (Q2R 1 * 0) with 0 by lra.
  replace (0.018 * 0) with 0 by lra.
  cbn [bind]. now rewrite irfft_two_bins.
Qed.

(** A buffer that alternates between [a] and [- a] at 44100 Hz is a pure
    22050 Hz component: it comes back scaled by 0.6 * 0.3 * 0.1. *)
Example attenuate_alternation_high (a : R) :
  apply_frequency_dependent_attenuation [a; - a] 44100
  = Ok [0.018 * a; - (0.018 * a)].
Proof.
  rewrite attenuate_two_samples.
  apply f_equal. apply f_equal2; [field|]. apply f_equal2; [field | reflexivity].
Qed.

(** Sampled at 2000 Hz the same alternation is a 1000 Hz component, which
    is not above the first threshold: the buffer comes back as it was. *)
Example attenuate_alternation_low (a : R) :
  apply_frequency_dependent_attenuation [a; - a] 2000 = Ok [a; - a].
Proof.
  unfold apply_frequency_dependent_attenuation.
  rewrite attenuated_spectrum_bins by (discriminate || lia).
  change (seq 0 (length [a; - a] / 2 + 1)) with [0%nat; 1%nat].
  cbn [map length]. rewrite rfft_bin_two_0, rfft_bin_two_1.
  replace (band_gain (bin_frequency 2 2000 0)) with 1%Q
    by (vm_compute; reflexivity).
  replace (band_gain (bin_frequency 2 2000 1)) with 1%Q
    by (vm_compute; reflexivity).
  unfold Cscale, Cre, Cim; cbn [fst snd].
  replace (Q2R 1 * (a + - a)) with (a + - a) by lra.
  replace (Q2R 1 * (a - - a)) with (a - - a) by lra.
  replace (Q2R 1 * 0) with 0 by lra.
  cbn [bind]. rewrite irfft_two_bins.
  apply f_equal. apply f_equal2; [field|]. apply f_equal2; [field | reflexivity].
Qed.

End TransformExamples.

Section DspWitnesses.

Import Numpy Dsp.
Local Open Scope R_scope.

(** The peak of the compressed curve over the buffer [0, -1, 1/2]: the
    middle sample carries it. *)
Lemma curve_at_minus_one :
  Rabs (np_sign (-1) * np_log1p (Rabs (-1)) * 1.2) = ln 2 * 1.2.
Proof.
  rewrite np_sign_neg by lra. unfold np_log1p.
  replace (Rabs (-1)) with 1 by (rewrite Rabs_left; lra).
  replace (1 + 1) with 2 by lra.
  assert (0 < ln 2) by (rewrite <- ln_1; apply ln_increasing; lra).
  rewrite Rabs_left; lra.
Qed.

Lemma curve_at_half :
  Rabs (np_sign (1 / 2) * np_log1p (Rabs (1 / 2)) * 1.2) = ln (3 / 2) * 1.2.
Proof.
  rewrite np_sign_pos by lra. unfold np_log1p.
  replace (Rabs (1 / 2)) with (1 / 2) by (rewrite Rabs_right; lra).
  replace (1 + 1 / 2) with (3 / 2) by lra.
  assert (0 < ln (3 / 2)) by (rewrite <- ln_1; apply ln_increasing; lra).
  rewrite Rabs_right; lra.
Qed.

Lemma three_sample_peak :
  np_max (map Rabs (map (fun x => np_sign x * np_log1p (Rabs x) * 1.2)
                        [0; -1; 1 / 2]))
  = Ok (ln 2 * 1.2).
Proof.
  apply is_max_np_max. cbn [map].
  rewrite curve_0, Rabs_R0, curve_at_minus_one, curve_at_half.
  assert (H32 : ln (3 / 2) < ln 2) by (apply ln_increasing; lra).
  assert (H2 : 0 < ln 2) by (rewrite <- ln_1; apply ln_increasing; lra).
  split.
  - right. left. reflexivity.
  - intros x [Hx | [Hx | [Hx | []]]]; subst x; lra.
Qed.

(** A silent, a negative and a positive sample, compressed with the
    factor 2 in place of 1.2: the same buffer, with peak [ln 2 * 1.2]
    before the division. *)
Lemma compress_gain_irrelevant_witness :
  apply_dynamic_range_compression [0; -1; 1 / 2]
  = compress_with_gain 2 [0; -1; 1 / 2] /\
  compress_with_gain 2 [0; -1; 1 / 2]
  = Ok (map Finite
          (map (fun x => np_sign x * np_log1p (Rabs x) / (ln 2 * 1.2 / 1.2))
               [0; -1; 1 / 2])).
Proof.
  apply (compress_gain_irrelevant 2 (ln 2 * 1.2) [0; -1; 1 / 2]).
  - lra.
  - exact three_sample_peak.
  - assert (H2 : 0 < ln 2) by (rewrite <- ln_1; apply ln_increasing; lra).
    lra.
Defined.

Lemma attenuation_mask_is_band_gain_witness :
  attenuated_spectrum [1; 0; -1; 0] 44100
  = Ok (map (fun k =>
               (Q2R (band_gain (bin_frequency 4 44100 k))
                  * fst (rfft_bin [1; 0; -1; 0] k),
                Q2R (band_gain (bin_frequency 4 44100 k))
                  * snd (rfft_bin [1; 0; -1; 0] k)))
            [0; 1; 2]%nat) /\
  map (bin_frequency 4 44100) [0; 1; 2]%nat = [0; 11025; 22050]%float /\
  map band_gain [0; 11025; 22050]%float = [1; 0.018; 0.018]%Q.
Proof.
  pose proof (attenuation_mask_is_band_gain [1; 0; -1; 0] 44100) as H.
  destruct H as (_ & _ & H & _); [discriminate | lia |].
  split; [exact H|]. split; vm_compute; reflexivity.
Defined.

End DspWitnesses.

(** ** Paths *)

Section Paths.

Import OsPath.
Local Open Scope string_scope.

Lemma str_take_drop (n : nat) (s : string) : str_take n s ++ str_drop n s = s.
Proof.
  revert s; induction n as [|n IH]; intros s; [reflexivity|].
  destruct s as [|c t]; [reflexivity|]. simpl. now rewrite IH.
Qed.

Lemma str_drop_next (n : nat) (s rest : string) (c : ascii) :
  str_drop n s = String c rest -> str_drop (S n) s = rest.
Proof.
  revert s; induction n as [|n IH]; intros s H.
  - simpl in H. now subst s.
  - destruct s as [|a t]; [discriminate|]. simpl in H. now apply IH in H.
Qed.

Lemma append_empty_r (s : string) : s ++ "" = s.
Proof. induction s as [|c t IH]; simpl; [reflexivity | now rewrite IH]. Qed.

Lemma contains_char_append (c : ascii) (a b : string) :
  contains_char c (a ++ b) = contains_char c a || contains_char c b.
Proof.
  induction a as [|x t IH]; simpl; [reflexivity|].
  now rewrite IH, orb_assoc.
Qed.

(** What [rfind] returns: [found] when the character does not occur,
    otherwise the index of an occurrence after which there is none. *)
Lemma rfind_from_spec (c : ascii) (s : string) (i found : Z) :
  (contains_char c s = false /\ rfind_from c s i found = found) \/
  (exists n rest,
     rfind_from c s i found = (i + Z.of_nat n)%Z /\
     str_drop n s = String c rest /\
     contains_char c rest = false).
Proof.
  revert i found; induction s as [|a t IH]; intros i found; simpl.
  - left. auto.
  - destruct (IH (i + 1)%Z (if Ascii.eqb a c then i else found))
      as [[Hno Hr] | [n [rest [Hr [Hd Hno]]]]].
    + destruct (Ascii.eqb_spec a c) as [-> | Hac].
      * right. exists 0%nat, t. rewrite Hr. simpl. repeat split; auto. lia.
      * left. simpl. auto.
    + right. exists (S n), rest. rewrite Hr. simpl. repeat split; auto. lia.
Qed.

Lemma str_rfind_spec (s : string) (c : ascii) :
  (contains_char c s = false /\ str_rfind s c = (-1)%Z) \/
  (exists n rest,
     str_rfind s c = Z.of_nat n /\
     str_drop n s = String c rest /\
     contains_char c rest = false).
Proof.
  unfold str_rfind.
  destruct (rfind_from_spec c s 0 (-1)) as [H | [n [rest [H1 H2]]]]; [now left|].
  right. exists n, rest. now rewrite H1.
Qed.

(** The basename is what follows the last slash: it holds no slash, and
    the path is a directory part followed by it. *)
Lemma basename_spec (p : string) :
  contains_char "/" (basename p) = false /\
  exists dir, p = dir ++ basename p.
Proof.
  unfold basename.
  destruct (str_rfind_spec p "/") as [[Hno Hr] | [n [rest [Hr [Hd Hno]]]]];
    rewrite Hr.
  - simpl. split; [exact Hno | now exists ""].
  - replace (Z.to_nat (Z.of_nat n + 1)) with (S n) by lia.
    rewrite (str_drop_next _ _ _ _ Hd). split; [exact Hno|].
    exists (str_take (S n) p).
    rewrite <- (str_drop_next _ _ _ _ Hd). symmetry. apply str_take_drop.
Qed.

(** The two parts [splitext] returns make up its argument, and the second
    is empty or a dot followed by characters other than a dot. *)
Lemma splitext_spec (p stem ext : string) :
  splitext p = (stem, ext) ->
  stem ++ ext = p /\
  (ext = "" \/ exists rest, ext = String "." rest /\ contains_char "." rest = false).
Proof.
  unfold splitext.
  destruct (str_rfind p "/" <? str_rfind p ".")%Z eqn:Hlt.
  - destruct (splitext_scan p _ _).
    + intros H; injection H as <- <-. split; [apply str_take_drop|].
      destruct (str_rfind_spec p ".") as [[_ Hr] | [n [rest [Hr [Hd Hno]]]]].
      * destruct (str_rfind_spec p "/") as [[_ Hs] | [m [_ [Hs _]]]];
          rewrite Hr, Hs in Hlt; apply Z.ltb_lt in Hlt; lia.
      * right. exists rest. rewrite Hr, Nat2Z.id. auto.
    + intros H; injection H as <- <-. split; [apply append_empty_r | now left].
  - intros H; injection H as <- <-. split; [apply append_empty_r | now left].
Qed.

Lemma no_slash_not_absolute (name : string) :
  contains_char "/" name = false -> str_startswith name "/" = false.
Proof.
  unfold str_startswith. destruct name as [|a t]; [reflexivity|].
  intros H. cbn [contains_char] in H.
  apply orb_false_elim in H. destruct H as [Ha _].
  cbn [prefix]. destruct (ascii_dec "/" a) as [<- | _]; [| reflexivity].
  rewrite Ascii.eqb_refl in Ha. discriminate.
Qed.

(** The output path of lines 155-156: the directory, a slash unless the
    directory ends with one, and the basename of the source with
    [_SNHL_sim] between its stem and its extension. *)
Lemma output_path_spec (directory audio_path : string) :
  exists stem ext,
    splitext (basename audio_path) = (stem, ext) /\
    stem ++ ext = basename audio_path /\
    (ext = "" \/
     exists rest, ext = String "." rest /\ contains_char "." rest = false) /\
    App.output_path directory audio_path
    = directory ++
      (if (directory =? "") || str_endswith_char directory "/" then "" else "/") ++
      stem ++ "_SNHL_sim" ++ ext.
Proof.
  unfold App.output_path.
  destruct (splitext (basename audio_path)) as [stem ext] eqn:Hs.
  exists stem, ext. destruct (splitext_spec _ _ _ Hs) as [Hcat Hext].
  repeat split; auto.
  destruct (basename_spec audio_path) as [Hno _].
  rewrite <- Hcat, contains_char_append in Hno.
  apply orb_false_elim in Hno. destruct Hno as [Hstem Hex].
  unfold join. rewrite no_slash_not_absolute.
  - destruct ((directory =? "") || str_endswith_char directory "/"); reflexivity.
  - rewrite !contains_char_append, Hstem, Hex. reflexivity.
Qed.

End Paths.

(** ** The batch run *)

Section Batch.

Import Numpy OsPath App.
Local Open Scope string_scope.
Local Open Scope list_scope.

Variable E : env.

Lemma with_results_same (self : AudioProcessingApp) :
  with_results self (processed_audios self) (sampling_rates self) = self.
Proof. now destruct self. Qed.

(** The decoder's rate is the rate of the result. *)
Lemma process_one_rate (audio_path : string) (buffer : list npfloat) (sr : Z) :
  process_one E audio_path = Ok (buffer, sr) ->
  exists audio, librosa_load E audio_path = Ok (audio, sr).
Proof.
  unfold process_one. destruct (librosa_load E audio_path) as [[audio sr0] | e];
    [| discriminate].
  cbn [bind fst snd].
  destruct (Dsp.apply_frequency_dependent_attenuation audio sr0); [| discriminate].
  cbn [bind]. destruct (Dsp.apply_dynamic_range_compression a); [| discriminate].
  cbn [bind]. intros H; injection H as _ <-. now exists audio.
Qed.

(** The loop over a list of paths that all process: one result is appended
    per path, in order, and each path is decoded once. *)
Lemma process_loop_ok (paths : list string) (rs : list (list npfloat * Z)) :
  Forall2 (fun p r => process_one E p = Ok r) paths rs ->
  forall self w,
    process_loop E paths self w
    = (with_results self (processed_audios self ++ map fst rs)
                         (sampling_rates self ++ map snd rs),
       w ++ map LibrosaLoad paths, Ok tt).
Proof.
  induction 1 as [|p r paths rs Hp _ IH]; intros self w.
  - simpl. now rewrite !app_nil_r, with_results_same.
  - cbn [process_loop]. rewrite Hp. destruct r as [buffer sr].
    rewrite IH. cbn [map fst snd processed_audios sampling_rates with_results].
    rewrite <- !app_assoc. reflexivity.
Qed.

(** The loop stops at the first path that raises: the paths after it are
    not decoded. *)
Lemma process_loop_raise (pre post : list string) (p : string)
  (rs : list (list npfloat * Z)) (e : exn) :
  Forall2 (fun p r => process_one E p = Ok r) pre rs ->
  process_one E p = Raise e ->
  forall self w,
    process_loop E (pre ++ p :: post) self w
    = (with_results self (processed_audios self ++ map fst rs)
                         (sampling_rates self ++ map snd rs),
       w ++ map LibrosaLoad (pre ++ [p]), Raise e).
Proof.
  intros Hpre Hp. induction Hpre as [|q r pre rs Hq _ IH]; intros self w.
  - cbn [app process_loop map]. rewrite Hp.
    now rewrite !app_nil_r, with_results_same.
  - cbn [app process_loop]. rewrite Hq. destruct r as [buffer sr].
    rewrite IH. cbn [map fst snd processed_audios sampling_rates with_results app].
    rewrite <- !app_assoc. reflexivity.
Qed.

Lemma process_audios_ok (self : AudioProcessingApp) (w : world)
  (rs : list (list npfloat * Z)) :
  audio_paths self <> [] ->
  Forall2 (fun p r => process_one E p = Ok r) (audio_paths self) rs ->
  process_audios E self w
  = (stop_loading_animation
       (with_status
          (with_save_button
             (with_results (start_loading_animation self)
                           (map fst rs) (map snd rs))
             NORMAL)
          "Audio files processed successfully." "green"),
     w ++ map LibrosaLoad (audio_paths self)).
Proof.
  intros Hne Hall. unfold process_audios.
  destruct (audio_paths self) as [|p0 t] eqn:Hp; [congruence|].
  cbn [audio_paths with_results start_loading_animation with_loading].
  rewrite Hp.
  rewrite (process_loop_ok (p0 :: t) rs Hall). reflexivity.
Qed.

Lemma process_audios_raise (self : AudioProcessingApp) (w : world)
  (pre post : list string) (p : string) (rs : list (list npfloat * Z)) (e : exn) :
  audio_paths self = pre ++ p :: post ->
  Forall2 (fun p r => process_one E p = Ok r) pre rs ->
  process_one E p = Raise e ->
  process_audios E self w
  = (stop_loading_animation
       (with_results (start_loading_animation self) (map fst rs) (map snd rs)),
     (w ++ map LibrosaLoad (pre ++ [p])) ++
     [ShowError "Processing Error" ("An error occurred: " ++ str_of_exn e)%string]).
Proof.
  intros Hp Hpre He. unfold process_audios.
  destruct (audio_paths self) as [|p0 t] eqn:Hp0.
  - destruct pre; discriminate.
  - cbn [audio_paths with_results start_loading_animation with_loading].
    rewrite Hp0, Hp.
    rewrite (process_loop_raise pre post p rs e Hpre He). reflexivity.
Qed.

End Batch.

Section BatchClaims.

Import Numpy OsPath App.
Local Open Scope string_scope.
Local Open Scope list_scope.

Variable E : env.

Lemma combine_fst_snd {A B : Type} (l : list (A * B)) :
  combine (map fst l) (map snd l) = l.
Proof.
  induction l as [|[a b] t IH]; simpl; [reflexivity | now rewrite IH].
Qed.

Lemma Forall2_nth_error_l {A B : Type} (P : A -> B -> Prop) (l : list A)
  (l' : list B) (i : nat) (a : A) :
  Forall2 P l l' -> nth_error l i = Some a ->
  exists b, nth_error l' i = Some b /\ P a b.
Proof.
  intros H; revert i; induction H as [|x y l l' Hxy _ IH]; intros i Hi.
  - destruct i; discriminate.
  - destruct i as [|i]; simpl in *.
    + injection Hi as <-. eauto.
    + now apply IH.
Qed.

(** An invocation does not look at the results of an earlier one. *)
Lemma process_audios_resets (self : AudioProcessingApp) (w : world)
  (old_audios : list (list npfloat)) (old_rates : list Z) :
  audio_paths self <> [] ->
  process_audios E (with_results self old_audios old_rates) w
  = process_audios E self w.
Proof.
  intros Hne. unfold process_audios.
  cbn [audio_paths with_results].
  destruct (audio_paths self); [congruence | reflexivity].
Qed.

(** C5 as amended: when the file at index [i] raises and those before it
    process, the run decodes the paths up to that one and no path after it,
    then shows one error dialog whose text is that of the exception, and
    leaves the save button, the status text, the paths and the directory as
    they were. *)
Theorem process_failure_aborts (self : AudioProcessingApp) (w : world)
  (pre post : list string) (p : string) (rs : list (list npfloat * Z))
  (e : exn) :
  audio_paths self = pre ++ p :: post ->
  Forall2 (fun p r => process_one E p = Ok r) pre rs ->
  process_one E p = Raise e ->
  snd (process_audios E self w)
  = w ++ map LibrosaLoad pre ++
    [LibrosaLoad p;
     ShowError "Processing Error" ("An error occurred: " ++ str_of_exn e)%string] /\
  save_button (fst (process_audios E self w)) = save_button self /\
  status_label (fst (process_audios E self w)) = status_label self /\
  audio_paths (fst (process_audios E self w)) = audio_paths self /\
  save_directory (fst (process_audios E self w)) = save_directory self /\
  loading (fst (process_audios E self w)) = false.
Proof.
  intros Hp Hpre He.
  rewrite (process_audios_raise E self w pre post p rs e Hp Hpre He).
  cbn [fst snd]. repeat apply conj; try reflexivity.
  rewrite map_app, <- !app_assoc. reflexivity.
Qed.

End BatchClaims.

(** ** Export *)

Section ExportLoop.

Import Numpy OsPath App.
Local Open Scope string_scope.
Local Open Scope list_scope.

Variable E : env.

Lemma export_attempt_ok (directory : string) (self : AudioProcessingApp)
  (i : nat) (audio_path : string) (ev : io_event) :
  export_attempt E directory self i audio_path = Ok ev ->
  exists data sr,
    nth_error (processed_audios self) i = Some data /\
    nth_error (sampling_rates self) i = Some sr /\
    sf_write E (output_path directory audio_path) data sr = Ok tt /\
    ev = SfWrite (output_path directory audio_path) data sr.
Proof.
  unfold export_attempt.
  destruct (nth_error (processed_audios self) i) as [data|]; [| discriminate].
  destruct (nth_error (sampling_rates self) i) as [sr|]; [| discriminate].
  destruct (sf_write E _ data sr) as [[] | e] eqn:Hw; [| discriminate].
  intros H; injection H as <-. exists data, sr. auto.
Qed.

Lemma save_loop_step_ok (directory : string) (self : AudioProcessingApp)
  (i : nat) (audio_path : string) (rest : list (nat * string))
  (saved : list string) (w : world) (ev : io_event) :
  export_attempt E directory self i audio_path = Ok ev ->
  save_loop E directory self ((i, audio_path) :: rest) saved w
  = save_loop E directory self rest
      (saved ++ [output_path directory audio_path]) (w ++ [ev]).
Proof.
  unfold export_attempt. cbn [save_loop].
  destruct (nth_error (processed_audios self) i) as [data|]; [| discriminate].
  destruct (nth_error (sampling_rates self) i) as [sr|]; [| discriminate].
  destruct (sf_write E _ data sr) as [[] | e]; [| discriminate].
  intros H; injection H as <-. reflexivity.
Qed.

Lemma save_loop_step_raise (directory : string) (self : AudioProcessingApp)
  (i : nat) (audio_path : string) (rest : list (nat * string))
  (saved : list string) (w : world) (e : exn) :
  export_attempt E directory self i audio_path = Raise e ->
  save_loop E directory self ((i, audio_path) :: rest) saved w
  = (saved, w, Raise e).
Proof.
  unfold export_attempt. cbn [save_loop].
  destruct (nth_error (processed_audios self) i) as [data|];
    [| intros H; injection H as <-; reflexivity].
  destruct (nth_error (sampling_rates self) i) as [sr|];
    [| intros H; injection H as <-; reflexivity].
  destruct (sf_write E _ data sr) as [[] | e']; [discriminate|].
  intros H; injection H as <-. reflexivity.
Qed.

Lemma save_loop_ok (directory : string) (self : AudioProcessingApp)
  (items : list (nat * string)) (evs : list io_event) :
  Forall2 (fun ip ev =>
             export_attempt E directory self (fst ip) (snd ip) = Ok ev)
          items evs ->
  forall saved w,
    save_loop E directory self items saved w
    = (saved ++ map (fun ip => output_path directory (snd ip)) items,
       w ++ evs, Ok tt).
Proof.
  induction 1 as [|[i p] ev items evs Hev _ IH]; intros saved w.
  - simpl. now rewrite !app_nil_r.
  - rewrite (save_loop_step_ok _ _ _ _ _ _ _ _ Hev), IH.
    cbn [map snd]. now rewrite <- !app_assoc.
Qed.

Lemma save_loop_raise (directory : string) (self : AudioProcessingApp)
  (pre post : list (nat * string)) (i : nat) (p : string)
  (evs : list io_event) (e : exn) :
  Forall2 (fun ip ev =>
             export_attempt E directory self (fst ip) (snd ip) = Ok ev)
          pre evs ->
  export_attempt E directory self i p = Raise e ->
  forall saved w,
    save_loop E directory self (pre ++ (i, p) :: post) saved w
    = (saved ++ map (fun ip => output_path directory (snd ip)) pre,
       w ++ evs, Raise e).
Proof.
  intros Hpre He. induction Hpre as [|[j q] ev pre evs Hev _ IH]; intros saved w.
  - cbn [app map]. rewrite (save_loop_step_raise _ _ _ _ _ _ _ _ He).
    now rewrite !app_nil_r.
  - cbn [app]. rewrite (save_loop_step_ok _ _ _ _ _ _ _ _ Hev), IH.
    cbn [map snd]. now rewrite <- !app_assoc.
Qed.

Lemma enumerate_app (pre post : list string) (p : string) (start : nat) :
  combine (seq start (length (pre ++ p :: post))) (pre ++ p :: post)
  = combine (seq start (length pre)) pre ++
    (start + length pre, p)%nat ::
    combine (seq (S (start + length pre)) (length post)) post.
Proof.
  revert start; induction pre as [|q pre IH]; intros start.
  - cbn [app length seq combine]. now rewrite Nat.add_0_r.
  - cbn [app length seq combine]. rewrite IH.
    now rewrite Nat.add_succ_comm.
Qed.

Lemma save_audios_guards (self : AudioProcessingApp) (w : world)
  (directory : string) :
  processed_audios self <> [] -> sampling_rates self <> [] ->
  directory_chosen (save_directory self) = Some directory ->
  save_audios E self w
  = match
      save_loop E directory self
        (combine (seq 0 (length (audio_paths self))) (audio_paths self)) [] w
    with
    | (saved_files, w, Ok _) =>
        (with_status self
           ("Processed files saved:" ++ newline ++
            str_join newline saved_files)%string "blue",
         w ++ [ShowInfo "Success" "All processed files have been saved."])
    | (_, w, Raise e) =>
        (self,
         w ++ [ShowError "Save Error"
                 ("An error occurred while saving the files: " ++
                  str_of_exn e)%string])
    end.
Proof.
  intros Ha Hr Hd. unfold save_audios.
  destruct (processed_audios self); [congruence|].
  destruct (sampling_rates self); [congruence|].
  now rewrite Hd.
Qed.

(** The events of the writes that succeeded are those of the aligned
    triples, in the order of the paths. *)
Lemma written_events_aligned (directory : string) (self : AudioProcessingApp)
  (paths : list string) (evs : list io_event) (start : nat) :
  Forall2 (fun ip ev =>
             export_attempt E directory self (fst ip) (snd ip) = Ok ev)
          (combine (seq start (length paths)) paths) evs ->
  length evs = length paths /\
  forall j ev,
    nth_error evs j = Some ev ->
    exists q data sr,
      nth_error paths j = Some q /\
      nth_error (processed_audios self) (start + j) = Some data /\
      nth_error (sampling_rates self) (start + j) = Some sr /\
      sf_write E (output_path directory q) data sr = Ok tt /\
      ev = SfWrite (output_path directory q) data sr.
Proof.
  revert evs start; induction paths as [|q paths IH]; intros evs start H.
  - inversion H; subst. split; [reflexivity|]. intros [|j] ev; discriminate.
  - cbn [length seq combine] in H. inversion H as [|ip ev0 items evs' Hev Hrest];
      subst. cbn [fst snd] in Hev.
    destruct (IH _ _ Hrest) as [Hlen Hnth]. split; [simpl; now rewrite Hlen|].
    intros [|j] ev Hj; simpl in Hj.
    + injection Hj as <-.
      destruct (export_attempt_ok _ _ _ _ _ Hev) as [data [sr [H1 [H2 [H3 H4]]]]].
      exists q, data, sr. rewrite Nat.add_0_r. simpl. auto.
    + destruct (Hnth j ev Hj) as [q' [data [sr [H0 [H1 [H2 [H3 H4]]]]]]].
      exists q', data, sr. rewrite <- Nat.add_succ_comm. simpl. auto.
Qed.

Lemma save_audios_raise (self : AudioProcessingApp) (w : world)
  (directory : string) (pre post : list string) (p : string)
  (evs : list io_event) (e : exn) :
  processed_audios self <> [] -> sampling_rates self <> [] ->
  directory_chosen (save_directory self) = Some directory ->
  audio_paths self = pre ++ p :: post ->
  Forall2 (fun ip ev =>
             export_attempt E directory self (fst ip) (snd ip) = Ok ev)
          (combine (seq 0 (length pre)) pre) evs ->
  export_attempt E directory self (length pre) p = Raise e ->
  save_audios E self w
  = (self,
     w ++ evs ++
     [ShowError "Save Error"
        ("An error occurred while saving the files: " ++ str_of_exn e)%string]).
Proof.
  intros Ha Hr Hd Hp Hpre He.
  rewrite (save_audios_guards self w directory Ha Hr Hd).
  rewrite Hp, enumerate_app.
  rewrite (save_loop_raise directory self _ _ _ _ evs e Hpre He).
  now rewrite <- app_assoc.
Qed.

Lemma save_audios_ok (self : AudioProcessingApp) (w : world)
  (directory : string) (evs : list io_event) :
  processed_audios self <> [] -> sampling_rates self <> [] ->
  directory_chosen (save_directory self) = Some directory ->
  Forall2 (fun ip ev =>
             export_attempt E directory self (fst ip) (snd ip) = Ok ev)
          (combine (seq 0 (length (audio_paths self))) (audio_paths self)) evs ->
  snd (save_audios E self w)
  = w ++ evs ++ [ShowInfo "Success" "All processed files have been saved."].
Proof.
  intros Ha Hr Hd Hall.
  rewrite (save_audios_guards self w directory Ha Hr Hd).
  rewrite (save_loop_ok directory self _ evs Hall).
  cbn [snd]. now rewrite <- app_assoc.
Qed.

End ExportLoop.

Section ExportClaims.

Import Numpy OsPath App.
Local Open Scope string_scope.
Local Open Scope list_scope.

Variable E : env.

Lemma directory_chosen_nonempty (d : option string) (directory : string) :
  directory_chosen d = Some directory ->
  d = Some directory /\ (directory =? "") = false.
Proof.
  unfold directory_chosen. destruct d as [s|]; [| discriminate].
  destruct (s =? "") eqn:Hs; [discriminate|].
  intros H; injection H as <-. auto.
Qed.

(** C8: the export writes the aligned (path, buffer, rate) triples in the
    order of the paths; at the first index whose write raises (or that has
    no buffer or rate) the loop stops, so no later file is written, and the
    files written before it stay written: the world is the earlier world,
    the writes made, and one error dialog.  The application object is left
    as it was. *)
Theorem save_aborts_at_first_failure (self : AudioProcessingApp) (w : world)
  (directory : string) (pre post : list string) (p : string)
  (evs : list io_event) (e : exn) :
  processed_audios self <> [] -> sampling_rates self <> [] ->
  directory_chosen (save_directory self) = Some directory ->
  audio_paths self = pre ++ p :: post ->
  Forall2 (fun ip ev =>
             export_attempt E directory self (fst ip) (snd ip) = Ok ev)
          (combine (seq 0 (length pre)) pre) evs ->
  export_attempt E directory self (length pre) p = Raise e ->
  save_audios E self w
  = (self,
     w ++ evs ++
     [ShowError "Save Error"
        ("An error occurred while saving the files: " ++ str_of_exn e)%string]) /\
  length evs = length pre /\
  forall j ev,
    nth_error evs j = Some ev ->
    exists q data sr,
      nth_error (audio_paths self) j = Some q /\
      nth_error (processed_audios self) j = Some data /\
      nth_error (sampling_rates self) j = Some sr /\
      ev = SfWrite (output_path directory q) data sr.
Proof.
  intros Ha Hr Hd Hp Hpre He.
  destruct (written_events_aligned E _ _ _ _ _ Hpre) as [Hlen Hnth].
  repeat apply conj.
  - now apply (save_audios_raise E self w directory pre post p evs e).
  - exact Hlen.
  - intros j ev Hj. destruct (Hnth j ev Hj) as [q [data [sr [H0 [H1 [H2 [_ H4]]]]]]].
    exists q, data, sr. repeat split; auto.
    rewrite Hp, nth_error_app1; [exact H0|].
    apply nth_error_Some. congruence.
Qed.

(** With one buffer and one rate per path, every pass of the export loop
    finds its buffer and rate, and succeeds when the write does. *)
Lemma export_attempts_aligned (directory : string) (self : AudioProcessingApp)
  (paths : list string) (rs : list (list npfloat * Z)) :
  Forall2 (fun p r => sf_write E (output_path directory p) (fst r) (snd r) = Ok tt)
          paths rs ->
  forall done_audios done_rates,
    processed_audios self = done_audios ++ map fst rs ->
    sampling_rates self = done_rates ++ map snd rs ->
    length done_rates = length done_audios ->
    Forall2 (fun ip ev =>
               export_attempt E directory self (fst ip) (snd ip) = Ok ev)
            (combine (seq (length done_audios) (length paths)) paths)
            (map (fun pr => SfWrite (output_path directory (fst pr))
                                    (fst (snd pr)) (snd (snd pr)))
                 (combine paths rs)).
Proof.
  induction 1 as [|p r paths rs Hw _ IH]; intros done_audios done_rates Ha Hr Hlen.
  - constructor.
  - cbn [length seq combine map fst snd]. constructor.
    + cbn [fst snd]. unfold export_attempt.
      rewrite Ha, Hr. cbn [map].
      rewrite nth_error_app2, Nat.sub_diag by lia. cbn [nth_error].
      rewrite nth_error_app2 by lia.
      rewrite <- Hlen, Nat.sub_diag. cbn [nth_error].
      now rewrite Hw.
    + specialize (IH (done_audios ++ [fst r]) (done_rates ++ [snd r])).
      rewrite !length_app in IH. cbn [length] in IH.
      rewrite !Nat.add_1_r in IH. apply IH.
      * rewrite Ha. cbn [map]. now rewrite <- app_assoc.
      * rewrite Hr. cbn [map]. now rewrite <- app_assoc.
      * now rewrite Hlen.
Qed.

(** C9: after a run in which every path processes, an export whose writes
    all succeed writes, for each path in order, one file holding the
    processed buffer of that path at the rate the decoder returned for it.
    The file is named after the source: the chosen directory, a slash
    unless the directory ends with one, then the basename of the source
    with [_SNHL_sim] put between its stem and its extension, the extension
    being empty or the last dot of the basename and what follows it. *)
Theorem export_names_and_rates (self : AudioProcessingApp) (w : world)
  (directory : string) (rs : list (list npfloat * Z)) :
  audio_paths self <> [] ->
  Forall2 (fun p r => process_one E p = Ok r) (audio_paths self) rs ->
  directory_chosen (save_directory self) = Some directory ->
  Forall2 (fun p r => sf_write E (output_path directory p) (fst r) (snd r) = Ok tt)
          (audio_paths self) rs ->
  snd (save_audios E (fst (process_audios E self w))
                     (snd (process_audios E self w)))
  = snd (process_audios E self w) ++
    map (fun pr => SfWrite (output_path directory (fst pr))
                           (fst (snd pr)) (snd (snd pr)))
        (combine (audio_paths self) rs) ++
    [ShowInfo "Success" "All processed files have been saved."] /\
  (forall p buffer sr,
     In (p, (buffer, sr)) (combine (audio_paths self) rs) ->
     process_one E p = Ok (buffer, sr) /\
     exists audio, librosa_load E p = Ok (audio, sr)) /\
  (forall p,
     exists stem ext,
       splitext (basename p) = (stem, ext) /\
       (stem ++ ext)%string = basename p /\
       (ext = "" \/
        exists rest, ext = String "." rest /\ contains_char "." rest = false) /\
       output_path directory p
       = (directory ++
          (if str_endswith_char directory "/" then "" else "/") ++
          stem ++ "_SNHL_sim" ++ ext)%string).
Proof.
  intros Hne Hall Hdir Hw.
  destruct (directory_chosen_nonempty _ _ Hdir) as [Hd Hnz].
  rewrite (process_audios_ok E self w rs Hne Hall). cbn [fst snd].
  repeat apply conj.
  - apply (save_audios_ok E) with (directory := directory).
    + cbn. destruct rs; [| discriminate].
      inversion Hall as [Hp |]; congruence.
    + cbn. destruct rs; [| discriminate].
      inversion Hall as [Hp |]; congruence.
    + exact Hdir.
    + cbn [audio_paths stop_loading_animation start_loading_animation
           with_loading with_status with_save_button with_results].
      apply (export_attempts_aligned directory _ _ rs Hw [] []); reflexivity.
  - assert (Hin : forall p r, In (p, r) (combine (audio_paths self) rs) ->
                              process_one E p = Ok r).
    { clear -Hall. induction Hall as [|q r0 l l' Hq _ IH]; intros p r Hin.
      - contradiction.
      - destruct Hin as [Heq | Hin]; [injection Heq as <- <-; exact Hq | now apply IH]. }
    intros p buffer sr Hi. split; [now apply Hin|].
    apply (process_one_rate E p buffer sr). now apply Hin.
  - intros p. destruct (output_path_spec directory p) as [stem [ext [H1 [H2 [H3 H4]]]]].
    exists stem, ext. rewrite Hnz in H4. auto.
Qed.

End ExportClaims.

(** ** Worked sessions *)

Section Sessions.

Import Numpy OsPath App.
Local Open Scope string_scope.
Local Open Scope list_scope.

Lemma compress_nonempty (signal : list R) :
  signal <> [] ->
  exists out, Dsp.apply_dynamic_range_compression signal = Ok out.
Proof.
  destruct signal as [|x t]; [congruence|]. intros _.
  unfold Dsp.apply_dynamic_range_compression, Dsp.peak_normalize.
  cbn [map np_max bind]. eauto.
Qed.

Lemma demo_two_samples (p : string) :
  librosa_load demo_env p = Ok ([1%R; 0%R], 44100%Z) ->
  process_one demo_env p = Ok (demo_buffer, 44100%Z).
Proof.
  intros Hl. unfold process_one. rewrite Hl. cbn [bind fst snd].
  unfold demo_buffer.
  rewrite (attenuate_two_samples 1 0). cbn [bind].
  destruct (compress_nonempty
              [((1 + 0 + 0.018 * (1 - 0)) / 2)%R; ((1 + 0 - 0.018 * (1 - 0)) / 2)%R])
    as [out Hout]; [discriminate|].
  rewrite Hout. reflexivity.
Qed.

Lemma demo_single_sample (p : string) :
  librosa_load demo_env p = Ok ([1%R], 44100%Z) ->
  process_one demo_env p
  = Raise (ValueError "Invalid number of FFT data points (0) specified.").
Proof.
  intros Hl. unfold process_one. rewrite Hl. cbn [bind fst snd].
  rewrite attenuation_single_sample by lia. reflexivity.
Qed.

(** C6 (the code departs from it): a file is added and processed, a
    directory is chosen, a second file is added and the save button, still
    enabled, is clicked.  The session then holds two paths for one buffer
    and one rate; the export writes the first file and indexes the buffers
    at 1, past their end. *)
Theorem export_indexes_past_results :
  audio_paths
    (fst (run demo_env
            [UploadAudioFiles ["/in/a.wav"]; ClickProcess;
             ChooseSaveDirectory "/out"; UploadAudioFiles ["/in/d.wav"];
             ClickSave]))
  = ["/in/a.wav"; "/in/d.wav"] /\
  processed_audios
    (fst (run demo_env
            [UploadAudioFiles ["/in/a.wav"]; ClickProcess;
             ChooseSaveDirectory "/out"; UploadAudioFiles ["/in/d.wav"];
             ClickSave]))
  = [demo_buffer] /\
  sampling_rates
    (fst (run demo_env
            [UploadAudioFiles ["/in/a.wav"]; ClickProcess;
             ChooseSaveDirectory "/out"; UploadAudioFiles ["/in/d.wav"];
             ClickSave]))
  = [44100%Z] /\
  snd (run demo_env
         [UploadAudioFiles ["/in/a.wav"]; ClickProcess;
          ChooseSaveDirectory "/out"; UploadAudioFiles ["/in/d.wav"];
          ClickSave])
  = [LibrosaLoad "/in/a.wav";
     SfWrite "/out/a_SNHL_sim.wav" demo_buffer 44100;
     ShowError "Save Error"
       "An error occurred while saving the files: list index out of range"].
Proof.
  unfold run. cbn [fold_left step].
  rewrite (process_audios_ok demo_env _ [] [(demo_buffer, 44100%Z)]);
    [| discriminate
     | constructor; [apply demo_two_samples; reflexivity | constructor]].
  cbn [step map fst snd].
  match goal with
  | |- context [save_audios demo_env ?s ?w] =>
      rewrite (save_audios_raise demo_env s w "/out" ["/in/a.wav"] []
                 "/in/d.wav"
                 [SfWrite "/out/a_SNHL_sim.wav" demo_buffer 44100] IndexError);
      [| discriminate | discriminate | reflexivity | reflexivity
       | constructor; [reflexivity | constructor] | reflexivity]
  end.
  repeat split; reflexivity.
Qed.

(** C5 as stated fails on two counts.  Two batches that fail at different
    paths report the same error, a text that names no path; and after a run
    that succeeded, a later run that fails at its second file leaves the
    save button enabled, so that the export writes the result of the first
    file of the failed batch. *)
Lemma failed_run_names_no_path_and_exports :
  snd (run demo_env [UploadAudioFiles ["/in/a.wav"; "/in/b.wav"]; ClickProcess])
  = [LibrosaLoad "/in/a.wav"; LibrosaLoad "/in/b.wav";
     ShowError "Processing Error"
       "An error occurred: Invalid number of FFT data points (0) specified."] /\
  snd (run demo_env [UploadAudioFiles ["/in/a.wav"; "/in/c.wav"]; ClickProcess])
  = [LibrosaLoad "/in/a.wav"; LibrosaLoad "/in/c.wav";
     ShowError "Processing Error"
       "An error occurred: Invalid number of FFT data points (0) specified."] /\
  snd (run demo_env
         [UploadAudioFiles ["/in/a.wav"]; ClickProcess;
          ChooseSaveDirectory "/out"; UploadAudioFiles ["/in/b.wav"];
          ClickProcess; ClickSave])
  = [LibrosaLoad "/in/a.wav";
     LibrosaLoad "/in/a.wav"; LibrosaLoad "/in/b.wav";
     ShowError "Processing Error"
       "An error occurred: Invalid number of FFT data points (0) specified.";
     SfWrite "/out/a_SNHL_sim.wav" demo_buffer 44100;
     ShowError "Save Error"
       "An error occurred while saving the files: list index out of range"].
Proof.
  repeat apply conj.
  - unfold run. cbn [fold_left step].
    rewrite (process_audios_raise demo_env _ [] ["/in/a.wav"] [] "/in/b.wav"
               [(demo_buffer, 44100%Z)]
               (ValueError "Invalid number of FFT data points (0) specified."));
      [reflexivity | reflexivity
       | constructor; [apply demo_two_samples; reflexivity | constructor]
       | apply demo_single_sample; reflexivity].
  - unfold run. cbn [fold_left step].
    rewrite (process_audios_raise demo_env _ [] ["/in/a.wav"] [] "/in/c.wav"
               [(demo_buffer, 44100%Z)]
               (ValueError "Invalid number of FFT data points (0) specified."));
      [reflexivity | reflexivity
       | constructor; [apply demo_two_samples; reflexivity | constructor]
       | apply demo_single_sample; reflexivity].
  - unfold run. cbn [fold_left step].
    rewrite (process_audios_ok demo_env _ [] [(demo_buffer, 44100%Z)]);
      [| discriminate
       | constructor; [apply demo_two_samples; reflexivity | constructor]].
    cbn [step map fst snd].
    match goal with
    | |- context [process_audios demo_env ?s ?w] =>
        rewrite (process_audios_raise demo_env s w ["/in/a.wav"] []
                   "/in/b.wav" [(demo_buffer, 44100%Z)]
                   (ValueError "Invalid number of FFT data points (0) specified."));
        [| reflexivity
         | constructor; [apply demo_two_samples; reflexivity | constructor]
         | apply demo_single_sample; reflexivity]
    end.
    cbn [step map fst snd].
    match goal with
    | |- context [save_audios demo_env ?s ?w] =>
        rewrite (save_audios_raise demo_env s w "/out" ["/in/a.wav"] []
                   "/in/b.wav"
                   [SfWrite "/out/a_SNHL_sim.wav" demo_buffer 44100] IndexError);
        [| discriminate | discriminate | reflexivity | reflexivity
         | constructor; [reflexivity | constructor] | reflexivity]
    end.
    reflexivity.
Qed.

Lemma process_failure_aborts_witness :
  snd (process_audios demo_env
         (fst (run demo_env
                 [UploadAudioFiles ["/in/a.wav"; "/in/b.wav"; "/in/d.wav"]]))
         [])
  = [LibrosaLoad "/in/a.wav"; LibrosaLoad "/in/b.wav";
     ShowError "Processing Error"
       "An error occurred: Invalid number of FFT data points (0) specified."] /\
  save_button
    (fst (process_audios demo_env
            (fst (run demo_env
                    [UploadAudioFiles ["/in/a.wav"; "/in/b.wav"; "/in/d.wav"]]))
            []))
  = DISABLED.
Proof.
  destruct (process_failure_aborts demo_env
              (fst (run demo_env
                      [UploadAudioFiles ["/in/a.wav"; "/in/b.wav"; "/in/d.wav"]]))
              [] ["/in/a.wav"] ["/in/d.wav"] "/in/b.wav"
              [(demo_buffer, 44100%Z)]
              (ValueError "Invalid number of FFT data points (0) specified."))
    as [H1 [H2 _]].
  - reflexivity.
  - constructor; [apply demo_two_samples; reflexivity | constructor].
  - apply demo_single_sample; reflexivity.
  - split; [exact H1 | exact H2].
Defined.

Lemma save_aborts_at_first_failure_witness :
  save_audios demo_env
    (with_save_directory
       (with_results
          (fst (run demo_env
                  [UploadAudioFiles
                     ["/in/a.wav"; "/in/locked.wav"; "/in/d.wav"]]))
          [demo_buffer; demo_buffer; demo_buffer] [44100; 44100; 44100]%Z)
       (Some "/out"))
    []
  = (with_save_directory
       (with_results
          (fst (run demo_env
                  [UploadAudioFiles
                     ["/in/a.wav"; "/in/locked.wav"; "/in/d.wav"]]))
          [demo_buffer; demo_buffer; demo_buffer] [44100; 44100; 44100]%Z)
       (Some "/out"),
     [SfWrite "/out/a_SNHL_sim.wav" demo_buffer 44100;
      ShowError "Save Error"
        "An error occurred while saving the files: Error opening '/out/locked_SNHL_sim.wav': System error."]).
Proof.
  apply (save_aborts_at_first_failure demo_env
           (with_save_directory
              (with_results
                 (fst (run demo_env
                         [UploadAudioFiles
                            ["/in/a.wav"; "/in/locked.wav"; "/in/d.wav"]]))
                 [demo_buffer; demo_buffer; demo_buffer] [44100; 44100; 44100]%Z)
              (Some "/out"))
           [] "/out" ["/in/a.wav"] ["/in/d.wav"] "/in/locked.wav"
           [SfWrite "/out/a_SNHL_sim.wav" demo_buffer 44100]
           (ExternalError "Error opening '/out/locked_SNHL_sim.wav': System error.")).
  - discriminate.
  - discriminate.
  - reflexivity.
  - reflexivity.
  - constructor; [reflexivity | constructor].
  - reflexivity.
Defined.

Lemma export_names_and_rates_witness :
  snd (save_audios demo_env
         (fst (process_audios demo_env
                 (with_save_directory
                    (fst (run demo_env
                            [UploadAudioFiles ["/in/a.wav"; "/in/x.tar.gz"]]))
                    (Some "/out"))
                 []))
         (snd (process_audios demo_env
                 (with_save_directory
                    (fst (run demo_env
                            [UploadAudioFiles ["/in/a.wav"; "/in/x.tar.gz"]]))
                    (Some "/out"))
                 [])))
  = snd (process_audios demo_env
           (with_save_directory
              (fst (run demo_env
                      [UploadAudioFiles ["/in/a.wav"; "/in/x.tar.gz"]]))
              (Some "/out"))
           []) ++
    [SfWrite "/out/a_SNHL_sim.wav" demo_buffer 44100;
     SfWrite "/out/x.tar_SNHL_sim.gz" demo_buffer 44100;
     ShowInfo "Success" "All processed files have been saved."].
Proof.
  apply (export_names_and_rates demo_env
           (with_save_directory
              (fst (run demo_env
                      [UploadAudioFiles ["/in/a.wav"; "/in/x.tar.gz"]]))
              (Some "/out"))
           [] "/out" [(demo_buffer, 44100%Z); (demo_buffer, 44100%Z)]).
  - discriminate.
  - repeat constructor; apply demo_two_samples; reflexivity.
  - reflexivity.
  - repeat constructor.
Defined.

End Sessions.

(** ** What every session keeps *)

Section SessionInvariant.

Import Numpy OsPath App.
Local Open Scope string_scope.
Local Open Scope list_scope.

Variable E : env.

Lemma path_in_false (file : string) (paths : list string) :
  path_in file paths = false -> ~ In file paths.
Proof.
  unfold path_in. intros H Hin.
  assert (Ht : existsb (String.eqb file) paths = true).
  { apply existsb_exists. exists file. split; [exact Hin | apply String.eqb_refl]. }
  congruence.
Qed.

Lemma NoDup_snoc {A : Type} (l : list A) (x : A) :
  NoDup l -> ~ In x l -> NoDup (l ++ [x]).
Proof.
  intros Hl Hx. apply NoDup_rev in Hl.
  rewrite <- (rev_involutive (l ++ [x])). apply NoDup_rev.
  rewrite rev_app_distr. simpl. constructor; [| exact Hl].
  now rewrite <- in_rev.
Qed.

(** Adding paths leaves the buffers and rates alone and only extends the
    list of paths, with paths that were not in it. *)
Lemma aligned_add_path (self : AudioProcessingApp) (file : string)
  (listbox : list string) :
  aligned E self -> path_in file (audio_paths self) = false ->
  aligned E (with_paths self (audio_paths self ++ [file]) listbox).
Proof.
  intros [Hnd [Hlen [done [rest [Hp Hall]]]]] Hin. unfold aligned.
  cbn [audio_paths processed_audios sampling_rates with_paths].
  split; [apply NoDup_snoc; [exact Hnd | now apply path_in_false]|].
  split; [exact Hlen|].
  exists done, (rest ++ [file]). split; [| exact Hall].
  now rewrite Hp, <- app_assoc.
Qed.

Lemma drop_loop_aligned (files : list string) (self : AudioProcessingApp) :
  aligned E self -> aligned E (drop_loop E files self).
Proof.
  revert self; induction files as [|file rest IH]; intros self H; [exact H|].
  cbn [drop_loop].
  destruct (path_in file (audio_paths self)) eqn:Hin; cbn [negb andb].
  - now apply IH.
  - destruct (os_path_isfile E file); apply IH; [| exact H].
    now apply aligned_add_path.
Qed.

Lemma open_loop_aligned (files : list string) (self : AudioProcessingApp) :
  aligned E self -> aligned E (open_loop files self).
Proof.
  revert self; induction files as [|file rest IH]; intros self H; [exact H|].
  cbn [open_loop].
  destruct (path_in file (audio_paths self)) eqn:Hin; cbn [negb].
  - now apply IH.
  - apply IH. now apply aligned_add_path.
Qed.

(** The loop appends the results of a first part of its paths. *)
Lemma process_loop_prefix (paths : list string) :
  forall self w,
  exists done rest rs,
    paths = done ++ rest /\
    Forall2 (fun p r => process_one E p = Ok r) done rs /\
    fst (fst (process_loop E paths self w))
    = with_results self (processed_audios self ++ map fst rs)
                        (sampling_rates self ++ map snd rs).
Proof.
  induction paths as [|p paths IH]; intros self w.
  - exists [], [], []. repeat split; [constructor|].
    simpl. now rewrite !app_nil_r, with_results_same.
  - cbn [process_loop]. destruct (process_one E p) as [[buffer sr] | e] eqn:Hp.
    + destruct (IH (with_results self (processed_audios self ++ [buffer])
                                 (sampling_rates self ++ [sr]))
                   (w ++ [LibrosaLoad p]))
        as [done [rest [rs [Hs [Hall Heq]]]]].
      exists (p :: done), rest, ((buffer, sr) :: rs). repeat split.
      * now rewrite Hs.
      * now constructor.
      * rewrite Heq.
        cbn [map fst snd processed_audios sampling_rates with_results].
        now rewrite <- !app_assoc.
    + exists [], (p :: paths), []. repeat split; [constructor|].
      simpl. now rewrite !app_nil_r, with_results_same.
Qed.

Lemma process_audios_aligned (self : AudioProcessingApp) (w : world) :
  aligned E self -> aligned E (fst (process_audios E self w)).
Proof.
  intros H. unfold process_audios.
  destruct (audio_paths self) as [|p0 t] eqn:Hp; [exact H|].
  cbn [audio_paths with_results start_loading_animation with_loading].
  rewrite Hp.
  destruct (process_loop_prefix (p0 :: t)
              (with_results (start_loading_animation self) [] []) w)
    as [done [rest [rs [Hs [Hall Heq]]]]].
  unfold start_loading_animation in Heq.
  destruct (process_loop E (p0 :: t) _ w) as [[self' w'] r].
  cbn [fst] in Heq. subst self'.
  assert (Hal : aligned E
                  (with_results (with_loading self true)
                     (map fst rs) (map snd rs))).
  { destruct H as [Hnd _]. unfold aligned.
    cbn [audio_paths processed_audios sampling_rates with_results with_loading].
    split; [exact Hnd|]. split; [now rewrite !length_map|].
    exists done, rest. rewrite Hp. split; [exact Hs|].
    now rewrite combine_fst_snd. }
  cbn [processed_audios sampling_rates with_results with_loading app].
  destruct r as [[] | e]; exact Hal.
Qed.

Lemma save_audios_same_lists (self : AudioProcessingApp) (w : world) :
  audio_paths (fst (save_audios E self w)) = audio_paths self /\
  processed_audios (fst (save_audios E self w)) = processed_audios self /\
  sampling_rates (fst (save_audios E self w)) = sampling_rates self.
Proof.
  unfold save_audios.
  destruct (processed_audios self) eqn:Ha; [auto|].
  destruct (sampling_rates self) eqn:Hr; [auto|].
  destruct (directory_chosen (save_directory self)); [| auto].
  destruct (save_loop E _ self _ [] w) as [[saved w'] [[] | e]]; cbn; auto.
Qed.

Lemma aligned_same_lists (self self' : AudioProcessingApp) :
  audio_paths self' = audio_paths self ->
  processed_audios self' = processed_audios self ->
  sampling_rates self' = sampling_rates self ->
  aligned E self -> aligned E self'.
Proof.
  unfold aligned. intros -> -> ->. auto.
Qed.

Lemma step_aligned (st : AudioProcessingApp * world) (ev : ui_event) :
  aligned E (fst st) -> aligned E (fst (step E st ev)).
Proof.
  destruct st as [self w]. cbn [fst]. intros H.
  destruct ev as [data | files | | answer |]; cbn [step fst].
  - now apply drop_loop_aligned.
  - now apply open_loop_aligned.
  - now apply process_audios_aligned.
  - apply (aligned_same_lists self); [| | | exact H];
      unfold choose_save_directory; destruct (answer =? ""); reflexivity.
  - destruct (save_button self); [| exact H].
    destruct (save_audios_same_lists self w) as [H1 [H2 H3]].
    now apply (aligned_same_lists self).
Qed.

Lemma init_aligned : aligned E init.
Proof.
  unfold aligned. cbn. split; [constructor|]. split; [reflexivity|].
  exists [], []. split; [reflexivity | constructor].
Qed.

Lemma run_aligned (events : list ui_event) : aligned E (fst (run E events)).
Proof.
  unfold run.
  assert (H : aligned E (fst (init, @nil io_event))) by apply init_aligned.
  revert H. generalize (init, @nil io_event) as st.
  induction events as [|ev events IH]; intros st H; [exact H|].
  cbn [fold_left]. apply IH. now apply step_aligned.
Qed.

Lemma Forall2_nth_error_r {A B : Type} (P : A -> B -> Prop) (l : list A)
  (l' : list B) (i : nat) (b : B) :
  Forall2 P l l' -> nth_error l' i = Some b ->
  exists a, nth_error l i = Some a /\ P a b.
Proof.
  intros H; revert i; induction H as [|x y l l' Hxy _ IH]; intros i Hi.
  - destruct i; discriminate.
  - destruct i as [|i]; simpl in *.
    + injection Hi as <-. eauto.
    + now apply IH.
Qed.

Lemma nth_error_combine {A B : Type} (l : list A) (l' : list B) (i : nat)
  (a : A) (b : B) :
  nth_error l i = Some a -> nth_error l' i = Some b ->
  nth_error (combine l l') i = Some (a, b).
Proof.
  revert l' i; induction l as [|x l IH]; intros l' i Ha Hb.
  - destruct i; discriminate.
  - destruct l' as [|y l']; [destruct i; discriminate|].
    destruct i as [|i]; simpl in *.
    + now injection Ha as <-; injection Hb as <-.
    + now apply IH.
Qed.

(** After any sequence of user actions (adding paths, processing, choosing
    a directory, exporting): the paths are distinct, there are as many
    rates as buffers and no more of them than paths, and wherever there is
    a buffer at index [i] there is a rate at [i], and both are the result
    of processing the path at [i].  A session without paths has no
    buffers. *)
Theorem session_keeps_prefix_alignment (events : list ui_event) :
  NoDup (audio_paths (fst (run E events))) /\
  length (sampling_rates (fst (run E events)))
  = length (processed_audios (fst (run E events))) /\
  (length (processed_audios (fst (run E events)))
   <= length (audio_paths (fst (run E events))))%nat /\
  (forall i buffer,
     nth_error (processed_audios (fst (run E events))) i = Some buffer ->
     exists p sr,
       nth_error (audio_paths (fst (run E events))) i = Some p /\
       nth_error (sampling_rates (fst (run E events))) i = Some sr /\
       process_one E p = Ok (buffer, sr)) /\
  (audio_paths (fst (run E events)) = [] ->
   processed_audios (fst (run E events)) = []).
Proof.
  destruct (run_aligned events) as [Hnd [Hlen [done [rest [Hp Hall]]]]].
  set (self := fst (run E events)) in *.
  assert (Hle : (length (processed_audios self) <= length (audio_paths self))%nat).
  { apply Forall2_length in Hall. rewrite length_combine, Hlen, Nat.min_id in Hall.
    rewrite Hp, length_app. lia. }
  repeat apply conj; auto.
  - intros i buffer Hi.
    assert (Hlt : (i < length (sampling_rates self))%nat).
    { rewrite Hlen. apply nth_error_Some. congruence. }
    destruct (nth_error (sampling_rates self) i) as [sr|] eqn:Hsr;
      [| apply nth_error_None in Hsr; lia].
    pose proof (nth_error_combine _ _ _ _ _ Hi Hsr) as Hc.
    destruct (Forall2_nth_error_r _ _ _ _ _ Hall Hc) as [p [Hd Hok]].
    exists p, sr. repeat split; auto.
    rewrite Hp. rewrite nth_error_app1; [exact Hd|].
    apply nth_error_Some. congruence.
  - intros Hempty. rewrite Hempty in Hle. simpl in Hle.
    destruct (processed_audios self); [reflexivity | simpl in Hle; lia].
Qed.

End SessionInvariant.

Section EvenLength.

Import Numpy Dsp.

(** A buffer with an even, non-zero number of samples keeps its length
    through the attenuation. *)
Theorem attenuation_even_length (signal : list R) (sr : Z) :
  signal <> [] -> Nat.even (length signal) = true -> sr <> 0%Z ->
  exists out,
    apply_frequency_dependent_attenuation signal sr = Ok out /\
    length out = length signal.
Proof.
  intros Hne Hev Hsr. apply Nat.even_spec in Hev. destruct Hev as [k Hk].
  assert (Hlen : (2 <= length signal)%nat).
  { destruct signal; [congruence | simpl in *; lia]. }
  destruct (attenuation_length signal sr Hlen Hsr) as [out [Ho Hl]].
  exists out. split; [exact Ho|].
  rewrite Hl, Hk, (Nat.mul_comm 2 k), Nat.div_mul by lia. lia.
Qed.

Lemma attenuation_even_length_witness :
  exists out,
    apply_frequency_dependent_attenuation [1; 0; -1; 0]%R 44100 = Ok out /\
    length out = 4%nat.
Proof.
  apply (attenuation_even_length [1; 0; -1; 0]%R 44100).
  - discriminate.
  - reflexivity.
  - lia.
Defined.

End EvenLength.

(** ** More on sessions *)

Section SessionFacts.

Import Numpy OsPath App.
Local Open Scope string_scope.
Local Open Scope list_scope.

Variable E : env.

(** Either every path processes, or there is a first one that raises. *)
Lemma batch_outcome (paths : list string) :
  (exists rs, Forall2 (fun p r => process_one E p = Ok r) paths rs) \/
  (exists pre q post rs e,
     paths = pre ++ q :: post /\
     Forall2 (fun p r => process_one E p = Ok r) pre rs /\
     process_one E q = Raise e).
Proof.
  induction paths as [|p paths IH].
  - left. exists []. constructor.
  - destruct (process_one E p) as [r | e] eqn:Hp.
    + destruct IH as [[rs Hall] | [pre [q [post [rs [e [Hs [Hall Hq]]]]]]]].
      * left. exists (r :: rs). now constructor.
      * right. exists (p :: pre), q, post, (r :: rs), e.
        repeat split; [now rewrite Hs | now constructor | exact Hq].
    + right. exists [], p, paths, [], e. repeat split; [constructor | exact Hp].
Qed.

(** The three ways a run of [process_audios] can end. *)
Lemma process_audios_cases (self : AudioProcessingApp) (w : world) :
  (audio_paths self = [] /\
   process_audios E self w
   = (self, w ++ [ShowError "Error" "No audio files loaded."])) \/
  (exists rs,
     audio_paths self <> [] /\
     Forall2 (fun p r => process_one E p = Ok r) (audio_paths self) rs /\
     process_audios E self w
     = (stop_loading_animation
          (with_status
             (with_save_button
                (with_results (start_loading_animation self)
                              (map fst rs) (map snd rs))
                NORMAL)
             "Audio files processed successfully." "green"),
        w ++ map LibrosaLoad (audio_paths self))) \/
  (exists pre q post rs e,
     audio_paths self = pre ++ q :: post /\
     Forall2 (fun p r => process_one E p = Ok r) pre rs /\
     process_one E q = Raise e /\
     process_audios E self w
     = (stop_loading_animation
          (with_results (start_loading_animation self)
                        (map fst rs) (map snd rs)),
        (w ++ map LibrosaLoad (pre ++ [q])) ++
        [ShowError "Processing Error"
           ("An error occurred: " ++ str_of_exn e)%string])).
Proof.
  destruct (audio_paths self) as [|p0 t] eqn:Hp.
  - left. split; [reflexivity|]. unfold process_audios. now rewrite Hp.
  - right. rewrite <- Hp.
    destruct (batch_outcome (audio_paths self))
      as [[rs Hall] | [pre [q [post [rs [e [Hs [Hall Hq]]]]]]]].
    + left. exists rs. split; [congruence|]. split; [exact Hall|].
      apply process_audios_ok; [congruence | exact Hall].
    + right. exists pre, q, post, rs, e. repeat split; auto.
      now apply process_audios_raise with (post := post).
Qed.

(** What a run of [process_audios] leaves alone. *)
Lemma process_audios_frame (self : AudioProcessingApp) (w : world) :
  audio_paths (fst (process_audios E self w)) = audio_paths self /\
  file_listbox (fst (process_audios E self w)) = file_listbox self /\
  save_directory (fst (process_audios E self w)) = save_directory self /\
  (save_button (fst (process_audios E self w)) = NORMAL \/
   save_button (fst (process_audios E self w)) = save_button self).
Proof.
  destruct (process_audios_cases self w)
    as [[_ H] | [[rs [_ [_ H]]] | [pre [q [post [rs [e [_ [_ [_ H]]]]]]]]]];
    rewrite H; cbn; auto.
Qed.

(** What an export leaves alone: everything but the status text. *)
Lemma save_audios_frame (self : AudioProcessingApp) (w : world) :
  fst (save_audios E self w) = self \/
  exists text, fst (save_audios E self w) = with_status self text "blue".
Proof.
  unfold save_audios.
  destruct (processed_audios self); [now left|].
  destruct (sampling_rates self); [now left|].
  destruct (directory_chosen (save_directory self)); [| now left].
  destruct (save_loop E _ self _ [] w) as [[saved w'] [[] | e]]; cbn [fst].
  - right. eauto.
  - now left.
Qed.

Lemma drop_loop_frame (files : list string) (self : AudioProcessingApp) :
  exists extra,
    audio_paths (drop_loop E files self) = audio_paths self ++ extra /\
    file_listbox (drop_loop E files self)
    = file_listbox self ++ map basename extra /\
    processed_audios (drop_loop E files self) = processed_audios self /\
    sampling_rates (drop_loop E files self) = sampling_rates self /\
    save_directory (drop_loop E files self) = save_directory self /\
    save_button (drop_loop E files self) = save_button self /\
    Forall (fun f => os_path_isfile E f = true /\ In f files) extra.
Proof.
  revert self; induction files as [|file rest IH]; intros self.
  - exists []. cbn. rewrite !app_nil_r. repeat split; constructor.
  - cbn [drop_loop].
    destruct (negb (path_in file (audio_paths self)) && os_path_isfile E file)
      eqn:Hc.
    + destruct (IH (with_paths self (audio_paths self ++ [file])
                               (file_listbox self ++ [basename file])))
        as [extra [H1 [H2 [H3 [H4 [H5 [H6 H7]]]]]]].
      cbn [audio_paths file_listbox processed_audios sampling_rates
           save_directory save_button with_paths] in *.
      exists (file :: extra). rewrite H1, H2, <- !app_assoc.
      repeat split; auto.
      constructor.
      * apply andb_prop in Hc. split; [tauto | now left].
      * eapply Forall_impl; [| exact H7]. cbn. intros f [Hf Hin]. auto.
    + destruct (IH self) as [extra [H1 [H2 [H3 [H4 [H5 [H6 H7]]]]]]].
      exists extra. repeat split; auto.
      eapply Forall_impl; [| exact H7]. cbn. intros f [Hf Hin]. auto.
Qed.

Lemma open_loop_frame (files : list string) (self : AudioProcessingApp) :
  exists extra,
    audio_paths (open_loop files self) = audio_paths self ++ extra /\
    file_listbox (open_loop files self)
    = file_listbox self ++ map basename extra /\
    processed_audios (open_loop files self) = processed_audios self /\
    sampling_rates (open_loop files self) = sampling_rates self /\
    save_directory (open_loop files self) = save_directory self /\
    save_button (open_loop files self) = save_button self.
Proof.
  revert self; induction files as [|file rest IH]; intros self.
  - exists []. cbn. rewrite !app_nil_r. repeat split.
  - cbn [open_loop].
    destruct (negb (path_in file (audio_paths self))).
    + destruct (IH (with_paths self (audio_paths self ++ [file])
                               (file_listbox self ++ [basename file])))
        as [extra [H1 [H2 [H3 [H4 [H5 H6]]]]]].
      cbn [audio_paths file_listbox processed_audios sampling_rates
           save_directory save_button with_paths] in *.
      exists (file :: extra). rewrite H1, H2, <- !app_assoc.
      repeat split; auto.
    + apply IH.
Qed.

Lemma choose_save_directory_frame (self : AudioProcessingApp) (answer : string) :
  audio_paths (choose_save_directory self answer) = audio_paths self /\
  file_listbox (choose_save_directory self answer) = file_listbox self /\
  processed_audios (choose_save_directory self answer) = processed_audios self /\
  sampling_rates (choose_save_directory self answer) = sampling_rates self /\
  save_button (choose_save_directory self answer) = save_button self /\
  save_directory (choose_save_directory self answer) = Some answer.
Proof.
  unfold choose_save_directory. destruct (answer =? ""); cbn; auto 10.
Qed.

(** One user action extends the paths and the listbox together, and never
    disables the save button. *)
Lemma step_frame (st : AudioProcessingApp * world) (ev : ui_event) :
  exists extra,
    audio_paths (fst (step E st ev)) = audio_paths (fst st) ++ extra /\
    file_listbox (fst (step E st ev))
    = file_listbox (fst st) ++ map basename extra /\
    (save_button (fst st) = NORMAL -> save_button (fst (step E st ev)) = NORMAL).
Proof.
  destruct st as [self w]. cbn [fst].
  destruct ev as [data | files | | answer |]; cbn [step fst].
  - unfold handle_file_drop.
    destruct (drop_loop_frame (parse_file_paths data) self)
      as [extra [H1 [H2 [_ [_ [_ [H6 _]]]]]]].
    exists extra. rewrite H6. auto.
  - unfold open_files.
    destruct (open_loop_frame files self) as [extra [H1 [H2 [_ [_ [_ H6]]]]]].
    exists extra. rewrite H6. auto.
  - destruct (process_audios_frame self w) as [H1 [H2 [_ H4]]].
    exists []. cbn [map]. rewrite !app_nil_r, H1, H2. repeat split.
    intros Hn. destruct H4 as [H4 | H4]; congruence.
  - destruct (choose_save_directory_frame self answer) as [H1 [H2 [_ [_ [H5 _]]]]].
    exists []. cbn [map]. rewrite !app_nil_r, H1, H2, H5. auto.
  - exists []. cbn [map]. rewrite !app_nil_r.
    destruct (save_button self) eqn:Hb;
      [| cbn [fst]; repeat split; intros; congruence].
    destruct (save_audios_frame self w) as [H | [text H]]; rewrite H; cbn; auto.
Qed.

Lemma steps_frame (events : list ui_event) (st : AudioProcessingApp * world) :
  exists extra,
    audio_paths (fst (fold_left (step E) events st))
    = audio_paths (fst st) ++ extra /\
    file_listbox (fst (fold_left (step E) events st))
    = file_listbox (fst st) ++ map basename extra /\
    (save_button (fst st) = NORMAL ->
     save_button (fst (fold_left (step E) events st)) = NORMAL).
Proof.
  revert st; induction events as [|ev events IH]; intros st.
  - exists []. cbn. rewrite !app_nil_r. auto.
  - cbn [fold_left].
    destruct (step_frame st ev) as [x1 [H1 [H2 H3]]].
    destruct (IH (step E st ev)) as [x2 [G1 [G2 G3]]].
    exists (x1 ++ x2). rewrite G1, G2, H1, H2, map_app, <- !app_assoc. auto.
Qed.

End SessionFacts.

Section ResultReset.

Import Numpy OsPath App.
Local Open Scope string_scope.
Local Open Scope list_scope.

Variable E : env.

(** A session without paths holds no results. *)
Lemma no_paths_no_results (events : list ui_event) :
  audio_paths (fst (run E events)) = [] ->
  processed_audios (fst (run E events)) = [] /\
  sampling_rates (fst (run E events)) = [].
Proof.
  intros Hp.
  destruct (run_aligned E events) as (_ & Hlen & done & rest & Hsplit & Hall).
  rewrite Hp in Hsplit. symmetry in Hsplit.
  apply app_eq_nil in Hsplit. destruct Hsplit as [Hd _]. subst done.
  inversion Hall as [Hc|]. 
  destruct (processed_audios (fst (run E events))) as [|b bs];
    destruct (sampling_rates (fst (run E events))) as [|r rs];
    try discriminate; auto.
Qed.

(** C7: when every path of the session processes, the run leaves exactly
    one buffer and one rate per path, in the order of the paths, each the
    result of processing that path.  Every run on a session that has
    paths, the failing ones included, starts from an empty result set:
    whatever an earlier run had accumulated has no part in the outcome,
    and after a failure the results are those of the files before the one
    that raised.  A run on a session without paths returns before the
    reset and changes nothing; a session reached from the initial window
    holds no results at that point, so every run of every session ends as
    it would have from an empty result set. *)
Theorem process_success_rebuilds_results (self : AudioProcessingApp)
  (w : world) :
  (forall rs,
     audio_paths self <> [] ->
     Forall2 (fun p r => process_one E p = Ok r) (audio_paths self) rs ->
     combine (processed_audios (fst (process_audios E self w)))
             (sampling_rates (fst (process_audios E self w))) = rs /\
     length (processed_audios (fst (process_audios E self w)))
     = length (audio_paths self) /\
     length (sampling_rates (fst (process_audios E self w)))
     = length (audio_paths self) /\
     audio_paths (fst (process_audios E self w)) = audio_paths self /\
     save_button (fst (process_audios E self w)) = NORMAL /\
     (forall i p,
        nth_error (audio_paths self) i = Some p ->
        exists buffer sr,
          nth_error (processed_audios (fst (process_audios E self w))) i
          = Some buffer /\
          nth_error (sampling_rates (fst (process_audios E self w))) i
          = Some sr /\
          process_one E p = Ok (buffer, sr)) /\
     (forall old_audios old_rates,
        process_audios E (with_results self old_audios old_rates) w
        = process_audios E self w)) /\
  (audio_paths self <> [] ->
   forall old_audios old_rates,
     process_audios E (with_results self old_audios old_rates) w
     = process_audios E self w) /\
  (forall pre p post rs e old_audios old_rates,
     audio_paths self = pre ++ p :: post ->
     Forall2 (fun p r => process_one E p = Ok r) pre rs ->
     process_one E p = Raise e ->
     processed_audios
       (fst (process_audios E (with_results self old_audios old_rates) w))
     = map fst rs /\
     sampling_rates
       (fst (process_audios E (with_results self old_audios old_rates) w))
     = map snd rs) /\
  (audio_paths self = [] ->
   process_audios E self w
   = (self, w ++ [ShowError "Error" "No audio files loaded."])) /\
  (forall events,
     self = fst (run E events) ->
     (audio_paths self = [] ->
      processed_audios self = [] /\ sampling_rates self = []) /\
     process_audios E self w
     = process_audios E (with_results self [] []) w).
Proof.
  repeat apply conj.
  - intros rs Hne Hall. rewrite (process_audios_ok E self w rs Hne Hall).
    cbn [fst processed_audios sampling_rates audio_paths save_button
         stop_loading_animation start_loading_animation with_loading
         with_status with_save_button with_results].
    pose proof (Forall2_length Hall) as Hlen.
    repeat apply conj.
    + apply combine_fst_snd.
    + now rewrite length_map.
    + now rewrite length_map.
    + reflexivity.
    + reflexivity.
    + intros i p Hi.
      destruct (Forall2_nth_error_l _ _ _ _ _ Hall Hi) as [[buffer sr] [Hr Hp]].
      exists buffer, sr. rewrite !nth_error_map, Hr. auto.
    + intros old_audios old_rates.
      rewrite (process_audios_resets E self w old_audios old_rates Hne).
      apply (process_audios_ok E self w rs Hne Hall).
  - intros Hne old_audios old_rates. now apply process_audios_resets.
  - intros pre p post rs e old_audios old_rates Hp Hpre He.
    assert (Hne : audio_paths self <> []).
    { rewrite Hp. destruct pre; discriminate. }
    rewrite (process_audios_resets E self w old_audios old_rates Hne).
    rewrite (process_audios_raise E self w pre post p rs e Hp Hpre He).
    split; reflexivity.
  - intros Hp. unfold process_audios. now rewrite Hp.
  - intros events Hself. subst self. split.
    + apply no_paths_no_results.
    + destruct (audio_paths (fst (run E events))) as [|p0 t] eqn:Hp.
      * destruct (no_paths_no_results events Hp) as [Ha Hr].
        rewrite <- Ha at 1. rewrite <- Hr at 1.
        now rewrite with_results_same.
      * symmetry. apply process_audios_resets. congruence.
Qed.

End ResultReset.


Section SessionProperties.

Import Numpy OsPath App.
Local Open Scope string_scope.
Local Open Scope list_scope.

Variable E : env.

Lemma run_app (events more : list ui_event) :
  run E (events ++ more) = fold_left (step E) more (run E events).
Proof. unfold run. apply fold_left_app. Qed.

(** The listbox shows the basenames of the paths of the session, in order,
    after any sequence of user actions. *)
Theorem listbox_mirrors_paths (events : list ui_event) :
  file_listbox (fst (run E events))
  = map basename (audio_paths (fst (run E events))).
Proof.
  unfold run. destruct (steps_frame E events (init, [])) as [extra [H1 [H2 _]]].
  rewrite H1, H2. reflexivity.
Qed.

(** No user action removes or reorders a path: the paths after further
    actions are the earlier paths followed by the added ones. *)
Theorem paths_only_grow (events more : list ui_event) :
  exists added,
    audio_paths (fst (run E (events ++ more)))
    = audio_paths (fst (run E events)) ++ added.
Proof.
  rewrite run_app.
  destruct (steps_frame E more (run E events)) as [extra [H1 _]].
  now exists extra.
Qed.

(** A path whose processing raises stays in the session whatever the user
    does next, and from then on every run of [process_audios] ends with the
    processing error dialog and leaves the save button as it finds it. *)
Theorem failing_path_fails_every_later_run (events more : list ui_event)
  (p : string) (e : exn) :
  In p (audio_paths (fst (run E events))) ->
  process_one E p = Raise e ->
  In p (audio_paths (fst (run E (events ++ more)))) /\
  exists w' e',
    snd (process_audios E (fst (run E (events ++ more)))
                          (snd (run E (events ++ more))))
    = w' ++ [ShowError "Processing Error"
               ("An error occurred: " ++ str_of_exn e')%string] /\
    save_button (fst (process_audios E (fst (run E (events ++ more)))
                                       (snd (run E (events ++ more)))))
    = save_button (fst (run E (events ++ more))).
Proof.
  intros Hin Hp.
  assert (Hin' : In p (audio_paths (fst (run E (events ++ more))))).
  { rewrite run_app.
    destruct (steps_frame E more (run E events)) as [added [Hadd _]].
    rewrite Hadd. apply in_or_app. now left. }
  split; [exact Hin'|].
  destruct (process_audios_cases E (fst (run E (events ++ more)))
              (snd (run E (events ++ more))))
    as [[Hnil _] | [[rs [_ [Hall _]]] | [pre [q [post [rs [e' [_ [_ [_ H]]]]]]]]]].
  - rewrite Hnil in Hin'. contradiction.
  - apply In_nth_error in Hin'. destruct Hin' as [i Hi].
    destruct (Forall2_nth_error_l _ _ _ _ _ Hall Hi) as [r [_ Hr]]. congruence.
  - rewrite H. cbn [fst snd]. eauto.
Qed.

(** Once enabled, the save button is never disabled again. *)
Theorem save_button_stays_enabled (events more : list ui_event) :
  save_button (fst (run E events)) = NORMAL ->
  save_button (fst (run E (events ++ more))) = NORMAL.
Proof.
  intros H. rewrite run_app.
  destruct (steps_frame E more (run E events)) as [_ [_ [_ H3]]]. auto.
Qed.

Lemma process_audios_adds_no_write (self : AudioProcessingApp) (w : world) :
  existsb is_write w = false ->
  existsb is_write (snd (process_audios E self w)) = false.
Proof.
  intros Hw.
  assert (Hl : forall l, existsb is_write (map LibrosaLoad l) = false).
  { induction l; simpl; auto. }
  destruct (process_audios_cases E self w)
    as [[_ H] | [[rs [_ [_ H]]] | [pre [q [post [rs [e [_ [_ [_ H]]]]]]]]]];
    rewrite H; cbn [snd]; rewrite !existsb_app, Hw, ?Hl; reflexivity.
Qed.

Lemma step_no_write (st : AudioProcessingApp * world) (ev : ui_event) :
  (save_button (fst st) = DISABLED -> existsb is_write (snd st) = false) ->
  save_button (fst (step E st ev)) = DISABLED ->
  existsb is_write (snd (step E st ev)) = false.
Proof.
  destruct (step_frame E st ev) as [_ [_ [_ Hmono]]].
  intros Hinv Hd.
  assert (Hb : save_button (fst st) = DISABLED).
  { destruct (save_button (fst st)); [| reflexivity].
    rewrite Hmono in Hd by reflexivity. discriminate. }
  specialize (Hinv Hb). destruct st as [self w]. cbn [fst snd] in *.
  destruct ev as [data | files | | answer |]; cbn [step snd]; auto.
  - now apply process_audios_adds_no_write.
  - now rewrite Hb.
Qed.

(** As long as no run of [process_audios] has succeeded the save button is
    disabled, and nothing has been written: while the button is disabled
    the trace of the session holds no written file. *)
Theorem nothing_written_while_disabled (events : list ui_event) :
  save_button (fst (run E events)) = DISABLED ->
  existsb is_write (snd (run E events)) = false.
Proof.
  unfold run.
  assert (H0 : save_button (fst (init, @nil io_event)) = DISABLED ->
               existsb is_write (snd (init, @nil io_event)) = false)
    by reflexivity.
  revert H0. generalize (init, @nil io_event) as st.
  induction events as [|ev events IH]; intros st H0; [exact H0|].
  cbn [fold_left]. apply IH. now apply step_no_write.
Qed.

(** Processing twice in a row leaves the session as processing once does,
    and the second run makes the same decoder calls and shows the same
    dialog as the first. *)
Theorem process_audios_idempotent (self : AudioProcessingApp) (w w' : world) :
  fst (process_audios E (fst (process_audios E self w)) w')
  = fst (process_audios E self w) /\
  exists shown,
    snd (process_audios E self w) = w ++ shown /\
    snd (process_audios E (fst (process_audios E self w)) w') = w' ++ shown.
Proof.
  destruct (process_audios_cases E self w)
    as [[Hnil H] | [[rs [Hne [Hall H]]] | [pre [q [post [rs [e [Hp [Hall [Hq H]]]]]]]]]];
    rewrite H; cbn [fst snd].
  - unfold process_audios. rewrite Hnil. cbn [fst snd]. split; [reflexivity|].
    eexists. split; reflexivity.
  - rewrite (process_audios_ok E _ w' rs); [| exact Hne | exact Hall].
    split; [reflexivity|]. eexists. split; reflexivity.
  - rewrite (process_audios_raise E _ w' pre post q rs e); auto.
    split; [reflexivity|]. eexists. rewrite <- !app_assoc. split; reflexivity.
Qed.

End SessionProperties.

(** ** Adding paths *)

Section AddingPaths.

Import Numpy OsPath App.
Local Open Scope string_scope.
Local Open Scope list_scope.

Variable E : env.

Lemma path_in_iff (file : string) (paths : list string) :
  path_in file paths = true <-> In file paths.
Proof.
  unfold path_in. rewrite existsb_exists. split.
  - intros [x [Hin Heq]]. apply String.eqb_eq in Heq. now subst.
  - intros Hin. exists file. split; [exact Hin | apply String.eqb_refl].
Qed.

Lemma drop_loop_membership (files : list string) (self : AudioProcessingApp)
  (f : string) :
  In f (audio_paths (drop_loop E files self)) <->
  In f (audio_paths self) \/ (In f files /\ os_path_isfile E f = true).
Proof.
  revert self; induction files as [|file rest IH]; intros self.
  - cbn. tauto.
  - cbn [drop_loop].
    destruct (path_in file (audio_paths self)) eqn:Hin; cbn [negb andb].
    + rewrite IH. apply path_in_iff in Hin. cbn [In].
      split; [tauto|]. intros [H | [[<- | H] Hf]]; auto.
    + destruct (os_path_isfile E file) eqn:Hfile.
      * rewrite IH. cbn [audio_paths with_paths In]. rewrite in_app_iff.
        cbn [In]. split.
        -- intros [[H | [<- | []]] | [H Hf]]; auto.
        -- intros [H | [[<- | H] Hf]]; auto.
      * rewrite IH. cbn [In]. split; [tauto|].
        intros [H | [[<- | H] Hf]]; auto. congruence.
Qed.

Lemma open_loop_membership (files : list string) (self : AudioProcessingApp)
  (f : string) :
  In f (audio_paths (open_loop files self)) <->
  In f (audio_paths self) \/ In f files.
Proof.
  revert self; induction files as [|file rest IH]; intros self.
  - cbn. tauto.
  - cbn [open_loop].
    destruct (path_in file (audio_paths self)) eqn:Hin; cbn [negb].
    + rewrite IH. apply path_in_iff in Hin. cbn [In].
      split; [tauto|]. intros [H | [<- | H]]; auto.
    + rewrite IH. cbn [audio_paths with_paths In]. rewrite in_app_iff.
      cbn [In]. tauto.
Qed.

Lemma drop_loop_absorbed (files : list string) (self : AudioProcessingApp) :
  (forall f, In f files -> os_path_isfile E f = true ->
             In f (audio_paths self)) ->
  drop_loop E files self = self.
Proof.
  induction files as [|file rest IH]; intros H; [reflexivity|].
  cbn [drop_loop].
  destruct (path_in file (audio_paths self)) eqn:Hin; cbn [negb andb].
  - apply IH. intros f Hf. apply H. now right.
  - destruct (os_path_isfile E file) eqn:Hfile.
    + assert (Hc : In file (audio_paths self)) by (apply H; [now left | exact Hfile]).
      apply path_in_iff in Hc. congruence.
    + apply IH. intros f Hf. apply H. now right.
Qed.

Lemma open_loop_absorbed (files : list string) (self : AudioProcessingApp) :
  (forall f, In f files -> In f (audio_paths self)) ->
  open_loop files self = self.
Proof.
  induction files as [|file rest IH]; intros H; [reflexivity|].
  cbn [open_loop].
  destruct (path_in file (audio_paths self)) eqn:Hin; cbn [negb].
  - apply IH. intros f Hf. apply H. now right.
  - assert (Hc : In file (audio_paths self)) by (apply H; now left).
    apply path_in_iff in Hc. congruence.
Qed.

Lemma no_space_append (a b : string) :
  no_space (a ++ b) = no_space a && no_space b.
Proof.
  induction a as [|c t IH]; cbn; [reflexivity|].
  now rewrite IH, andb_assoc.
Qed.

(** The pieces [split] returns are not empty and hold no white space. *)
Lemma split_from_tokens (s word : string) :
  no_space word = true ->
  Forall (fun t => t <> "" /\ no_space t = true) (split_from s word).
Proof.
  revert word; induction s as [|c t IH]; intros word Hw; cbn [split_from].
  - destruct (String.eqb_spec word ""); constructor; auto.
  - destruct (is_space c) eqn:Hc.
    + destruct (String.eqb_spec word "").
      * now apply IH.
      * constructor; [auto | now apply IH].
    + apply IH. rewrite no_space_append, Hw. cbn. now rewrite Hc.
Qed.

(** The paths of the session after a drop are those it had and the pieces
    of the dropped text that name an existing file; each such piece is not
    empty and holds no white space, so a path with a space in it is never
    added by a drop. *)
Theorem drop_membership (self : AudioProcessingApp) (event_data f : string) :
  (In f (audio_paths (handle_file_drop E self event_data)) <->
   In f (audio_paths self) \/
   (In f (parse_file_paths event_data) /\ os_path_isfile E f = true)) /\
  (In f (parse_file_paths event_data) -> f <> "" /\ no_space f = true).
Proof.
  split.
  - apply drop_loop_membership.
  - intros Hin. unfold parse_file_paths, str_split in Hin.
    pose proof (split_from_tokens (str_strip event_data) "" eq_refl) as Hall.
    rewrite Forall_forall in Hall. now apply Hall.
Qed.

(** The paths of the session after an upload are those it had and the
    files the dialog returned, whether they exist or not. *)
Theorem upload_membership (self : AudioProcessingApp) (files : list string)
  (f : string) :
  In f (audio_paths (open_files self files)) <->
  In f (audio_paths self) \/ In f files.
Proof. apply open_loop_membership. Qed.

(** Dropping the same text, or uploading the same files, a second time
    changes nothing. *)
Theorem adding_twice_adds_once (self : AudioProcessingApp)
  (event_data : string) (files : list string) :
  handle_file_drop E (handle_file_drop E self event_data) event_data
  = handle_file_drop E self event_data /\
  open_files (open_files self files) files = open_files self files.
Proof.
  split.
  - unfold handle_file_drop. apply drop_loop_absorbed.
    intros f Hf Hfile. apply drop_loop_membership. auto.
  - unfold open_files. apply open_loop_absorbed.
    intros f Hf. apply open_loop_membership. auto.
Qed.

Lemma split_from_lstrip (s : string) :
  split_from (str_lstrip s) "" = split_from s "".
Proof.
  induction s as [|c t IH]; [reflexivity|].
  cbn [str_lstrip split_from]. destruct (is_space c) eqn:Hc.
  - exact IH.
  - cbn [split_from]. now rewrite Hc.
Qed.

Lemma split_from_rstrip (s word : string) :
  split_from (str_rstrip s) word = split_from s word.
Proof.
  revert word; induction s as [|c t IH]; intros word; [reflexivity|].
  cbn [str_rstrip]. destruct (is_space c) eqn:Hc; cbn [andb].
  - destruct (String.eqb_spec (str_rstrip t) "") as [Ht | Ht].
    + cbn [split_from]. rewrite Hc, <- (IH ""), Ht. cbn [split_from].
      destruct (word =? ""); reflexivity.
    + cbn [split_from]. rewrite Hc, !IH. reflexivity.
  - cbn [split_from]. rewrite Hc. apply IH.
Qed.

(** The [strip] of line 71 changes nothing: [split] already skips leading
    and trailing white space. *)
Lemma parse_file_paths_split (file_data : string) :
  parse_file_paths file_data = str_split file_data.
Proof.
  unfold parse_file_paths, str_split, str_strip.
  now rewrite split_from_rstrip, split_from_lstrip.
Qed.

Lemma string_app_assoc (a b c : string) : ((a ++ b) ++ c = a ++ (b ++ c))%string.
Proof. induction a as [|x t IH]; cbn; [reflexivity | now rewrite IH]. Qed.

Lemma split_from_word (t rest word : string) :
  no_space t = true ->
  split_from (t ++ rest) word = split_from rest (word ++ t).
Proof.
  revert word; induction t as [|c t IH]; intros word Ht.
  - cbn. now rewrite append_empty_r.
  - cbn in Ht. apply andb_prop in Ht. destruct Ht as [Hc Ht].
    apply negb_true_iff in Hc.
    cbn [append split_from]. rewrite Hc, IH by exact Ht.
    now rewrite string_app_assoc.
Qed.

Lemma str_split_join (files : list string) :
  Forall (fun f => f <> "" /\ no_space f = true) files ->
  str_split (str_join " " files) = files.
Proof.
  unfold str_split. induction 1 as [|f fs [Hne Hns] Hall IH]; [reflexivity|].
  destruct fs as [|g fs].
  - cbn [str_join]. rewrite <- (append_empty_r f) at 1.
    rewrite split_from_word by exact Hns. cbn.
    destruct (String.eqb_spec f ""); congruence.
  - change (str_join " " (f :: g :: fs))
      with (f ++ String " " (str_join " " (g :: fs)))%string.
    rewrite split_from_word by exact Hns. cbn [append split_from].
    change (is_space " ") with true. cbv iota.
    destruct (String.eqb_spec f ""); [congruence|]. now rewrite IH.
Qed.

(** Paths that are not empty and hold no white space, written one after
    the other with single spaces between them, are read back by
    [parse_file_paths] as they were. *)
Theorem parse_file_paths_of_joined (files : list string) :
  Forall (fun f => f <> "" /\ no_space f = true) files ->
  parse_file_paths (str_join " " files) = files.
Proof.
  intros H. rewrite parse_file_paths_split. now apply str_split_join.
Qed.

End AddingPaths.

(** ** More on the export *)

Section ExportProperties.

Import Numpy OsPath App.
Local Open Scope string_scope.
Local Open Scope list_scope.

Variable E : env.

(** Either every pass of the export loop succeeds, or there is a first
    path at which it raises. *)
Lemma export_outcome (directory : string) (self : AudioProcessingApp)
  (paths : list string) (start : nat) :
  (exists evs,
     Forall2 (fun ip ev =>
                export_attempt E directory self (fst ip) (snd ip) = Ok ev)
             (combine (seq start (length paths)) paths) evs) \/
  (exists pre p post evs e,
     paths = pre ++ p :: post /\
     Forall2 (fun ip ev =>
                export_attempt E directory self (fst ip) (snd ip) = Ok ev)
             (combine (seq start (length pre)) pre) evs /\
     export_attempt E directory self (start + length pre) p = Raise e).
Proof.
  revert start; induction paths as [|q paths IH]; intros start.
  - left. exists []. constructor.
  - destruct (export_attempt E directory self start q) as [ev | e] eqn:Hq.
    + destruct (IH (S start))
        as [[evs Hall] | [pre [p [post [evs [e [Hs [Hall Hp]]]]]]]].
      * left. exists (ev :: evs). cbn [length seq combine]. now constructor.
      * right. exists (q :: pre), p, post, (ev :: evs), e.
        cbn [length seq combine]. repeat split.
        -- now rewrite Hs.
        -- now constructor.
        -- now rewrite <- Nat.add_succ_comm.
    + right. exists [], q, paths, [], e. cbn. rewrite Nat.add_0_r.
      repeat split; [constructor | exact Hq].
Qed.

Lemma writes_are_writes (directory : string) (self : AudioProcessingApp)
  (items : list (nat * string)) (evs : list io_event) :
  Forall2 (fun ip ev =>
             export_attempt E directory self (fst ip) (snd ip) = Ok ev)
          items evs ->
  forallb is_write evs = true.
Proof.
  induction 1 as [|ip ev items evs Hev _ IH]; [reflexivity|].
  destruct (export_attempt_ok E _ _ _ _ _ Hev) as [data [sr [_ [_ [_ ->]]]]].
  cbn. exact IH.
Qed.

(** Every call of [save_audios] ends with exactly one dialog.  Before it,
    the call writes files for the first paths of the session and for no
    other: the file at position [j] holds buffer [j] at rate [j] under the
    output name of path [j] in the chosen directory.  The application
    object keeps its paths, buffers, rates, directory and button. *)
Theorem save_audios_writes_then_one_dialog (self : AudioProcessingApp)
  (w : world) :
  exists writes dialog,
    snd (save_audios E self w) = w ++ writes ++ [dialog] /\
    forallb is_write writes = true /\
    is_write dialog = false /\
    (length writes <= length (audio_paths self))%nat /\
    (forall j ev,
       nth_error writes j = Some ev ->
       exists directory q data sr,
         directory_chosen (save_directory self) = Some directory /\
         nth_error (audio_paths self) j = Some q /\
         nth_error (processed_audios self) j = Some data /\
         nth_error (sampling_rates self) j = Some sr /\
         ev = SfWrite (output_path directory q) data sr) /\
    audio_paths (fst (save_audios E self w)) = audio_paths self /\
    processed_audios (fst (save_audios E self w)) = processed_audios self /\
    sampling_rates (fst (save_audios E self w)) = sampling_rates self /\
    save_directory (fst (save_audios E self w)) = save_directory self /\
    save_button (fst (save_audios E self w)) = save_button self.
Proof.
  assert (Hframe :
    audio_paths (fst (save_audios E self w)) = audio_paths self /\
    processed_audios (fst (save_audios E self w)) = processed_audios self /\
    sampling_rates (fst (save_audios E self w)) = sampling_rates self /\
    save_directory (fst (save_audios E self w)) = save_directory self /\
    save_button (fst (save_audios E self w)) = save_button self).
  { destruct (save_audios_frame E self w) as [H | [text H]]; rewrite H;
      cbn; auto. }
  assert (Hrefuse : forall msg,
    exists writes dialog,
      w ++ [ShowError "Error" msg] = w ++ writes ++ [dialog] /\
      forallb is_write writes = true /\ is_write dialog = false /\
      (length writes <= length (audio_paths self))%nat /\
      (forall j ev,
         nth_error writes j = Some ev ->
         exists directory q data sr,
           directory_chosen (save_directory self) = Some directory /\
           nth_error (audio_paths self) j = Some q /\
           nth_error (processed_audios self) j = Some data /\
           nth_error (sampling_rates self) j = Some sr /\
           ev = SfWrite (output_path directory q) data sr)).
  { intros msg. exists [], (ShowError "Error" msg). cbn.
    repeat split; [lia|]. intros [|j] ev; discriminate. }
  destruct (processed_audios self) as [|a0 al] eqn:Ha.
  { destruct (Hrefuse "No processed audio to save.") as [ws [d H]].
    exists ws, d. unfold save_audios at 1. rewrite Ha. cbn [snd].
    destruct H as [H1 H2]. split; [exact H1|].
    destruct H2 as [H2 [H3 [H4 H5]]]. repeat split; tauto. }
  destruct (sampling_rates self) as [|r0 rl] eqn:Hr.
  { destruct (Hrefuse "No processed audio to save.") as [ws [d H]].
    exists ws, d. unfold save_audios at 1. rewrite Ha, Hr. cbn [snd].
    destruct H as [H1 H2]. split; [exact H1|].
    destruct H2 as [H2 [H3 [H4 H5]]]. repeat split; tauto. }
  destruct (directory_chosen (save_directory self)) as [directory|] eqn:Hd.
  2:{ destruct (Hrefuse "No save directory selected.") as [ws [d H]].
      exists ws, d. unfold save_audios at 1. rewrite Ha, Hr, Hd. cbn [snd].
      destruct H as [H1 H2]. split; [exact H1|].
      destruct H2 as [H2 [H3 [H4 H5]]]. repeat split; tauto. }
  assert (Hna : processed_audios self <> []) by (rewrite Ha; discriminate).
  assert (Hnr : sampling_rates self <> []) by (rewrite Hr; discriminate).
  rewrite <- Ha, <- Hr. rewrite <- Ha, <- Hr in Hframe. clear Hrefuse.
  destruct (export_outcome directory self (audio_paths self) 0)
    as [[evs Hall] | [pre [p [post [evs [e [Hs [Hall Hp]]]]]]]].
  - exists evs, (ShowInfo "Success" "All processed files have been saved.").
    destruct (written_events_aligned E _ _ _ _ _ Hall) as [Hlen Hnth].
    split; [now apply (save_audios_ok E self w directory evs)|].
    split; [exact (writes_are_writes directory self _ evs Hall)|].
    split; [reflexivity|]. split; [lia|]. split; [| exact Hframe].
    intros j ev Hj.
    destruct (Hnth j ev Hj) as [q [data [sr [H0 [H1 [H2 [_ H4]]]]]]].
    exists directory, q, data, sr. auto.
  - exists evs,
      (ShowError "Save Error"
         ("An error occurred while saving the files: " ++ str_of_exn e)%string).
    destruct (written_events_aligned E _ _ _ _ _ Hall) as [Hlen Hnth].
    split.
    { rewrite (save_audios_raise E self w directory pre post p evs e); auto. }
    split; [exact (writes_are_writes directory self _ evs Hall)|].
    split; [reflexivity|].
    split; [rewrite Hs, length_app, Hlen; lia|]. split; [| exact Hframe].
    intros j ev Hj.
    destruct (Hnth j ev Hj) as [q [data [sr [H0 [H1 [H2 [_ H4]]]]]]].
    exists directory, q, data, sr. repeat split; auto.
    rewrite Hs, nth_error_app1; [exact H0|].
    apply nth_error_Some. congruence.
Qed.

(** Cancelling the directory dialog discards a directory chosen earlier:
    the next export is refused with one error dialog and writes nothing. *)
Theorem cancelled_directory_blocks_export (self : AudioProcessingApp)
  (w : world) :
  save_directory (choose_save_directory self "") = Some "" /\
  status_label (choose_save_directory self "") = status_label self /\
  save_audios E (choose_save_directory self "") w
  = (choose_save_directory self "",
     w ++ [ShowError "Error"
             (match processed_audios self, sampling_rates self with
              | _ :: _, _ :: _ => "No save directory selected."
              | _, _ => "No processed audio to save."
              end)]).
Proof.
  repeat split.
  unfold save_audios, choose_save_directory. cbn.
  destruct (processed_audios self); [reflexivity|].
  destruct (sampling_rates self); reflexivity.
Qed.

End ExportProperties.

(** ** More on the signal path *)

Section SignalPath.

Import Numpy Dsp App.
Local Open Scope R_scope.

Lemma compress_length (signal : list R) (out : list npfloat) :
  apply_dynamic_range_compression signal = Ok out ->
  length out = length signal.
Proof.
  unfold apply_dynamic_range_compression, peak_normalize.
  destruct (np_max _) as [m | e]; cbn [bind]; [| discriminate].
  intros H; injection H as <-. now rewrite !length_map.
Qed.

Lemma compress_ok_nonempty (signal : list R) (out : list npfloat) :
  apply_dynamic_range_compression signal = Ok out -> signal <> [].
Proof. intros H ->. discriminate. Qed.

(** With a sample that is not zero the output is the curve divided by its
    positive peak. *)
Lemma compress_finite (signal : list R) :
  Exists (fun x => x <> 0) signal ->
  exists m,
    0 < m /\
    is_max m (map Rabs (map (fun x => np_sign x * np_log1p (Rabs x) * 1.2) signal)) /\
    apply_dynamic_range_compression signal
    = Ok (map Finite
            (map (fun y => y / m)
                 (map (fun x => np_sign x * np_log1p (Rabs x) * 1.2) signal))).
Proof.
  intros Hex.
  set (ys := map (fun x => np_sign x * np_log1p (Rabs x) * 1.2) signal).
  assert (Hne : map Rabs ys <> []).
  { unfold ys. destruct signal; [inversion Hex | discriminate]. }
  destruct (np_max_nonempty _ Hne) as [m Hm].
  pose proof (np_max_is_max _ _ Hm) as Hmax.
  assert (Hpos : 0 < m).
  { apply (compressed_peak_pos 1.2 signal m); [lra | exact Hex | exact Hmax]. }
  exists m. repeat split; try apply Hmax; [exact Hpos|].
  unfold apply_dynamic_range_compression. fold ys.
  apply peak_normalize_nonzero; [exact Hm | lra].
Qed.

Lemma all_zero_or_not (signal : list R) :
  Forall (fun x => x = 0) signal \/ Exists (fun x => x <> 0) signal.
Proof.
  induction signal as [|x t [IH | IH]].
  - left. constructor.
  - destruct (Req_dec_T x 0) as [-> | Hx].
    + left. now constructor.
    + right. now constructor.
  - right. now constructor.
Qed.

(** The two shapes of a compressed buffer: all nan for a silent input,
    otherwise finite samples between -1 and 1 with a peak of 1. *)
Lemma compress_outcome (signal : list R) (out : list npfloat) :
  apply_dynamic_range_compression signal = Ok out ->
  (Forall (fun x => x = 0) signal /\ Forall (fun s => s = NaN) out) \/
  (Exists (fun x => x <> 0) signal /\
   exists ys,
     out = map Finite ys /\ np_max (map Rabs ys) = Ok 1 /\
     Forall (fun y => -1 <= y <= 1) ys).
Proof.
  intros Hc. destruct (all_zero_or_not signal) as [Hz | Hex].
  - left. split; [exact Hz|].
    rewrite (compress_silent signal (compress_ok_nonempty _ _ Hc) Hz) in Hc.
    injection Hc as <-. apply Forall_forall. intros s Hs.
    apply in_map_iff in Hs. now destruct Hs as [_ [<- _]].
  - right. split; [exact Hex|].
    destruct (compress_finite signal Hex) as [m [Hpos [Hmax Heq]]].
    rewrite Heq in Hc. injection Hc as <-.
    pose proof (normalized_peak _ m Hmax Hpos) as H1.
    eexists. split; [reflexivity|]. split; [now apply is_max_np_max|].
    apply Forall_forall. intros y Hy. destruct H1 as [_ Hub].
    assert (Hle : Rabs y <= 1) by (apply Hub; now apply in_map).
    unfold Rabs in Hle. destruct (Rcase_abs y); lra.
Qed.

Lemma attenuation_empty (sr : Z) :
  apply_frequency_dependent_attenuation [] sr
  = Raise (ValueError "Invalid number of FFT data points (0) specified.").
Proof. reflexivity. Qed.

Lemma attenuation_zero_rate (signal : list R) :
  signal <> [] ->
  apply_frequency_dependent_attenuation signal 0 = Raise ZeroDivisionError.
Proof.
  intros Hne. unfold apply_frequency_dependent_attenuation, attenuated_spectrum.
  now rewrite (rfft_bins signal Hne).
Qed.

Section OneFile.

Variable E : env.

(** What becomes of one file.  When the decoder raises, so does the
    processing.  A decoded file with no sample or a single sample raises a
    [ValueError], one with a rate of zero a [ZeroDivisionError]; any other
    is processed, and the result has twice the half of its number of
    samples, at the decoder's rate. *)
Theorem process_one_outcome (audio_path : string) :
  (forall e,
     librosa_load E audio_path = Raise e ->
     process_one E audio_path = Raise e) /\
  (forall audio sr,
     librosa_load E audio_path = Ok (audio, sr) ->
     (audio = [] ->
      process_one E audio_path
      = Raise (ValueError "Invalid number of FFT data points (0) specified.")) /\
     (audio <> [] -> sr = 0%Z ->
      process_one E audio_path = Raise ZeroDivisionError) /\
     (length audio = 1%nat -> sr <> 0%Z ->
      process_one E audio_path
      = Raise (ValueError "Invalid number of FFT data points (0) specified.")) /\
     ((2 <= length audio)%nat -> sr <> 0%Z ->
      exists buffer,
        process_one E audio_path = Ok (buffer, sr) /\
        length buffer = (2 * (length audio / 2))%nat)).
Proof.
  split.
  - intros e He. unfold process_one. now rewrite He.
  - intros audio sr Hl. unfold process_one. rewrite Hl. cbn [bind fst snd].
    repeat split.
    + intros ->. reflexivity.
    + intros Hne ->. now rewrite attenuation_zero_rate.
    + intros H1 Hsr. destruct audio as [|x [|y t]]; try discriminate.
      now rewrite attenuation_single_sample.
    + intros H2 Hsr.
      destruct (attenuation_length audio sr H2 Hsr) as [att [Ha Hlen]].
      rewrite Ha. cbn [bind].
      destruct (compress_nonempty att) as [out Hout].
      { intros ->. cbn [length] in Hlen.
        assert ((1 <= length audio / 2)%nat)
          by (apply (Nat.div_le_lower_bound (length audio) 2 1); lia).
        lia. }
      rewrite Hout. cbn [bind]. exists out. split; [reflexivity|].
      now rewrite (compress_length _ _ Hout).
Qed.

(** Every buffer the batch keeps is either made of nans only (the file was
    silent after attenuation) or of finite samples between -1 and 1 whose
    largest magnitude is 1; it is never empty and never holds an
    infinity. *)
Theorem processed_buffer_nan_or_unit_peak (audio_path : string)
  (buffer : list npfloat) (sr : Z) :
  process_one E audio_path = Ok (buffer, sr) ->
  buffer <> [] /\
  (Forall (fun s => s = NaN) buffer \/
   exists ys,
     buffer = map Finite ys /\ np_max (map Rabs ys) = Ok 1 /\
     Forall (fun y => -1 <= y <= 1) ys) /\
  Forall (fun s => forall negative, s <> Inf negative) buffer.
Proof.
  unfold process_one.
  destruct (librosa_load E audio_path) as [[audio sr0] | e]; [| discriminate].
  cbn [bind fst snd].
  destruct (apply_frequency_dependent_attenuation audio sr0) as [att | e];
    [| discriminate].
  cbn [bind].
  destruct (apply_dynamic_range_compression att) as [out | e] eqn:Hc;
    [| discriminate].
  cbn [bind]. intros H; injection H as <- <-.
  pose proof (compress_ok_nonempty _ _ Hc) as Hne.
  pose proof (compress_length _ _ Hc) as Hlen.
  split; [destruct out, att; simpl in *; congruence|].
  destruct (compress_outcome _ _ Hc) as [[_ Hn] | [_ [ys [-> [Hm Hb]]]]].
  - split; [now left|]. eapply Forall_impl; [| exact Hn].
    cbn. intros s -> b. discriminate.
  - split; [right; eauto|]. apply Forall_forall. intros s Hs b.
    apply in_map_iff in Hs. destruct Hs as [y [<- _]]. discriminate.
Qed.

End OneFile.

End SignalPath.

Section SilenceAndOrder.

Import Numpy Dsp App.
Local Open Scope R_scope.

Lemma Csum_zero (l : list complex) :
  Forall (fun z => z = (0, 0)) l -> Csum l = (0, 0).
Proof.
  induction 1 as [|z l -> _ IH]; [reflexivity|].
  cbn [Csum fold_right]. fold (Csum l). rewrite IH.
  unfold Cadd, Cre, Cim; cbn [fst snd]. now rewrite Rplus_0_l.
Qed.

Lemma rfft_bin_silent (signal : list R) (k : nat) :
  Forall (fun x => x = 0) signal -> rfft_bin signal k = (0, 0).
Proof.
  intros Hz. unfold rfft_bin. apply Csum_zero.
  apply Forall_forall. intros z Hin. apply in_map_iff in Hin.
  destruct Hin as [[n x] [<- Hnx]]. apply in_combine_r in Hnx.
  rewrite Forall_forall in Hz. rewrite (Hz x Hnx).
  unfold Cscale; cbn [snd]. now rewrite !Rmult_0_l.
Qed.

Lemma sum_zero (l : list R) :
  Forall (fun x => x = 0) l -> fold_right Rplus 0 l = 0.
Proof.
  induction 1 as [|x l -> _ IH]; [reflexivity|].
  cbn [fold_right]. rewrite IH. apply Rplus_0_l.
Qed.

Lemma irfft_sample_silent (X : list complex) (n t : nat) :
  Forall (fun z => z = (0, 0)) X -> irfft_sample X n t = 0.
Proof.
  intros Hz. unfold irfft_sample. rewrite sum_zero; [apply Rmult_0_r|].
  apply Forall_forall. intros y Hin. apply in_map_iff in Hin.
  destruct Hin as [[k z] [<- Hkz]]. apply in_combine_r in Hkz.
  rewrite Forall_forall in Hz. rewrite (Hz z Hkz).
  unfold Cmul, Cre, Cim; cbn [fst snd]. ring.
Qed.

Lemma map_constant {A B : Type} (b : B) (l : list A) :
  map (fun _ => b) l = repeat b (length l).
Proof. induction l as [|a l IH]; cbn; [reflexivity | now rewrite IH]. Qed.

(** A buffer of zeros is attenuated to a buffer of zeros. *)
Lemma attenuation_silent (signal : list R) (sr : Z) :
  Forall (fun x => x = 0) signal -> (2 <= length signal)%nat -> sr <> 0%Z ->
  apply_frequency_dependent_attenuation signal sr
  = Ok (repeat 0 (2 * (length signal / 2))).
Proof.
  intros Hz Hlen Hsr. unfold apply_frequency_dependent_attenuation.
  rewrite attenuated_spectrum_bins;
    [| destruct signal; cbn [length] in *; [lia | congruence] | assumption].
  cbn [bind]. unfold np_fft_irfft. rewrite length_map, length_seq.
  assert (Hh : (1 <= length signal / 2)%nat).
  { apply (Nat.div_le_lower_bound (length signal) 2 1); lia. }
  replace (length signal / 2 + 1 - 1)%nat with (length signal / 2)%nat by lia.
  destruct (Nat.eqb_spec (2 * (length signal / 2)) 0) as [H0 | _]; [lia|].
  f_equal.
  transitivity (map (fun _ : nat => 0) (seq 0 (2 * (length signal / 2)))).
  2:{ now rewrite map_constant, length_seq. }
  apply map_ext. intros t.
  apply irfft_sample_silent. apply Forall_forall. intros z Hin.
  apply in_map_iff in Hin. destruct Hin as [k [<- _]].
  rewrite (rfft_bin_silent signal k Hz).
  unfold Cscale, Cre, Cim; cbn [fst snd]. now rewrite !Rmult_0_r.
Qed.

(** A silent recording of at least two samples is processed without any
    error into a buffer of nans; the batch keeps it like any other
    result. *)
Theorem silent_recording_becomes_nan (E : env) (audio_path : string)
  (audio : list R) (sr : Z) :
  librosa_load E audio_path = Ok (audio, sr) ->
  Forall (fun x => x = 0) audio -> (2 <= length audio)%nat -> sr <> 0%Z ->
  process_one E audio_path = Ok (repeat NaN (2 * (length audio / 2)), sr).
Proof.
  intros Hl Hz Hlen Hsr. unfold process_one. rewrite Hl. cbn [bind fst snd].
  rewrite (attenuation_silent audio sr Hz Hlen Hsr). cbn [bind].
  assert (Hh : (1 <= length audio / 2)%nat).
  { apply (Nat.div_le_lower_bound (length audio) 2 1); lia. }
  rewrite compress_silent.
  - cbn [bind]. now rewrite map_constant, repeat_length.
  - destruct (length audio / 2)%nat; [lia | discriminate].
  - apply Forall_forall. intros x Hx. now apply repeat_spec in Hx.
Qed.

Lemma curve_increasing (g x x' : R) :
  0 < g -> x < x' ->
  np_sign x * np_log1p (Rabs x) * g < np_sign x' * np_log1p (Rabs x') * g.
Proof.
  intros Hg Hlt.
  destruct (Rtotal_order x 0) as [Hx | [Hx | Hx]];
    destruct (Rtotal_order x' 0) as [Hx' | [Hx' | Hx']]; try lra.
  - rewrite !np_sign_neg, !Rabs_left by assumption. unfold np_log1p.
    assert (ln (1 + - x') < ln (1 + - x)) by (apply ln_increasing; lra).
    nra.
  - subst x'. rewrite curve_0. now apply curve_neg.
  - pose proof (curve_neg g x Hg Hx). pose proof (curve_pos g x' Hg Hx'). lra.
  - subst x. rewrite curve_0. now apply curve_pos.
  - rewrite !np_sign_pos, !Rabs_right by lra. unfold np_log1p.
    assert (ln (1 + x) < ln (1 + x')) by (apply ln_increasing; lra).
    nra.
Qed.

(** The compression keeps the order of the samples: of two input samples
    the larger one gives the larger output sample, and equal input samples
    give equal output samples. *)
Theorem compress_keeps_order (signal : list R) :
  Exists (fun x => x <> 0) signal ->
  exists out,
    apply_dynamic_range_compression signal = Ok (map Finite out) /\
    forall i j xi xj yi yj,
      nth_error signal i = Some xi -> nth_error signal j = Some xj ->
      nth_error out i = Some yi -> nth_error out j = Some yj ->
      (xi < xj -> yi < yj) /\ (xi = xj -> yi = yj).
Proof.
  intros Hex. destruct (compress_finite signal Hex) as [m [Hpos [_ Heq]]].
  eexists. split; [exact Heq|].
  intros i j xi xj yi yj Hi Hj Hyi Hyj.
  rewrite map_map, nth_error_map in Hyi, Hyj. rewrite Hi in Hyi. rewrite Hj in Hyj.
  cbn in Hyi, Hyj. injection Hyi as <-. injection Hyj as <-.
  split.
  - intros Hlt. apply Rmult_lt_compat_r; [now apply Rinv_0_lt_compat|].
    apply curve_increasing; [lra | exact Hlt].
  - now intros ->.
Qed.

End SilenceAndOrder.

(** ** The loading animation *)

Section AnimationProperties.

Import Animation.
Local Open Scope Z_scope.

Lemma ticks_succ (n : nat) (self : indicator) :
  ticks (S n) self = tick (ticks n self).
Proof.
  revert self; induction n as [|n IH]; intros self; [reflexivity|].
  cbn [ticks] in *. now rewrite IH.
Qed.

(** Started on an idle window, the animation shows one arc at a time; at
    the [n]-th firing of the timer the arc starts at [10 * n] degrees
    modulo 360, so the angles run through the multiples of ten below 360
    and come back to 0 after 36 firings.  One call stays registered. *)
Theorem animation_frames (n : nat) :
  ticks n (start_loading_animation idle)
  = {| loading := true;
       canvas := [{| arc_x0 := 120; arc_y0 := 50; arc_x1 := 180;
                     arc_y1 := 110;
                     arc_start := (10 * Z.of_nat n) mod 360;
                     arc_extent := 90 |}];
       timer := [(10 * Z.of_nat (S n)) mod 360] |} /\
  ticks (n + 36) (start_loading_animation idle)
  = ticks n (start_loading_animation idle).
Proof.
  assert (H : forall k,
    ticks k (start_loading_animation idle)
    = {| loading := true;
         canvas := [{| arc_x0 := 120; arc_y0 := 50; arc_x1 := 180;
                       arc_y1 := 110;
                       arc_start := (10 * Z.of_nat k) mod 360;
                       arc_extent := 90 |}];
         timer := [(10 * Z.of_nat (S k)) mod 360] |}).
  { induction k as [|k IH]; [reflexivity|].
    assert (Ha : ((10 * Z.of_nat (S k)) mod 360 + 10) mod 360
                 = (10 * Z.of_nat (S (S k))) mod 360).
    { rewrite Z.add_mod_idemp_l by lia. f_equal. lia. }
    rewrite ticks_succ, IH. unfold tick, animate_loading.
    cbn [timer loading canvas app]. now rewrite Ha. }
  split; [apply H|]. rewrite !H.
  replace (10 * Z.of_nat (n + 36)) with (10 * Z.of_nat n + 1 * 360) by lia.
  replace (10 * Z.of_nat (S (n + 36))) with (10 * Z.of_nat (S n) + 1 * 360)
    by lia.
  now rewrite !Z.mod_add by lia.
Qed.

Lemma ticks_stopped (n : nat) (pending : list Z) :
  ticks n {| loading := false; canvas := []; timer := pending |}
  = {| loading := false; canvas := []; timer := skipn n pending |}.
Proof.
  revert pending; induction n as [|n IH]; intros pending; [reflexivity|].
  cbn [ticks]. destruct pending as [|a rest].
  - cbn [tick timer]. rewrite IH. now rewrite skipn_nil.
  - cbn [tick timer animate_loading loading skipn]. apply IH.
Qed.

(** Stopping clears the canvas at once and draws nothing afterwards; the
    calls that were registered still fire, one per firing of the timer,
    and register nothing new, so that after as many firings as there were
    registered calls the window is idle again. *)
Theorem animation_stops (self : indicator) (n : nat) :
  ticks n (stop_loading_animation self)
  = {| loading := false; canvas := []; timer := skipn n (timer self) |} /\
  ticks (length (timer self) + n) (stop_loading_animation self) = idle.
Proof.
  unfold stop_loading_animation. rewrite !ticks_stopped. split; [reflexivity|].
  unfold idle. f_equal. apply skipn_all2. lia.
Qed.

Lemma tick_while_loading (self : indicator) :
  loading self = true ->
  loading (tick self) = true /\ length (timer (tick self)) = length (timer self).
Proof.
  intros Hl. unfold tick. destruct (timer self) as [|a rest] eqn:Ht.
  - now rewrite Ht.
  - unfold animate_loading. cbn [loading timer]. rewrite Hl.
    cbn [loading timer]. split; [reflexivity|].
    rewrite length_app. cbn [length]. lia.
Qed.

(** Starting the animation registers one more call whatever the window was
    doing, and while it runs every call that fires registers its
    successor: a start that is not preceded by a stop adds a chain of
    calls to those already running, and none of them ends by itself. *)
Theorem animation_chains_add_up (self : indicator) (n : nat) :
  loading (ticks n (start_loading_animation self)) = true /\
  length (timer (ticks n (start_loading_animation self)))
  = S (length (timer self)).
Proof.
  induction n as [|n [IH1 IH2]].
  - cbn. rewrite length_app. cbn [length]. split; [reflexivity | lia].
  - rewrite ticks_succ.
    destruct (tick_while_loading _ IH1) as [H1 H2]. split; congruence.
Qed.

End AnimationProperties.

(** ** Output names *)

Section OutputNames.

Import OsPath App.
Local Open Scope string_scope.

Lemma str_app_inv_head (a b c : string) : a ++ b = a ++ c -> b = c.
Proof.
  induction a as [|x a IH]; cbn; [auto|]. intros H; injection H as H. auto.
Qed.

Lemma str_length_app (a b : string) :
  String.length (a ++ b) = (String.length a + String.length b)%nat.
Proof. induction a as [|x a IH]; cbn; [reflexivity | now rewrite IH]. Qed.

Lemma str_app_inv_tail (a b c : string) : a ++ c = b ++ c -> a = b.
Proof.
  revert b; induction a as [|x a IH]; intros b H.
  - destruct b as [|y b]; [reflexivity|].
    apply (f_equal String.length) in H. cbn in H.
    rewrite str_length_app in H. lia.
  - destruct b as [|y b].
    + apply (f_equal String.length) in H. cbn in H.
      rewrite str_length_app in H. lia.
    + cbn in H. injection H as -> H. f_equal. now apply IH.
Qed.

(** A string has at most one way of being cut at its last dot. *)
Lemma last_dot_unique (a a' r r' : string) :
  a ++ String "." r = a' ++ String "." r' ->
  contains_char "." r = false -> contains_char "." r' = false ->
  a = a' /\ r = r'.
Proof.
  revert a'; induction a as [|x a IH]; intros a' H Hr Hr'.
  - destruct a' as [|y a'].
    + cbn in H. injection H as H. auto.
    + cbn in H. injection H as _ H. subst r.
      rewrite contains_char_append in Hr. cbn in Hr.
      rewrite orb_true_r in Hr. discriminate.
  - destruct a' as [|y a'].
    + cbn in H. injection H as _ H. subst r'.
      rewrite contains_char_append in Hr'. cbn in Hr'.
      rewrite orb_true_r in Hr'. discriminate.
    + cbn in H. injection H as -> H.
      destruct (IH a' H Hr Hr') as [-> ->]. auto.
Qed.

Lemma substring_one (i : nat) (p : string) :
  substring i 1 p = str_take 1 (str_drop i p).
Proof.
  revert p; induction i as [|i IH]; intros p.
  - destruct p as [|c t]; [reflexivity|]. cbn. now destruct t.
  - destruct p as [|c t]; [reflexivity|]. cbn. apply IH.
Qed.

(** When the scan of [splitext] finds nothing but dots, the characters it
    went over are dots. *)
Lemma splitext_scan_false (p : string) (steps i : nat) :
  splitext_scan p (Z.of_nat i) steps = false ->
  all_dots (str_take steps (str_drop i p)) = true.
Proof.
  revert i; induction steps as [|k IH]; intros i H; [reflexivity|].
  cbn [splitext_scan] in H. rewrite Nat2Z.id, substring_one in H.
  destruct (str_drop i p) as [|c t] eqn:Hd; [discriminate|].
  cbn [str_take] in H.
  destruct (String.eqb_spec (String c "") ".") as [Hc | Hc]; [| discriminate].
  injection Hc as ->. cbn [negb] in H.
  replace (Z.of_nat i + 1)%Z with (Z.of_nat (S i)) in H by lia.
  apply IH in H. rewrite (str_drop_next _ _ _ _ Hd) in H.
  cbn [str_take all_dots]. now rewrite H.
Qed.

(** What [splitext] does to a name without a slash: it keeps the name
    whole when the name has no dot or only leading dots, and cuts it at
    its last dot otherwise. *)
Lemma splitext_basename_cases (q stem ext : string) :
  contains_char "/" q = false ->
  splitext q = (stem, ext) ->
  (ext = "" /\ stem = q /\ contains_char "." q = false) \/
  (ext = "" /\ stem = q /\
   exists dots rest,
     q = dots ++ String "." rest /\ all_dots dots = true /\
     contains_char "." rest = false) \/
  (exists rest,
     ext = String "." rest /\ contains_char "." rest = false /\
     q = stem ++ ext).
Proof.
  intros Hslash. unfold splitext.
  destruct (str_rfind_spec q "/") as [[_ Hs] | [n [rest [_ [Hd _]]]]].
  2:{ exfalso. rewrite <- (str_take_drop n q), Hd, contains_char_append in Hslash.
      cbn in Hslash. rewrite orb_true_r in Hslash. discriminate. }
  rewrite Hs.
  destruct (str_rfind_spec q ".") as [[Hno Hr] | [n [rest [Hr [Hd Hno]]]]];
    rewrite Hr.
  - cbn. intros H; injection H as <- <-. left. auto.
  - replace (-1 <? Z.of_nat n)%Z with true by (symmetry; apply Z.ltb_lt; lia).
    replace (-1 + 1)%Z with (Z.of_nat 0) by reflexivity.
    replace (Z.to_nat (Z.of_nat n - Z.of_nat 0)) with n by lia.
    destruct (splitext_scan q (Z.of_nat 0) n) eqn:Hscan.
    + rewrite Nat2Z.id. intros H; injection H as <- <-.
      right. right. exists rest. repeat split; auto.
      now rewrite str_take_drop.
    + intros H; injection H as <- <-. right. left. repeat split.
      exists (str_take n q), rest. repeat split; auto.
      * now rewrite <- Hd, str_take_drop.
      * now apply splitext_scan_false in Hscan.
Qed.

Lemma all_dots_no_underscore (d : string) :
  all_dots d = true -> contains_char "_" d = false.
Proof.
  induction d as [|c t IH]; [reflexivity|]. cbn. intros H.
  apply andb_prop in H. destruct H as [Hc Ht].
  apply Ascii.eqb_eq in Hc. subst c. cbn. auto.
Qed.

(** The file name of line 156 determines the basename it was made from. *)
Lemma suffixed_name_injective (q1 q2 s1 e1 s2 e2 : string) :
  contains_char "/" q1 = false -> contains_char "/" q2 = false ->
  splitext q1 = (s1, e1) -> splitext q2 = (s2, e2) ->
  s1 ++ "_SNHL_sim" ++ e1 = s2 ++ "_SNHL_sim" ++ e2 ->
  q1 = q2.
Proof.
  intros H1 H2 Hs1 Hs2 Heq.
  assert (HM : contains_char "." "_SNHL_sim" = false) by reflexivity.
  assert (whole_or_cut : forall q d rest s r,
            all_dots d = true -> contains_char "." rest = false ->
            contains_char "." r = false ->
            q = d ++ String "." rest ->
            q ++ "_SNHL_sim" ++ "" = s ++ "_SNHL_sim" ++ String "." r -> False).
  { intros q d rest s r Hd Hrest Hr -> H.
    rewrite append_empty_r in H.
    change (s ++ "_SNHL_sim" ++ String "." r)
      with (s ++ ("_SNHL_sim" ++ String "." r)) in H.
    rewrite <- (string_app_assoc s "_SNHL_sim" (String "." r)) in H.
    rewrite (string_app_assoc d (String "." rest) "_SNHL_sim") in H.
    change (String "." rest ++ "_SNHL_sim") with (String "." (rest ++ "_SNHL_sim")) in H.
    apply last_dot_unique in H; [| now rewrite contains_char_append, Hrest | exact Hr].
    destruct H as [Hds _]. apply all_dots_no_underscore in Hd.
    rewrite Hds, contains_char_append in Hd. cbn in Hd.
    rewrite orb_true_r in Hd. discriminate. }
  assert (plain_or_cut : forall q s r,
            contains_char "." q = false -> contains_char "." r = false ->
            q ++ "_SNHL_sim" ++ "" = s ++ "_SNHL_sim" ++ String "." r -> False).
  { intros q s r Hq Hr H.
    apply (f_equal (contains_char ".")) in H.
    rewrite !contains_char_append, Hq in H. cbn in H.
    rewrite !orb_true_r in H. discriminate. }
  destruct (splitext_basename_cases q1 s1 e1 H1 Hs1)
    as [[-> [-> Hq1]] | [[-> [-> [d1 [r1 [Hq1 [Hd1 Hr1]]]]]] | [r1 [-> [Hr1 Hq1]]]]];
  destruct (splitext_basename_cases q2 s2 e2 H2 Hs2)
    as [[-> [-> Hq2]] | [[-> [-> [d2 [r2 [Hq2 [Hd2 Hr2]]]]]] | [r2 [-> [Hr2 Hq2]]]]].
  - now apply str_app_inv_tail in Heq.
  - now apply str_app_inv_tail in Heq.
  - exfalso. exact (plain_or_cut q1 s2 r2 Hq1 Hr2 Heq).
  - now apply str_app_inv_tail in Heq.
  - now apply str_app_inv_tail in Heq.
  - exfalso. exact (whole_or_cut q1 d1 r1 s2 r2 Hd1 Hr1 Hr2 Hq1 Heq).
  - exfalso. symmetry in Heq. exact (plain_or_cut q2 s1 r1 Hq2 Hr1 Heq).
  - exfalso. symmetry in Heq.
    exact (whole_or_cut q2 d2 r2 s1 r1 Hd2 Hr2 Hr1 Hq2 Heq).
  - change (s1 ++ "_SNHL_sim" ++ String "." r1)
      with (s1 ++ ("_SNHL_sim" ++ String "." r1)) in Heq.
    change (s2 ++ "_SNHL_sim" ++ String "." r2)
      with (s2 ++ ("_SNHL_sim" ++ String "." r2)) in Heq.
    rewrite <- !string_app_assoc in Heq.
    apply last_dot_unique in Heq; auto. destruct Heq as [Hs ->].
    apply str_app_inv_tail in Hs. subst s2. congruence.
Qed.

Lemma join_injective (directory n1 n2 : string) :
  str_startswith n1 "/" = false -> str_startswith n2 "/" = false ->
  join directory n1 = join directory n2 -> n1 = n2.
Proof.
  unfold join. intros -> ->.
  destruct ((directory =? "") || str_endswith_char directory "/"); intros H.
  - now apply str_app_inv_head in H.
  - apply str_app_inv_head in H. now injection H.
Qed.

Lemma basename_idempotent (p : string) : basename (basename p) = basename p.
Proof.
  destruct (basename_spec p) as [Hno _]. unfold basename at 1.
  destruct (str_rfind_spec (basename p) "/") as [[_ Hr] | [n [rest [_ [Hd _]]]]].
  - now rewrite Hr.
  - exfalso. rewrite <- (str_take_drop n (basename p)), Hd, contains_char_append in Hno.
    cbn in Hno. rewrite orb_true_r in Hno. discriminate.
Qed.

(** Two sources are exported to the same file of a directory exactly when
    they have the same basename: sources of the same name in different
    folders overwrite each other, and no other two sources do. *)
Theorem export_collides_iff_same_basename (directory p q : string) :
  output_path directory p = output_path directory q <->
  basename p = basename q.
Proof.
  split.
  - intros H.
    destruct (output_path_spec directory p) as [s1 [e1 [Hs1 [Hc1 _]]]].
    destruct (output_path_spec directory q) as [s2 [e2 [Hs2 [Hc2 _]]]].
    unfold output_path in H. rewrite Hs1, Hs2 in H.
    destruct (basename_spec p) as [Hp _]. destruct (basename_spec q) as [Hq _].
    assert (Hn : forall b s e, contains_char "/" b = false -> s ++ e = b ->
                 str_startswith (s ++ "_SNHL_sim" ++ e) "/" = false).
    { intros b s e Hb Hcat. apply no_slash_not_absolute.
      rewrite <- Hcat, contains_char_append in Hb.
      apply orb_false_elim in Hb. destruct Hb as [Hs He].
      now rewrite !contains_char_append, Hs, He. }
    apply join_injective in H; [| now apply (Hn (basename p)) | now apply (Hn (basename q))].
    now apply (suffixed_name_injective (basename p) (basename q) s1 e1 s2 e2).
  - intros H. unfold output_path. now rewrite H.
Qed.

End OutputNames.

(** ** The transform and its inverse *)

Section Inversion.

Import Numpy Dsp.
Local Open Scope R_scope.

Local Notation "'Rsum' l" := (fold_right Rplus 0 l) (at level 10, l at level 9).

Lemma Rsum_app (l l' : list R) : Rsum (l ++ l') = Rsum l + Rsum l'.
Proof.
  induction l as [|x l IH]; cbn [app fold_right]; [ring | rewrite IH; ring].
Qed.

Lemma Rsum_map_add {A : Type} (f g : A -> R) (l : list A) :
  Rsum (map (fun a => f a + g a) l) = Rsum (map f l) + Rsum (map g l).
Proof.
  induction l as [|a l IH]; cbn [map fold_right]; [ring | rewrite IH; ring].
Qed.

Lemma Rsum_map_scale {A : Type} (c : R) (f : A -> R) (l : list A) :
  Rsum (map (fun a => c * f a) l) = c * Rsum (map f l).
Proof.
  induction l as [|a l IH]; cbn [map fold_right]; [ring | rewrite IH; ring].
Qed.

Lemma Rsum_map_zero {A : Type} (l : list A) : Rsum (map (fun _ => 0) l) = 0.
Proof.
  induction l as [|a l IH]; cbn [map fold_right]; [reflexivity | rewrite IH; ring].
Qed.

Lemma Rsum_exchange {A B : Type} (F : A -> B -> R) (la : list A) (lb : list B) :
  Rsum (map (fun a => Rsum (map (fun b => F a b) lb)) la)
  = Rsum (map (fun b => Rsum (map (fun a => F a b) la)) lb).
Proof.
  induction la as [|a la IH]; cbn [map fold_right].
  - now rewrite Rsum_map_zero.
  - rewrite IH. now rewrite <- Rsum_map_add.
Qed.

Lemma Cre_Cmul_Csum {A : Type} (f : A -> complex) (e : complex) (l : list A) :
  Cre (Cmul (Csum (map f l)) e) = Rsum (map (fun a => Cre (Cmul (f a) e)) l).
Proof.
  induction l as [|a l IH]; cbn [map Csum fold_right].
  - unfold Cmul, Cre, Cim; cbn [fst snd]. ring.
  - fold (Csum (map f l)). rewrite <- IH.
    unfold Cmul, Cadd, Cre, Cim; cbn [fst snd]. ring.
Qed.

(** One term of a bin, turned back by the angle [phi]. *)
Lemma turned_term (x theta phi : R) :
  Cre (Cmul (Cscale x (Cexp_i (- theta))) (Cexp_i phi)) = x * cos (phi - theta).
Proof.
  unfold Cmul, Cscale, Cexp_i, Cre, Cim; cbn [fst snd].
  rewrite cos_neg, sin_neg, cos_minus. ring.
Qed.

(** The sum of [2 cos (k a) sin (a / 2)] telescopes. *)
Lemma cosine_sum_telescopes (a : R) (j : nat) :
  Rsum (map (fun k => 2 * cos (INR k * a) * sin (a / 2)) (seq 1 j))
  = sin ((INR j + 1 / 2) * a) - sin (a / 2).
Proof.
  induction j as [|j IH].
  - cbn [seq map fold_right INR]. replace ((0 + 1 / 2) * a) with (a / 2) by field.
    ring.
  - rewrite seq_S, map_app, Rsum_app, IH. cbn [map fold_right].
    replace (INR (1 + j)) with (INR j + 1) by (rewrite <- S_INR; reflexivity).
    rewrite S_INR.
    replace ((INR j + 1 + 1 / 2) * a) with ((INR j + 1) * a + a / 2) by field.
    replace ((INR j + 1 / 2) * a) with ((INR j + 1) * a - a / 2) by field.
    rewrite sin_plus, sin_minus. ring.
Qed.

(** The weighted sum of cosines of the inverse transform, over the bins
    [0 .. M]: the end bins count once and the others twice. *)
Lemma kernel_split (M' : nat) (a : R) :
  Rsum (map (fun k => hermitian_weight (S M' + 1) k * cos (INR k * a))
            (seq 0 (S M' + 1)))
  = 1 + 2 * Rsum (map (fun k => cos (INR k * a)) (seq 1 M'))
    + cos (INR (S M') * a).
Proof.
  replace (S M' + 1)%nat with (S (S M')) by lia.
  change (seq 0 (S (S M'))) with (0%nat :: seq 1 (S M')).
  rewrite seq_S. cbn [map fold_right]. rewrite map_app, Rsum_app.
  cbn [map fold_right].
  assert (Hmid : map (fun k => hermitian_weight (S (S M')) k * cos (INR k * a))
                     (seq 1 M')
                 = map (fun k => 2 * cos (INR k * a)) (seq 1 M')).
  { apply map_ext_in. intros k Hk. apply in_seq in Hk. unfold hermitian_weight.
    destruct (Nat.eqb_spec k 0); [lia|].
    destruct (Nat.eqb_spec k (S (S M') - 1)); [lia | reflexivity]. }
  rewrite Hmid, Rsum_map_scale.
  unfold hermitian_weight at 1. cbn [Nat.eqb]. change (INR 0) with 0.
  unfold hermitian_weight.
  destruct (Nat.eqb_spec (1 + M') 0); [lia|].
  destruct (Nat.eqb_spec (1 + M') (S (S M') - 1)); [| lia].
  rewrite Rmult_0_l, cos_0. change (1 + M')%nat with (S M'). ring.
Qed.

Lemma kernel_times_sine (M' : nat) (a : R) :
  Rsum (map (fun k => hermitian_weight (S M' + 1) k * cos (INR k * a))
            (seq 0 (S M' + 1)))
  * sin (a / 2)
  = sin (INR (S M') * a) * cos (a / 2).
Proof.
  rewrite kernel_split.
  pose proof (cosine_sum_telescopes a M') as Ht.
  assert (Hs : map (fun k => 2 * cos (INR k * a) * sin (a / 2)) (seq 1 M')
               = map (fun k => (2 * sin (a / 2)) * cos (INR k * a)) (seq 1 M')).
  { apply map_ext. intros k. ring. }
  rewrite Hs, Rsum_map_scale in Ht.
  replace ((INR M' + 1 / 2) * a) with (INR (S M') * a - a / 2) in Ht
    by (rewrite S_INR; field).
  rewrite sin_minus in Ht. nra.
Qed.

Lemma Rsum_ones (s n : nat) : Rsum (map (fun _ : nat => 1) (seq s n)) = INR n.
Proof.
  revert s; induction n as [|n IH]; intros s; [reflexivity|].
  cbn [seq map fold_right]. rewrite IH, S_INR. ring.
Qed.

(** The value of the sum for the angle of an offset [d] between two
    indices of a buffer of [2 M] samples: [2 M] when the offset is zero
    and zero otherwise. *)
Lemma kernel_value (M' : nat) (d : Z) :
  (- Z.of_nat (2 * S M') < d < Z.of_nat (2 * S M'))%Z ->
  Rsum (map (fun k => hermitian_weight (S M' + 1) k *
                      cos (INR k * (2 * PI * IZR d / INR (2 * S M'))))
            (seq 0 (S M' + 1)))
  = if (d =? 0)%Z then INR (2 * S M') else 0.
Proof.
  intros Hd.
  assert (HN : 0 < INR (2 * S M')) by (apply lt_0_INR; lia).
  destruct (Z.eqb_spec d 0) as [-> | Hd0].
  - rewrite kernel_split.
    replace (2 * PI * 0 / INR (2 * S M')) with 0 by (field; lra).
    assert (H1 : map (fun k => cos (INR k * 0)) (seq 1 M')
                 = map (fun _ => 1) (seq 1 M')).
    { apply map_ext. intros k. now rewrite Rmult_0_r, cos_0. }
    rewrite H1, Rsum_ones, Rmult_0_r, cos_0.
    rewrite mult_INR, (S_INR M'). replace (INR 2) with 2 by (simpl; lra). ring.
  - set (a := 2 * PI * IZR d / INR (2 * S M')).
    pose proof (kernel_times_sine M' a) as Hk.
    assert (Hm : INR (S M') * a = IZR d * PI).
    { unfold a. rewrite mult_INR. replace (INR 2) with 2 by (simpl; lra).
      field. rewrite (S_INR M'). pose proof (pos_INR M'). lra. }
    rewrite Hm in Hk.
    rewrite (sin_eq_0_1 (IZR d * PI)) in Hk by (now exists d).
    rewrite Rmult_0_l in Hk.
    apply Rmult_integral in Hk. destruct Hk as [Hk | Hk]; [exact Hk|].
    exfalso.
    assert (Hhalf : a / 2 = PI * IZR d / INR (2 * S M')) by (unfold a; field; lra).
    assert (Hb : - INR (2 * S M') < IZR d < INR (2 * S M')).
    { rewrite INR_IZR_INZ. split.
      - rewrite <- opp_IZR. apply IZR_lt. lia.
      - apply IZR_lt. lia. }
    pose proof PI_RGT_0 as Hpi.
    destruct (Z_lt_ge_dec 0 d) as [Hpos | Hneg].
    + assert (0 < IZR d) by (apply (IZR_lt 0); lia).
      assert (0 < sin (a / 2)); [| lra].
      apply sin_gt_0; rewrite Hhalf.
      * apply Rdiv_lt_0_compat; nra.
      * apply (Rmult_lt_reg_r (INR (2 * S M'))); [exact HN|].
        unfold Rdiv. rewrite Rmult_assoc, Rinv_l by lra. nra.
    + assert (IZR d < 0) by (apply (IZR_lt d 0); lia).
      assert (0 < sin (- (a / 2))); [| rewrite sin_neg in *; lra].
      apply sin_gt_0.
      * rewrite Hhalf.
        replace (- (PI * IZR d / INR (2 * S M')))
          with (PI * (- IZR d) / INR (2 * S M')) by (field; lra).
        apply Rdiv_lt_0_compat; nra.
      * rewrite Hhalf.
        apply (Rmult_lt_reg_r (INR (2 * S M'))); [exact HN|].
        replace (- (PI * IZR d / INR (2 * S M')) * INR (2 * S M'))
          with (PI * (- IZR d)) by (field; lra).
        nra.
Qed.

Lemma combine_with_map {A B : Type} (f : A -> B) (l : list A) :
  combine l (map f l) = map (fun k => (k, f k)) l.
Proof. induction l as [|k l IH]; cbn; [reflexivity | now rewrite IH]. Qed.

(** A sum over the indexed samples in which only index [t] counts. *)
Lemma Rsum_only_index (a : list R) (s t : nat) (c : R) :
  (s <= t < s + length a)%nat ->
  Rsum (map (fun nx : nat * R =>
               snd nx *
               (if (Z.of_nat t - Z.of_nat (fst nx) =? 0)%Z then c else 0))
            (combine (seq s (length a)) a))
  = nth (t - s) a 0 * c.
Proof.
  revert s; induction a as [|x a IH]; intros s Ht; cbn [length] in Ht; [lia|].
  cbn [length seq combine map fold_right fst snd].
  destruct (Nat.eq_dec t s) as [-> | Hne].
  - rewrite Z.sub_diag, Nat.sub_diag. cbn [Z.eqb nth].
    assert (Hrest : Rsum (map (fun nx : nat * R =>
                        snd nx *
                        (if (Z.of_nat s - Z.of_nat (fst nx) =? 0)%Z then c else 0))
                     (combine (seq (S s) (length a)) a)) = 0).
    { transitivity
        (Rsum (map (fun _ : nat * R => 0) (combine (seq (S s) (length a)) a)));
        [| apply Rsum_map_zero].
      f_equal. apply map_ext_in. intros [n y] Hin.
      apply in_combine_l in Hin. apply in_seq in Hin. cbn [fst snd].
      destruct (Z.eqb_spec (Z.of_nat s - Z.of_nat n) 0); [lia | ring]. }
    rewrite Hrest. ring.
  - destruct (Z.eqb_spec (Z.of_nat t - Z.of_nat s) 0); [lia|].
    rewrite IH by lia.
    replace (t - s)%nat with (S (t - S s)) by lia. cbn [nth]. ring.
Qed.

(** Sample [t] of the inverse transform of the forward transform of a
    buffer of [2 M] samples is sample [t] of the buffer. *)
Lemma irfft_sample_of_rfft (a : list R) (M' t : nat) :
  length a = (2 * S M')%nat -> (t < length a)%nat ->
  irfft_sample (map (rfft_bin a) (seq 0 (S M' + 1))) (2 * S M') t = nth t a 0.
Proof.
  intros Hlen Ht. unfold irfft_sample.
  rewrite length_map, length_seq, combine_with_map, map_map. cbn [fst snd].
  assert (HN : 0 < INR (2 * S M')) by (apply lt_0_INR; lia).
  assert (Hterm : forall k,
    hermitian_weight (S M' + 1) k *
    Cre (Cmul (rfft_bin a k)
              (Cexp_i (2 * PI * INR k * INR t / INR (2 * S M'))))
    = Rsum (map (fun nx : nat * R =>
                   snd nx *
                   (hermitian_weight (S M' + 1) k *
                    cos (INR k *
                         (2 * PI * IZR (Z.of_nat t - Z.of_nat (fst nx)) /
                          INR (2 * S M')))))
                (combine (seq 0 (length a)) a))).
  { intros k. unfold rfft_bin. rewrite Cre_Cmul_Csum, <- Rsum_map_scale.
    f_equal. apply map_ext. intros [n x]. cbn [fst snd].
    rewrite turned_term, Hlen, minus_IZR, <- !INR_IZR_INZ.
    replace (2 * PI * INR k * INR t / INR (2 * S M') -
             2 * PI * INR k * INR n / INR (2 * S M'))
      with (INR k * (2 * PI * (INR t - INR n) / INR (2 * S M')))
      by (field; lra).
    ring. }
  rewrite (map_ext _ _ Hterm), Rsum_exchange.
  assert (Hcol : forall nx : nat * R,
    In nx (combine (seq 0 (length a)) a) ->
    Rsum (map (fun k =>
                 snd nx *
                 (hermitian_weight (S M' + 1) k *
                  cos (INR k *
                       (2 * PI * IZR (Z.of_nat t - Z.of_nat (fst nx)) /
                        INR (2 * S M')))))
              (seq 0 (S M' + 1)))
    = snd nx *
      (if (Z.of_nat t - Z.of_nat (fst nx) =? 0)%Z then INR (2 * S M') else 0)).
  { intros [n x] Hin. apply in_combine_l in Hin. apply in_seq in Hin.
    cbn [fst snd]. rewrite Rsum_map_scale. f_equal.
    apply kernel_value. lia. }
  rewrite (map_ext_in _ _ _ Hcol), Rsum_only_index by lia.
  rewrite Nat.sub_0_r. field. lra.
Qed.

Lemma map_nth_seq (a : list R) :
  map (fun t => nth t a 0) (seq 0 (length a)) = a.
Proof.
  induction a as [|x a IH]; [reflexivity|].
  cbn [length seq map nth]. f_equal.
  rewrite <- seq_shift, map_map. exact IH.
Qed.

(** The inverse transform undoes the forward transform of a buffer with an
    even, non-zero number of samples. *)
Lemma irfft_of_rfft (signal : list R) :
  signal <> [] -> Nat.even (length signal) = true ->
  np_fft_irfft (map (rfft_bin signal) (seq 0 (length signal / 2 + 1)))
  = Ok signal.
Proof.
  intros Hne Hev. apply Nat.even_spec in Hev. destruct Hev as [M HM].
  destruct M as [|M']; [destruct signal; [congruence | discriminate]|].
  rewrite HM at 1. rewrite (Nat.mul_comm 2 (S M')), Nat.div_mul by lia.
  unfold np_fft_irfft. rewrite length_map, length_seq.
  replace (2 * (S M' + 1 - 1))%nat with (2 * S M')%nat by lia.
  destruct (Nat.eqb_spec (2 * S M') 0) as [H0 | _]; [lia|].
  f_equal. rewrite <- (map_nth_seq signal) at 2. rewrite HM.
  apply map_ext_in. intros t Ht. apply in_seq in Ht.
  apply irfft_sample_of_rfft; lia.
Qed.

End Inversion.

Section AttenuationLaws.

Import Numpy Dsp.
Local Open Scope R_scope.

Lemma Cscale_one (z : complex) : Cscale (Q2R 1) z = z.
Proof.
  destruct z as [x y]. unfold Cscale, Cre, Cim; cbn [fst snd].
  replace (Q2R 1) with 1 by (unfold Q2R; cbn; field).
  now rewrite !Rmult_1_l.
Qed.

(** When none of the bin frequencies that the code computes is above
    1000 Hz, every gain is 1 and the attenuation gives a buffer with an
    even, non-zero number of samples back unchanged: the inverse transform
    undoes the forward one. *)
Theorem attenuation_identity_below_1000 (signal : list R) (sr : Z) :
  signal <> [] -> Nat.even (length signal) = true -> sr <> 0%Z ->
  forallb (fun k => negb (1000 <? bin_frequency (length signal) sr k)%float)
          (seq 0 (length signal / 2 + 1)) = true ->
  apply_frequency_dependent_attenuation signal sr = Ok signal.
Proof.
  intros Hne Hev Hsr Hlow. unfold apply_frequency_dependent_attenuation.
  rewrite (attenuated_spectrum_bins signal sr Hne Hsr). cbn [bind].
  rewrite forallb_forall in Hlow.
  assert (Hs : map (fun k =>
                      Cscale (Q2R (band_gain (bin_frequency (length signal) sr k)))
                             (rfft_bin signal k))
                   (seq 0 (length signal / 2 + 1))
               = map (rfft_bin signal) (seq 0 (length signal / 2 + 1))).
  { apply map_ext_in. intros k Hk. apply Hlow in Hk.
    apply negb_true_iff in Hk.
    rewrite (band_gain_not_above _ Hk). apply Cscale_one. }
  rewrite Hs. now apply irfft_of_rfft.
Qed.

Lemma combine_map_r {A B C : Type} (f : B -> C) (l : list A) (l' : list B) :
  combine l (map f l') = map (fun p => (fst p, f (snd p))) (combine l l').
Proof.
  revert l'; induction l as [|a l IH]; intros l'; [reflexivity|].
  destruct l' as [|b l']; [reflexivity|]. cbn. now rewrite IH.
Qed.

Lemma Csum_scale {A : Type} (c : R) (f : A -> complex) (l : list A) :
  Csum (map (fun a => Cscale c (f a)) l) = Cscale c (Csum (map f l)).
Proof.
  induction l as [|a l IH]; cbn [map Csum fold_right].
  - unfold Cscale, Cre, Cim; cbn [fst snd]. now rewrite Rmult_0_r.
  - fold (Csum (map (fun a => Cscale c (f a)) l)). fold (Csum (map f l)).
    rewrite IH. unfold Cadd, Cscale, Cre, Cim; cbn [fst snd].
    f_equal; ring.
Qed.

Lemma rfft_bin_scale (c : R) (signal : list R) (k : nat) :
  rfft_bin (map (Rmult c) signal) k = Cscale c (rfft_bin signal k).
Proof.
  unfold rfft_bin. rewrite length_map, combine_map_r, map_map. cbn [fst snd].
  rewrite <- Csum_scale. f_equal. apply map_ext. intros [n x].
  unfold Cscale, Cre, Cim; cbn [fst snd]. f_equal; ring.
Qed.

Lemma irfft_sample_scale (c : R) (X : list complex) (n t : nat) :
  irfft_sample (map (Cscale c) X) n t = c * irfft_sample X n t.
Proof.
  unfold irfft_sample. rewrite length_map, combine_map_r, map_map. cbn [fst snd].
  assert (H : forall kz : nat * complex,
            hermitian_weight (length X) (fst kz) *
            Cre (Cmul (Cscale c (snd kz))
                      (Cexp_i (2 * PI * INR (fst kz) * INR t / INR n)))
            = c * (hermitian_weight (length X) (fst kz) *
                   Cre (Cmul (snd kz)
                             (Cexp_i (2 * PI * INR (fst kz) * INR t / INR n))))).
  { intros kz. unfold Cmul, Cscale, Cre, Cim; cbn [fst snd]. ring. }
  rewrite (map_ext _ _ H), Rsum_map_scale. ring.
Qed.

(** Multiplying every input sample by a factor multiplies every attenuated
    sample by the same factor, and changes neither whether the attenuation
    raises nor what it raises. *)
Theorem attenuation_homogeneous (c : R) (signal : list R) (sr : Z) :
  apply_frequency_dependent_attenuation (map (Rmult c) signal) sr
  = match apply_frequency_dependent_attenuation signal sr with
    | Ok out => Ok (map (Rmult c) out)
    | Raise e => Raise e
    end.
Proof.
  destruct signal as [|x0 t]; [reflexivity|].
  destruct (Z.eq_dec sr 0) as [-> | Hsr].
  { rewrite !attenuation_zero_rate by discriminate. reflexivity. }
  unfold apply_frequency_dependent_attenuation.
  rewrite !attenuated_spectrum_bins by (discriminate || assumption).
  cbn [bind]. rewrite length_map.
  set (signal := x0 :: t).
  assert (Hs : map (fun k =>
                      Cscale (Q2R (band_gain (bin_frequency (length signal) sr k)))
                             (rfft_bin (map (Rmult c) signal) k))
                   (seq 0 (length signal / 2 + 1))
               = map (Cscale c)
                   (map (fun k =>
                           Cscale (Q2R (band_gain (bin_frequency (length signal) sr k)))
                                  (rfft_bin signal k))
                        (seq 0 (length signal / 2 + 1)))).
  { rewrite map_map. apply map_ext. intros k. rewrite rfft_bin_scale.
    unfold Cscale, Cre, Cim; cbn [fst snd]. f_equal; ring. }
  change (map (Rmult c) (x0 :: t)) with (map (Rmult c) signal).
  rewrite Hs. clear Hs.
  set (X := map (fun k =>
                   Cscale (Q2R (band_gain (bin_frequency (length signal) sr k)))
                          (rfft_bin signal k))
                (seq 0 (length signal / 2 + 1))).
  unfold np_fft_irfft. rewrite length_map.
  destruct (2 * (length X - 1) =? 0)%nat; [reflexivity|].
  f_equal. rewrite (map_map (irfft_sample X (2 * (length X - 1))) (Rmult c)).
  apply map_ext. intros u. apply irfft_sample_scale.
Qed.

End AttenuationLaws.

(** ** Instances *)

Section Instances.

Import Numpy Dsp OsPath App.
Local Open Scope string_scope.
Local Open Scope list_scope.

(** Two files that process, in a session that carries a stale buffer and
    rate: the run leaves the two new results and nothing else.  With a
    second file that raises, the run leaves the result of the first file
    alone, the stale ones gone. *)
Lemma process_success_rebuilds_results_witness :
  combine
    (processed_audios
       (fst (process_audios demo_env
               (with_results
                  (fst (run demo_env
                          [UploadAudioFiles ["/in/a.wav"; "/in/d.wav"]]))
                  [[NaN]] [8000%Z])
               [])))
    (sampling_rates
       (fst (process_audios demo_env
               (with_results
                  (fst (run demo_env
                          [UploadAudioFiles ["/in/a.wav"; "/in/d.wav"]]))
                  [[NaN]] [8000%Z])
               [])))
  = [(demo_buffer, 44100%Z); (demo_buffer, 44100%Z)] /\
  processed_audios
    (fst (process_audios demo_env
            (with_results
               (fst (run demo_env
                       [UploadAudioFiles ["/in/a.wav"; "/in/b.wav"; "/in/d.wav"]]))
               [[NaN]; [NaN]] [8000%Z; 8000%Z])
            []))
  = [demo_buffer] /\
  sampling_rates
    (fst (process_audios demo_env
            (with_results
               (fst (run demo_env
                       [UploadAudioFiles ["/in/a.wav"; "/in/b.wav"; "/in/d.wav"]]))
               [[NaN]; [NaN]] [8000%Z; 8000%Z])
            []))
  = [44100%Z].
Proof.
  split.
  - apply (proj1 (process_success_rebuilds_results demo_env
                    (with_results
                       (fst (run demo_env
                               [UploadAudioFiles ["/in/a.wav"; "/in/d.wav"]]))
                       [[NaN]] [8000%Z])
                    [])
                 [(demo_buffer, 44100%Z); (demo_buffer, 44100%Z)]).
    + discriminate.
    + repeat constructor; apply demo_two_samples; reflexivity.
  - apply (proj1 (proj2 (proj2 (process_success_rebuilds_results demo_env
                    (fst (run demo_env
                            [UploadAudioFiles
                               ["/in/a.wav"; "/in/b.wav"; "/in/d.wav"]]))
                    [])))
                 ["/in/a.wav"] "/in/b.wav" ["/in/d.wav"]
                 [(demo_buffer, 44100%Z)]
                 (ValueError "Invalid number of FFT data points (0) specified.")
                 [[NaN]; [NaN]] [8000%Z; 8000%Z]).
    + reflexivity.
    + constructor; [apply demo_two_samples; reflexivity | constructor].
    + apply demo_single_sample; reflexivity.
Defined.

Lemma failing_path_fails_every_later_run_witness :
  In "/in/b.wav"
     (audio_paths
        (fst (run demo_env
                ([UploadAudioFiles ["/in/b.wav"]] ++
                 [ClickProcess; UploadAudioFiles ["/in/a.wav"]])))) /\
  exists w' e',
    snd (process_audios demo_env
           (fst (run demo_env
                   ([UploadAudioFiles ["/in/b.wav"]] ++
                    [ClickProcess; UploadAudioFiles ["/in/a.wav"]])))
           (snd (run demo_env
                   ([UploadAudioFiles ["/in/b.wav"]] ++
                    [ClickProcess; UploadAudioFiles ["/in/a.wav"]]))))
    = w' ++ [ShowError "Processing Error"
               ("An error occurred: " ++ str_of_exn e')%string] /\
    save_button
      (fst (process_audios demo_env
              (fst (run demo_env
                      ([UploadAudioFiles ["/in/b.wav"]] ++
                       [ClickProcess; UploadAudioFiles ["/in/a.wav"]])))
              (snd (run demo_env
                      ([UploadAudioFiles ["/in/b.wav"]] ++
                       [ClickProcess; UploadAudioFiles ["/in/a.wav"]])))))
    = save_button
        (fst (run demo_env
                ([UploadAudioFiles ["/in/b.wav"]] ++
                 [ClickProcess; UploadAudioFiles ["/in/a.wav"]]))).
Proof.
  apply (failing_path_fails_every_later_run demo_env
           [UploadAudioFiles ["/in/b.wav"]]
           [ClickProcess; UploadAudioFiles ["/in/a.wav"]]
           "/in/b.wav"
           (ValueError "Invalid number of FFT data points (0) specified.")).
  - left. reflexivity.
  - apply demo_single_sample. reflexivity.
Defined.

Lemma demo_enabled_after_success :
  save_button
    (fst (run demo_env [UploadAudioFiles ["/in/a.wav"]; ClickProcess]))
  = NORMAL.
Proof.
  unfold run. cbn [fold_left step].
  rewrite (process_audios_ok demo_env _ [] [(demo_buffer, 44100%Z)]);
    [reflexivity | discriminate
     | constructor; [apply demo_two_samples; reflexivity | constructor]].
Qed.

Lemma save_button_stays_enabled_witness :
  save_button
    (fst (run demo_env
            ([UploadAudioFiles ["/in/a.wav"]; ClickProcess] ++
             [UploadAudioFiles ["/in/b.wav"]; ClickProcess])))
  = NORMAL.
Proof.
  apply (save_button_stays_enabled demo_env
           [UploadAudioFiles ["/in/a.wav"]; ClickProcess]
           [UploadAudioFiles ["/in/b.wav"]; ClickProcess]).
  exact demo_enabled_after_success.
Defined.

Lemma demo_disabled_after_failure :
  save_button
    (fst (run demo_env
            [UploadAudioFiles ["/in/b.wav"]; ClickProcess;
             ChooseSaveDirectory "/out"; ClickSave]))
  = DISABLED.
Proof.
  unfold run. cbn [fold_left step].
  rewrite (process_audios_raise demo_env _ [] [] [] "/in/b.wav" []
             (ValueError "Invalid number of FFT data points (0) specified."));
    [reflexivity | reflexivity | constructor
     | apply demo_single_sample; reflexivity].
Qed.

Lemma nothing_written_while_disabled_witness :
  existsb is_write
    (snd (run demo_env
            [UploadAudioFiles ["/in/b.wav"]; ClickProcess;
             ChooseSaveDirectory "/out"; ClickSave]))
  = false.
Proof.
  apply (nothing_written_while_disabled demo_env
           [UploadAudioFiles ["/in/b.wav"]; ClickProcess;
            ChooseSaveDirectory "/out"; ClickSave]).
  exact demo_disabled_after_failure.
Defined.

Lemma parse_file_paths_of_joined_witness :
  parse_file_paths (str_join " " ["/in/a.wav"; "/in/b.wav"; "/in/x.tar.gz"])
  = ["/in/a.wav"; "/in/b.wav"; "/in/x.tar.gz"].
Proof.
  apply (parse_file_paths_of_joined ["/in/a.wav"; "/in/b.wav"; "/in/x.tar.gz"]).
  repeat constructor; discriminate.
Defined.

Lemma processed_buffer_nan_or_unit_peak_witness :
  demo_buffer <> [] /\
  (Forall (fun s => s = NaN) demo_buffer \/
   exists ys,
     demo_buffer = map Finite ys /\ np_max (map Rabs ys) = Ok 1%R /\
     Forall (fun y => (-1 <= y <= 1)%R) ys) /\
  Forall (fun s => forall negative, s <> Inf negative) demo_buffer.
Proof.
  apply (processed_buffer_nan_or_unit_peak demo_env "/in/a.wav" demo_buffer 44100).
  apply demo_two_samples. reflexivity.
Defined.

Lemma silent_recording_becomes_nan_witness :
  process_one
    {| librosa_load := fun _ => Ok ([0; 0; 0; 0; 0]%R, 8000%Z);
       os_path_isfile := fun _ => true;
       sf_write := fun _ _ _ => Ok tt |}
    "silence.wav"
  = Ok ([NaN; NaN; NaN; NaN], 8000%Z).
Proof.
  apply (silent_recording_becomes_nan
           {| librosa_load := fun _ => Ok ([0; 0; 0; 0; 0]%R, 8000%Z);
              os_path_isfile := fun _ => true;
              sf_write := fun _ _ _ => Ok tt |}
           "silence.wav" [0; 0; 0; 0; 0]%R 8000).
  - reflexivity.
  - repeat constructor.
  - cbn. lia.
  - lia.
Defined.

Lemma compress_keeps_order_witness :
  exists out,
    apply_dynamic_range_compression [0; -1; 1 / 2]%R = Ok (map Finite out) /\
    forall i j xi xj yi yj,
      nth_error [0; -1; 1 / 2]%R i = Some xi ->
      nth_error [0; -1; 1 / 2]%R j = Some xj ->
      nth_error out i = Some yi -> nth_error out j = Some yj ->
      ((xi < xj)%R -> (yi < yj)%R) /\ (xi = xj -> yi = yj).
Proof.
  apply (compress_keeps_order [0; -1; 1 / 2]%R).
  apply Exists_cons_tl. apply Exists_cons_hd. lra.
Defined.

(** Four samples at 2000 Hz have their bins at 0, 500 and 1000 Hz as
    computed; with 22 samples at the same rate the last bin is computed one
    unit in the last place above 1000 Hz and the premise does not hold. *)
Lemma attenuation_identity_below_1000_witness :
  apply_frequency_dependent_attenuation [1; 0; -1; 0]%R 2000
  = Ok [1; 0; -1; 0]%R /\
  map (bin_frequency 4 2000) [0; 1; 2]%nat = [0; 500; 1000]%float /\
  (1000 <? bin_frequency 22 2000 11)%float = true.
Proof.
  split; [| split; vm_compute; reflexivity].
  apply (attenuation_identity_below_1000 [1; 0; -1; 0]%R 2000).
  - discriminate.
  - reflexivity.
  - lia.
  - vm_compute. reflexivity.
Defined.

End Instances.
